(** * Edit scripts of pgavlin/diff: validation, application, line expansion,
      the LCS and Myers producers.

    A shallow embedding of [diff.go], [ndiff.go], [lcs/sequence.go] and
    [myers/diff.go].  Texts ([text.String]: [string] or [[]byte]) are lists
    of bytes, Go's [int] is [Z] (subtraction of caller-supplied offsets wraps
    at 64 bits, see [GoInt]), slices that are shared between caller and callee
    live in an explicit store ([Heap]). *)

From stdpp Require Import base list sorting gmap.
From Stdlib Require Import ZArith Lia.
From Stdlib.Strings Require Import Byte.

Local Open Scope Z_scope.

(** ** Go integers *)

Module GoInt.

Definition int_min : Z := - 2 ^ 63.
Definition int_max : Z := 2 ^ 63 - 1.

(** Two's complement wrap-around of a mathematical result into [int]. *)
Definition wrap (z : Z) : Z := (z + 2 ^ 63) mod 2 ^ 64 - 2 ^ 63.

(** [x - y] on [int]. *)
Definition sub (x y : Z) : Z := wrap (x - y).

Definition in_range (z : Z) : Prop := int_min <= z <= int_max.

Lemma wrap_small z : in_range z -> wrap z = z.
Proof.
  unfold in_range, wrap, int_min, int_max. intros H.
  rewrite Z.mod_small; lia.
Qed.

Lemma wrap_range z : in_range (wrap z).
Proof.
  unfold in_range, wrap, int_min, int_max.
  pose proof (Z.mod_pos_bound (z + 2 ^ 63) (2 ^ 64)). lia.
Qed.

End GoInt.

(** ** Texts, slicing, panics *)

Abbreviation byte := Byte.byte.
Abbreviation Text := (list byte).

#[global] Instance byte_eq_dec : EqDecision byte := Byte.byte_eq_dec.

(** The newline byte ['\n']. *)
Definition NL : byte := x0a.

Definition len {A} (s : list A) : Z := Z.of_nat (length s).

(** What a Go function does besides returning: run-time panics. *)
Inductive panic : Type :=
| SliceBounds   (* slice bounds out of range *)
| IndexRange    (* index out of range *)
| MakeCap       (* make: cap out of range *)
| WrongSize     (* panic("wrong size") *)
| StackOverflow. (* recursion without end: the goroutine stack is exhausted *)

Inductive outcome (A : Type) : Type :=
| Returns (a : A)
| Panics (p : panic).
Arguments Returns {A} a.
Arguments Panics {A} p.

#[global] Instance outcome_bind : MBind outcome := fun A B k m =>
  match m with
  | Returns a => k a
  | Panics p => Panics p
  end.

(** The elements of [s] at the positions [lo], ..., [hi - 1]. *)
Definition segment {A} (s : list A) (lo hi : Z) : list A :=
  take (Z.to_nat (hi - lo)) (drop (Z.to_nat lo) s).

(** [s[lo:hi]]: panics unless [0 <= lo <= hi <= len(s)]. *)
Definition slice {A} (s : list A) (lo hi : Z) : outcome (list A) :=
  if (0 <=? lo) && (lo <=? hi) && (hi <=? len s)
  then Returns (segment s lo hi)
  else Panics SliceBounds.

(** [s[lo:]]. *)
Definition slice_from {A} (s : list A) (lo : Z) : outcome (list A) :=
  slice s lo (len s).

(** [s[:hi]]. *)
Definition slice_to {A} (s : list A) (hi : Z) : outcome (list A) :=
  slice s 0 hi.

(** [s[i]]: panics unless [0 <= i < len(s)]. *)
Definition index {A} (s : list A) (i : Z) : outcome A :=
  if (0 <=? i) && (i <? len s)
  then match s !! Z.to_nat i with
       | Some x => Returns x
       | None => Panics IndexRange
       end
  else Panics IndexRange.

(** ** Edits *)

(** [type Edit struct { Start, End int; New S }] *)
Record Edit : Type := mkEdit { Start : Z; End : Z; New : Text }.

Inductive error : Type :=
| ErrOutOfBounds   (* "diff has out-of-bounds edits" *)
| ErrOverlapping   (* "diff has overlapping edits" *)
| ErrEOF.          (* io.EOF *)

(** ** package sort (Go standard library) *)

Module Sort.
Section Interface.
Context {A : Type} (less : A -> A -> bool).

(** [sort.IsSorted]: no element is less than its predecessor. *)
Fixpoint IsSorted (l : list A) : bool :=
  match l with
  | [] => true
  | x :: r =>
      match r with
      | [] => true
      | y :: _ => negb (less y x) && IsSorted r
      end
  end.

(** One pass of the inner loop of [insertionSort]: the new element [x]
    is swapped leftwards while it is less than its left neighbour.
    [sorted_rev] is the already processed prefix, last element first. *)
Fixpoint sift (x : A) (sorted_rev : list A) : list A :=
  match sorted_rev with
  | [] => [x]
  | y :: r => if less x y then y :: sift x r else x :: y :: r
  end.

(** [insertionSort(data, 0, n)]. *)
Definition insertionSort (l : list A) : list A :=
  rev (fold_left (fun acc x => sift x acc) l []).

(** [sort.Stable].  The library sorts blocks of 20 elements with
    [insertionSort] and then merges the blocks with [symMerge]; up to 20
    elements it is [insertionSort] alone.  When [less] is a strict weak
    order on the elements both compute the one stable sorted
    arrangement, which is what this model returns. *)
Definition Stable (l : list A) : list A := insertionSort l.
End Interface.
End Sort.

(** ** diff.go *)

(** [editsSort.Less]: by start, then by end; the start comparison is done
    on the (wrapping) difference of the two starts. *)
Definition Less (a b : Edit) : bool :=
  let cmp := GoInt.sub (Start a) (Start b) in
  if negb (cmp =? 0) then cmp <? 0 else End a <? End b.

(** [SortEdits]: the slice after the in-place stable sort. *)
Definition SortEdits (edits : list Edit) : list Edit := Sort.Stable Less edits.

(** The slice [validate] iterates over: its argument when that is sorted,
    a sorted copy otherwise. *)
Definition sortedEdits (edits : list Edit) : list Edit :=
  if Sort.IsSorted Less edits then edits else SortEdits edits.

(** The checking loop of [Validate]: [Some (size, lastEnd)] after a clean
    pass, the error of the first offending edit otherwise. *)
Fixpoint validateLoop (srcLen : Z) (edits : list Edit) (size lastEnd : Z)
  : error + Z :=
  match edits with
  | [] => inr size
  | edit :: rest =>
      if negb ((0 <=? Start edit) && (Start edit <=? End edit) && (End edit <=? srcLen))
      then inl ErrOutOfBounds
      else if Start edit <? lastEnd
      then inl ErrOverlapping
      else validateLoop srcLen rest (size + (len (New edit) + Start edit - End edit)) (End edit)
  end.

(** [Validate(srcLen, edits)] returns [(edits, size, err)]; on error the
    slice is [nil] and the size 0.  Sizes are lengths of buffers that have to
    exist in memory and are computed in [Z]. *)
Definition Validate (srcLen : Z) (edits : list Edit) : list Edit * Z * option error :=
  let edits := sortedEdits edits in
  match validateLoop srcLen edits srcLen 0 with
  | inl err => ([], 0, Some err)
  | inr size => (edits, size, None)
  end.

(** [validate(src, edits)], the variant that takes the text. *)
Definition validate (src : Text) (edits : list Edit) : list Edit * Z * option error :=
  Validate (len src) edits.

(** The loop of [Apply] over the validated edits: the output so far and
    [lastEnd]. *)
Fixpoint applyLoop (src : Text) (edits : list Edit) (out : Text) (lastEnd : Z)
  : outcome (Text * Z) :=
  match edits with
  | [] => Returns (out, lastEnd)
  | edit :: rest =>
      out ← (if lastEnd <? Start edit
             then s ← slice src lastEnd (Start edit); Returns (out ++ s)
             else Returns out);
      applyLoop src rest (out ++ New edit) (End edit)
  end.

(** [Apply(src, edits)] returns [(text, err)] or panics. *)
Definition Apply (src : Text) (edits : list Edit) : outcome (Text * option error) :=
  match Validate (len src) edits with
  | (_, _, Some err) => Returns ([], Some err)
  | (edits, size, None) =>
      if size <? 0 then Panics MakeCap else
'(out, lastEnd) ← applyLoop src edits [] 0;
      tl ← slice_from src lastEnd;
      let out := out ++ tl in
      if negb (len out =? size) then Panics WrongSize
      else Returns (out, None)
  end.

(** *** package text (github.com/pgavlin/text): byte searches *)

(** [text.IndexByte(s, c)]: index of the first [c] in [s], or -1. *)
Fixpoint IndexByte (s : Text) (c : byte) : Z :=
  match s with
  | [] => -1
  | b :: r =>
      if Byte.eqb b c then 0
      else let i := IndexByte r c in if i <? 0 then -1 else i + 1
  end.

(** [text.LastIndexByte(s, c)]: index of the last [c] in [s], or -1. *)
Fixpoint LastIndexByte (s : Text) (c : byte) : Z :=
  match s with
  | [] => -1
  | b :: r =>
      let i := LastIndexByte r c in
      if 0 <=? i then i + 1
      else if Byte.eqb b c then 0 else -1
  end.

(** [text.ContainsAny(s, "\n")]. *)
Definition ContainsNL (s : Text) : bool := existsb (fun b => Byte.eqb b NL) s.

(** *** lineEdits *)

(** [expandEdit(edit, src)]: the edit grown to whole lines. *)
Definition expandEdit (edit : Edit) (src : Text) : outcome Edit :=
  let start := Start edit in
  before ← slice_to src start;
  let delta := start - 1 - LastIndexByte before NL in
  edit ← (if delta >? 0
          then s ← slice src (start - delta) start;
               Returns {| Start := Start edit - delta; End := End edit; New := s ++ New edit |}
          else Returns edit);
  let end_ := End edit in
  rest ← slice_from src end_;
  let nl := IndexByte rest NL in
  let newEnd := if nl <? 0 then len src else end_ + nl + 1 in
  s ← slice src end_ newEnd;
  Returns {| Start := Start edit; End := newEnd; New := New edit ++ s |}.

(** The condition of the fast-path loop on one edit: [true] sends
    [lineEdits] to [expand]. *)
Definition needsExpand1 (src : Text) (edit : Edit) : outcome bool :=
  if Start edit >=? len src then Returns true
  else
    b ← (if Start edit >? 0
         then c ← index src (Start edit - 1); Returns (negb (Byte.eqb c NL))
         else Returns false);
    if b : bool then Returns true
    else if End edit >? 0
         then c ← index src (End edit - 1); Returns (negb (Byte.eqb c NL))
         else Returns false.

(** The fast-path loop: does some edit jump to [expand]? *)
Fixpoint needsExpand (src : Text) (edits : list Edit) : outcome bool :=
  match edits with
  | [] => Returns false
  | edit :: rest =>
      b ← needsExpand1 src edit;
      if b : bool then Returns true else needsExpand src rest
  end.

(** The loop after the label [expand], over [edits[1:]]. *)
Fixpoint expandLoop (src : Text) (prev : Edit) (edits expanded : list Edit)
  : outcome (list Edit) :=
  match edits with
  | [] => e ← expandEdit prev src; Returns (expanded ++ [e])
  | edit :: rest =>
      between ← slice src (End prev) (Start edit);
      if negb (ContainsNL between)
      then expandLoop src
             {| Start := Start prev; End := End edit;
                New := New prev ++ between ++ New edit |} rest expanded
      else e ← expandEdit prev src;
           expandLoop src edit rest (expanded ++ [e])
  end.

(** [lineEdits(src, edits)] returns [(edits, err)] or panics. *)
Definition lineEdits (src : Text) (edits : list Edit)
  : outcome (list Edit * option error) :=
  match Validate (len src) edits with
  | (_, _, Some err) => Returns ([], Some err)
  | (edits, _, None) =>
      b ← needsExpand src edits;
      if b : bool then
        match edits with
        | [] => Panics IndexRange
        | prev :: rest => r ← expandLoop src prev rest []; Returns (r, None)
        end
      else Returns (edits, None)
  end.

(** *** package io (Go standard library), in memory *)

Module IO.

(** A writer is [io.Discard] or an in-memory buffer holding what has been
    written; a reader is the text that has not been read yet. *)
Inductive Writer : Type :=
| Discard
| Buffer (content : Text).

Abbreviation Reader := Text.

(** [w.Write(p)] returns [(len(p), nil)]. *)
Definition Write (w : Writer) (p : Text) : Writer * (Z * option error) :=
  match w with
  | Discard => (Discard, (len p, None))
  | Buffer c => (Buffer (c ++ p), (len p, None))
  end.

(** [io.CopyN(dst, src, n)]: copies [n] bytes, or fewer when [src] is
    exhausted, which is reported as [io.EOF]. *)
Definition CopyN (dst : Writer) (src : Reader) (n : Z)
  : Writer * Reader * (Z * option error) :=
  let chunk := take (Z.to_nat n) src in
  let '(dst, (w, _)) := Write dst chunk in
  (dst, drop (Z.to_nat n) src, (w, if w <? n then Some ErrEOF else None)).

(** [io.Copy(dst, src)]: copies until [src] is exhausted. *)
Definition Copy (dst : Writer) (src : Reader)
  : Writer * Reader * (Z * option error) :=
  let '(dst, (w, _)) := Write dst src in
  (dst, [], (w, None)).

Definition content (w : Writer) : Text :=
  match w with
  | Discard => []
  | Buffer c => c
  end.

End IO.

(** *** ApplyTo *)

(** The local variables of [ApplyTo] together with its two streams. *)
Record applyToState : Type := mkApplyTo {
  st_dst : IO.Writer; st_src : IO.Reader; cursor : Z; lastEnd : Z; written : Z
}.

(** The loop of [ApplyTo]: [inl] is an early [return written, err]. *)
Fixpoint applyToLoop (edits : list Edit) (st : applyToState)
  : (applyToState * error) + applyToState :=
  match edits with
  | [] => inr st
  | edit :: rest =>
      let step1 :=
        if lastEnd st <? Start edit then
          let '(_, r, (_, err)) := IO.CopyN IO.Discard (st_src st) (lastEnd st - cursor st) in
          match err with
          | Some e => inl (mkApplyTo (st_dst st) r (cursor st) (lastEnd st) (written st), e)
          | None =>
              let cur := lastEnd st in
              let '(d, r, (w, err)) := IO.CopyN (st_dst st) r (Start edit - lastEnd st) in
              let wr := written st + w in
              match err with
              | Some e => inl (mkApplyTo d r cur (lastEnd st) wr, e)
              | None => inr (mkApplyTo d r (Start edit) (lastEnd st) wr)
              end
          end
        else inr st in
      match step1 with
      | inl ret => inl ret
      | inr st =>
          let '(d, (w, err)) := IO.Write (st_dst st) (New edit) in
          let wr := written st + w in
          match err with
          | Some e => inl (mkApplyTo d (st_src st) (cursor st) (lastEnd st) wr, e)
          | None => applyToLoop rest (mkApplyTo d (st_src st) (cursor st) (End edit) wr)
          end
      end
  end.

(** [ApplyTo(dst, src, srcLen, edits)]: the streams afterwards and the
    returned [(written, err)]. *)
Definition ApplyTo (dst : IO.Writer) (src : IO.Reader) (srcLen : Z) (edits : list Edit)
  : IO.Writer * IO.Reader * (Z * option error) :=
  match Validate srcLen edits with
  | (_, _, Some err) => (dst, src, (0, Some err))
  | (edits, _, None) =>
      match applyToLoop edits (mkApplyTo dst src 0 0 0) with
      | inl (st, e) => (st_dst st, st_src st, (written st, Some e))
      | inr st =>
          let '(_, r, (_, err)) := IO.CopyN IO.Discard (st_src st) (lastEnd st - cursor st) in
          match err with
          | Some e => (st_dst st, r, (written st, Some e))
          | None =>
              let '(d, r, (w, err)) := IO.Copy (st_dst st) r in
              (d, r, (written st + w, err))
          end
      end
  end.

(** ** Properties of validation *)

(** An edit lies within a source of length [L]. *)
Definition inBounds (L : Z) (e : Edit) : Prop :=
  0 <= Start e /\ Start e <= End e /\ End e <= L.

(** No edit starts before the end of its predecessor ([lastEnd] for the
    first). *)
Fixpoint ordered (lastEnd : Z) (edits : list Edit) : Prop :=
  match edits with
  | [] => True
  | e :: r => lastEnd <= Start e /\ ordered (End e) r
  end.

(** The value of [lastEnd] after a pass over [edits]. *)
Fixpoint lastEndOf (lastEnd : Z) (edits : list Edit) : Z :=
  match edits with
  | [] => lastEnd
  | e :: r => lastEndOf (End e) r
  end.

(** [Σ (len(new) + start − end)]. *)
Fixpoint sizeDelta (edits : list Edit) : Z :=
  match edits with
  | [] => 0
  | e :: r => (len (New e) + Start e - End e) + sizeDelta r
  end.


Lemma inBounds_dec L e :
  (0 <=? Start e) && (Start e <=? End e) && (End e <=? L) = true <-> inBounds L e.
Proof. unfold inBounds. rewrite !andb_true_iff, !Z.leb_le. tauto. Qed.

Lemma validateLoop_ok L edits size lastEnd size' :
  validateLoop L edits size lastEnd = inr size' <->
  Forall (inBounds L) edits /\ ordered lastEnd edits /\ size' = size + sizeDelta edits.
Proof.
  revert size lastEnd. induction edits as [|e r IH]; intros size lastEnd; simpl.
  - split.
    + intros [= <-]. repeat split; [constructor | lia].
    + intros (_ & _ & ->). f_equal. lia.
  - destruct ((0 <=? Start e) && (Start e <=? End e) && (End e <=? L)) eqn:Hb; simpl.
    + apply inBounds_dec in Hb.
      destruct (Start e <? lastEnd) eqn:Hlt.
      * apply Z.ltb_lt in Hlt. split; [discriminate | intros (_ & [? _] & _); lia].
      * apply Z.ltb_ge in Hlt. rewrite IH. split.
        -- intros (Hf & Ho & ->). repeat split; [constructor | | | lia]; auto.
        -- intros (Hf & [_ Ho] & ->). inversion Hf; subst.
           repeat split; auto. lia.
    + split; [discriminate |].
      intros (Hf & _). inversion Hf as [|? ? He _]; subst.
      apply inBounds_dec in He. congruence.
Qed.

Lemma ordered_app lastEnd pre post :
  ordered lastEnd (pre ++ post) <->
  ordered lastEnd pre /\ ordered (lastEndOf lastEnd pre) post.
Proof.
  revert lastEnd. induction pre as [|e r IH]; intros lastEnd; simpl.
  - tauto.
  - rewrite IH. tauto.
Qed.

(** The first failing check decides the error. *)
Lemma validateLoop_err L edits size lastEnd err :
  validateLoop L edits size lastEnd = inl err <->
  exists pre e post, edits = pre ++ e :: post /\
    Forall (inBounds L) pre /\ ordered lastEnd pre /\
    ((~ inBounds L e /\ err = ErrOutOfBounds) \/
     (inBounds L e /\ Start e < lastEndOf lastEnd pre /\ err = ErrOverlapping)).
Proof.
  revert size lastEnd. induction edits as [|e r IH]; intros size lastEnd; simpl.
  - split; [discriminate |]. intros (pre & e & post & H & _).
    destruct pre; discriminate.
  - destruct ((0 <=? Start e) && (Start e <=? End e) && (End e <=? L)) eqn:Hb; simpl.
    + pose proof (proj1 (inBounds_dec L e) Hb) as He.
      destruct (Start e <? lastEnd) eqn:Hlt.
      * apply Z.ltb_lt in Hlt. split.
        -- intros [= <-]. exists [], e, r. simpl. repeat split; auto.
        -- intros (pre & e' & post & Heq & Hf & Ho & Hc).
           destruct pre as [|p pre]; simpl in *.
           ++ injection Heq as <- <-. destruct Hc as [[? _] | (_ & _ & ->)]; tauto.
           ++ injection Heq as <- ->. destruct Ho. lia.
      * apply Z.ltb_ge in Hlt. rewrite IH. split.
        -- intros (pre & e' & post & -> & Hf & Ho & Hc).
           exists (e :: pre), e', post. simpl. repeat split; auto.
        -- intros (pre & e' & post & Heq & Hf & Ho & Hc).
           destruct pre as [|p pre]; simpl in *.
           ++ injection Heq as <- <-. destruct Hc as [[? _] | (_ & ? & _)]; [tauto | lia].
           ++ injection Heq as <- ->. inversion Hf; subst. destruct Ho.
              exists pre, e', post. repeat split; auto.
    + assert (He : ~ inBounds L e) by (rewrite <- inBounds_dec; congruence).
      split.
      * intros [= <-]. exists [], e, r. simpl. repeat split; auto.
      * intros (pre & e' & post & Heq & Hf & Ho & Hc).
        destruct pre as [|p pre]; simpl in *.
        -- injection Heq as <- <-. destruct Hc as [[_ ->] | [? _]]; tauto.
        -- injection Heq as <- ->. inversion Hf; subst. tauto.
Qed.

(** ** Properties of the sort *)

Section SortFacts.
Context {A : Type} (less : A -> A -> bool).

Lemma sift_perm x l : Sort.sift less x l ≡ₚ x :: l.
Proof.
  induction l as [|y r IH]; simpl; [done |].
  destruct (less x y); [| done].
  rewrite IH. apply Permutation_swap.
Qed.

Lemma fold_sift_perm l acc :
  fold_left (fun acc x => Sort.sift less x acc) l acc ≡ₚ l ++ acc.
Proof.
  revert acc. induction l as [|x r IH]; intros acc; simpl; [done |].
  rewrite IH, sift_perm. symmetry. apply Permutation_middle.
Qed.

(** The sort rearranges, it neither drops nor invents elements. *)
Lemma Stable_perm l : Sort.Stable less l ≡ₚ l.
Proof.
  unfold Sort.Stable, Sort.insertionSort.
  rewrite <- Permutation_rev, fold_sift_perm. by rewrite app_nil_r.
Qed.

Lemma fold_sift_sorted l acc :
  Sort.IsSorted less (rev acc ++ l) = true ->
  fold_left (fun acc x => Sort.sift less x acc) l acc = rev l ++ acc.
Proof.
  revert acc. induction l as [|x r IH]; intros acc Hs; simpl; [done |].
  assert (Hx : Sort.sift less x acc = x :: acc).
  { destruct acc as [|y acc']; simpl; [done |].
    simpl in Hs. rewrite <- app_assoc in Hs. simpl in Hs.
    clear IH. induction (rev acc') as [|z t IHt]; simpl in Hs.
    - apply andb_true_iff in Hs as [Hs _]. apply negb_true_iff in Hs. by rewrite Hs.
    - destruct t; simpl in *; apply andb_true_iff in Hs as [_ Hs]; auto. }
  rewrite Hx, IH.
  - by rewrite <- app_assoc.
  - simpl. by rewrite <- app_assoc.
Qed.

(** On input that [sort.IsSorted] accepts the sort changes nothing. *)
Lemma Stable_sorted l : Sort.IsSorted less l = true -> Sort.Stable less l = l.
Proof.
  intros Hs. unfold Sort.Stable, Sort.insertionSort.
  rewrite fold_sift_sorted by done. rewrite app_nil_r. apply rev_involutive.
Qed.
End SortFacts.

Lemma sortedEdits_SortEdits edits : sortedEdits edits = SortEdits edits.
Proof.
  unfold sortedEdits, SortEdits.
  destruct (Sort.IsSorted Less edits) eqn:Hs; [| done].
  symmetry. by apply Stable_sorted.
Qed.


Lemma sizeDelta_perm l1 l2 : l1 ≡ₚ l2 -> sizeDelta l1 = sizeDelta l2.
Proof. induction 1; simpl; lia. Qed.

Lemma sizeDelta_app l1 l2 : sizeDelta (l1 ++ l2) = sizeDelta l1 + sizeDelta l2.
Proof. induction l1; simpl; lia. Qed.

(** ** Ordered lists and overlaps *)







(** ** Slices *)

Section SliceFacts.
Context {A : Type}.
Implicit Types s : list A.

Lemma len_nonneg s : 0 <= len s.
Proof. unfold len. lia. Qed.

Lemma len_app s1 s2 : len (s1 ++ s2) = len s1 + len s2.
Proof. unfold len. rewrite length_app. lia. Qed.

Lemma len_nil : len (@nil A) = 0.
Proof. reflexivity. Qed.

Lemma len_cons x s : len (x :: s) = 1 + len s.
Proof. unfold len. simpl length. lia. Qed.

Lemma slice_ok s lo hi :
  0 <= lo -> lo <= hi -> hi <= len s -> slice s lo hi = Returns (segment s lo hi).
Proof.
  intros H1 H2 H3. unfold slice.
  apply Z.leb_le in H1, H2, H3. by rewrite H1, H2, H3.
Qed.

Lemma slice_Returns s lo hi t :
  slice s lo hi = Returns t <-> (0 <= lo /\ lo <= hi /\ hi <= len s) /\ t = segment s lo hi.
Proof.
  unfold slice.
  destruct ((0 <=? lo) && (lo <=? hi) && (hi <=? len s)) eqn:Hb.
  - apply andb_true_iff in Hb as [Hb H3]. apply andb_true_iff in Hb as [H1 H2].
    apply Z.leb_le in H1, H2, H3. split; [intros [= <-] | intros [_ ->]]; auto.
  - split; [discriminate |]. intros [(H1 & H2 & H3) _].
    apply Z.leb_le in H1, H2, H3. by rewrite H1, H2, H3 in Hb.
Qed.

Lemma len_segment s lo hi :
  0 <= lo -> lo <= hi -> hi <= len s -> len (segment s lo hi) = hi - lo.
Proof.
  unfold len, segment. intros. rewrite length_take, length_drop. lia.
Qed.

Lemma segment_empty s lo hi : hi <= lo -> segment s lo hi = [].
Proof.
  unfold segment. intros. replace (Z.to_nat (hi - lo)) with 0%nat by lia. done.
Qed.

Lemma segment_all s : segment s 0 (len s) = s.
Proof.
  unfold segment, len. simpl. rewrite Z.sub_0_r, Nat2Z.id. apply firstn_all.
Qed.

Lemma segment_app s lo mid hi :
  0 <= lo -> lo <= mid -> mid <= hi ->
  segment s lo mid ++ segment s mid hi = segment s lo hi.
Proof.
  unfold segment. intros.
  replace (Z.to_nat (hi - lo)) with (Z.to_nat (mid - lo) + Z.to_nat (hi - mid))%nat by lia.
  rewrite <- take_take_drop, drop_drop.
  by replace (Z.to_nat lo + Z.to_nat (mid - lo))%nat with (Z.to_nat mid) by lia.
Qed.
End SliceFacts.

(** ** Applying validated edits *)

(** The text that a list of edits describes: the source between the edits,
    with each replaced range giving way to its new text. *)
Fixpoint patched (src : Text) (lastEnd : Z) (edits : list Edit) : Text :=
  match edits with
  | [] => segment src lastEnd (len src)
  | e :: r => segment src lastEnd (Start e) ++ New e ++ patched src (End e) r
  end.

Lemma lastEndOf_bounds L lastEnd edits :
  Forall (inBounds L) edits -> ordered lastEnd edits -> 0 <= lastEnd <= L ->
  lastEnd <= lastEndOf lastEnd edits <= L.
Proof.
  revert lastEnd. induction edits as [|e r IH]; intros lastEnd Hf Ho Hl; simpl.
  - lia.
  - inversion Hf as [|? ? (? & ? & ?) Hr]; subst. destruct Ho as [? Ho].
    specialize (IH (End e) Hr Ho). lia.
Qed.

Lemma len_patched src lastEnd edits :
  Forall (inBounds (len src)) edits -> ordered lastEnd edits -> 0 <= lastEnd <= len src ->
  len (patched src lastEnd edits) = len src - lastEnd + sizeDelta edits.
Proof.
  revert lastEnd. induction edits as [|e r IH]; intros lastEnd Hf Ho Hl; simpl.
  - rewrite len_segment; lia.
  - inversion Hf as [|? ? (? & ? & ?) Hr]; subst. destruct Ho as [? Ho].
    rewrite !len_app, IH, len_segment by (auto; lia). lia.
Qed.

(** On edits that pass the checks of validation the loop of [Apply] takes
    no slice out of range and builds the patched text up to [lastEnd]. *)
Lemma applyLoop_valid src edits out lastEnd :
  Forall (inBounds (len src)) edits -> ordered lastEnd edits -> 0 <= lastEnd <= len src ->
  exists out',
    applyLoop src edits out lastEnd = Returns (out', lastEndOf lastEnd edits) /\
    out' ++ segment src (lastEndOf lastEnd edits) (len src) = out ++ patched src lastEnd edits.
Proof.
  revert out lastEnd. induction edits as [|e r IH]; intros out lastEnd Hf Ho Hl; simpl.
  - eexists. split; reflexivity.
  - inversion Hf as [|? ? (? & ? & ?) Hr]; subst. destruct Ho as [? Ho].
    destruct (lastEnd <? Start e) eqn:Hlt.
    + rewrite slice_ok by lia. simpl.
      destruct (IH ((out ++ segment src lastEnd (Start e)) ++ New e) (End e) Hr Ho)
        as (out' & -> & Heq); [lia |].
      exists out'. split; [done |]. rewrite Heq. by rewrite <- !app_assoc.
    + apply Z.ltb_ge in Hlt. simpl.
      destruct (IH (out ++ New e) (End e) Hr Ho) as (out' & -> & Heq); [lia |].
      exists out'. split; [done |]. rewrite Heq.
      rewrite segment_empty by lia. by rewrite <- !app_assoc.
Qed.

Lemma Validate_None L E E' size :
  Validate L E = (E', size, None) <->
  E' = sortedEdits E /\ Forall (inBounds L) E' /\ ordered 0 E' /\ size = L + sizeDelta E'.
Proof.
  unfold Validate.
  destruct (validateLoop L (sortedEdits E) L 0) as [err | sz] eqn:Hv.
  - split; [discriminate |]. intros (-> & Hf & Ho & ->).
    assert (validateLoop L (sortedEdits E) L 0 = inr (L + sizeDelta (sortedEdits E)))
      by (by apply validateLoop_ok). congruence.
  - apply validateLoop_ok in Hv as (Hf & Ho & ->). split.
    + intros [= <- <-]. auto.
    + intros (-> & _ & _ & ->). done.
Qed.

Lemma Validate_Some L E err :
  (Validate L E).2 = Some err <-> validateLoop L (sortedEdits E) L 0 = inl err.
Proof.
  unfold Validate. destruct (validateLoop L (sortedEdits E) L 0); simpl.
  - split; congruence.
  - split; discriminate.
Qed.

Lemma Validate_Some_eq L E err :
  (Validate L E).2 = Some err -> Validate L E = ([], 0, Some err).
Proof.
  unfold Validate. destruct (validateLoop L (sortedEdits E) L 0); simpl.
  - congruence.
  - discriminate.
Qed.

(** What [Apply] returns on edits that validation accepts. *)
Lemma Apply_valid src E E' size :
  Validate (len src) E = (E', size, None) ->
  Apply src E = Returns (patched src 0 E', None) /\ len (patched src 0 E') = size.
Proof.
  intros HV. pose proof HV as (-> & Hf & Ho & ->)%Validate_None.
  pose proof (len_nonneg src) as Hn.
  assert (Hlen : len (patched src 0 (sortedEdits E)) = len src + sizeDelta (sortedEdits E)).
  { rewrite len_patched by (auto; lia). lia. }
  split; [| done].
  unfold Apply. rewrite HV.
  destruct (len src + sizeDelta (sortedEdits E) <? 0) eqn:Hneg.
  { apply Z.ltb_lt in Hneg. pose proof (len_nonneg (patched src 0 (sortedEdits E))). lia. }
  destruct (applyLoop_valid src (sortedEdits E) [] 0 Hf Ho) as (out' & Hl & Heq); [lia |].
  rewrite Hl. simpl.
  pose proof (lastEndOf_bounds _ 0 _ Hf Ho) as Hb.
  unfold slice_from. rewrite slice_ok by lia. simpl.
  simpl in Heq. rewrite Heq, Hlen, Z.eqb_refl. done.
Qed.

(** C2.  Whenever validation of [E] against [len(src)] succeeds, [Apply]
    returns: no slice expression is out of range, the buffer capacity is not
    negative, the "wrong size" panic is not reached, and the length of the
    returned buffer is the size that validation computed. *)
Theorem Apply_total_on_valid (src : Text) (E E' : list Edit) (size : Z) :
  Validate (len src) E = (E', size, None) ->
  exists out, Apply src E = Returns (out, None) /\ len out = size.
Proof.
  intros HV. exists (patched src 0 E'). by apply Apply_valid.
Qed.

Lemma Apply_total_on_valid_witness :
  exists out,
    Apply ["f"; "r"; "u"; "i"; "t"; NL]%byte [mkEdit 0 5 ["c"; "h"; "e"; "e"; "s"; "e"]%byte]
      = Returns (out, None) /\ len out = 7.
Proof.
  apply (Apply_total_on_valid _ _ [mkEdit 0 5 ["c"; "h"; "e"; "e"; "s"; "e"]%byte] 7).
  reflexivity.
Defined.

(** C9.  [Apply] is all or nothing: it returns the fully patched text
    and no error, or, when validation fails, the empty text and the error of
    validation (out-of-bounds or overlapping); it never panics and never
    returns a partial result. *)
Theorem Apply_all_or_nothing (src : Text) (E : list Edit) :
  (exists E' size,
      Validate (len src) E = (E', size, None) /\
      Apply src E = Returns (patched src 0 E', None)) \/
  (exists err,
      (Validate (len src) E).2 = Some err /\
      (err = ErrOutOfBounds \/ err = ErrOverlapping) /\
      Apply src E = Returns ([], Some err)).
Proof.
  destruct (Validate (len src) E) as [[E' size] [err|]] eqn:HV.
  - right. exists err. split; [done |].
    assert (He : (Validate (len src) E).2 = Some err) by (by rewrite HV).
    split.
    + apply Validate_Some, validateLoop_err in He
        as (? & ? & ? & _ & _ & _ & [[_ ->] | (_ & _ & ->)]); auto.
    + unfold Apply. by rewrite HV.
  - left. exists E', size. split; [done |]. by apply (Apply_valid src E E' size).
Qed.




(** ** Streaming application *)

(** The bytes of [src] from position [pos] on: what a reader over [src]
    still holds after [pos] bytes have been consumed. *)
Definition unread (src : Text) (pos : Z) : IO.Reader := drop (Z.to_nat pos) src.

Lemma CopyN_Discard src pos n :
  0 <= pos -> 0 <= n -> pos + n <= len src ->
  IO.CopyN IO.Discard (unread src pos) n = (IO.Discard, unread src (pos + n), (n, None)).
Proof.
  intros. unfold IO.CopyN, unread. simpl. rewrite drop_drop.
  replace (Z.to_nat pos + Z.to_nat n)%nat with (Z.to_nat (pos + n)) by lia.
  assert (Hl : len (take (Z.to_nat n) (drop (Z.to_nat pos) src)) = n).
  { unfold len in *. rewrite length_take, length_drop. lia. }
  rewrite Hl, Z.ltb_irrefl. done.
Qed.

Lemma CopyN_Buffer out src pos n :
  0 <= pos -> 0 <= n -> pos + n <= len src ->
  IO.CopyN (IO.Buffer out) (unread src pos) n =
    (IO.Buffer (out ++ segment src pos (pos + n)), unread src (pos + n), (n, None)).
Proof.
  intros. unfold IO.CopyN, unread, segment. simpl. rewrite drop_drop.
  replace (Z.to_nat pos + Z.to_nat n)%nat with (Z.to_nat (pos + n)) by lia.
  replace (pos + n - pos) with n by lia.
  assert (Hl : len (take (Z.to_nat n) (drop (Z.to_nat pos) src)) = n).
  { unfold len in *. rewrite length_take, length_drop. lia. }
  rewrite Hl, Z.ltb_irrefl. done.
Qed.

#[local] Opaque IO.CopyN unread.

(** On edits that pass the checks of validation the loop of [ApplyTo] never
    returns early, and its buffer holds what the loop of [Apply] builds. *)
Lemma applyToLoop_valid src edits out cur lastEnd w :
  Forall (inBounds (len src)) edits -> ordered lastEnd edits ->
  0 <= cur -> cur <= lastEnd -> lastEnd <= len src ->
  exists out' cur',
    applyLoop src edits out lastEnd = Returns (out', lastEndOf lastEnd edits) /\
    cur <= cur' /\ cur' <= lastEndOf lastEnd edits /\
    applyToLoop edits (mkApplyTo (IO.Buffer out) (unread src cur) cur lastEnd w) =
      inr (mkApplyTo (IO.Buffer out') (unread src cur') cur' (lastEndOf lastEnd edits)
             (w + (len out' - len out))).
Proof.
  revert out cur lastEnd w.
  induction edits as [|e r IH]; intros out cur lastEnd w Hf Ho Hc Hcl Hl.
  - exists out, cur. simpl. repeat split; try lia.
    by replace (w + (len out - len out)) with w by lia.
  - inversion Hf as [|? ? (? & ? & ?) Hr]; subst. destruct Ho as [? Ho].
    simpl. destruct (lastEnd <? Start e) eqn:Hlt.
    + apply Z.ltb_lt in Hlt. rewrite slice_ok by lia. simpl.
      rewrite (CopyN_Discard src cur (lastEnd - cur)) by lia.
      replace (cur + (lastEnd - cur)) with lastEnd by lia.
      rewrite (CopyN_Buffer out src lastEnd (Start e - lastEnd)) by lia.
      replace (lastEnd + (Start e - lastEnd)) with (Start e) by lia. simpl.
      destruct (IH ((out ++ segment src lastEnd (Start e)) ++ New e) (Start e) (End e)
                  (w + (Start e - lastEnd) + len (New e)) Hr Ho)
        as (out' & cur' & Ha & ? & ? & Hb); [lia .. |].
      exists out', cur'. rewrite Ha, Hb. repeat split; try lia.
      do 2 f_equal. rewrite !len_app, len_segment by lia. lia.
    + apply Z.ltb_ge in Hlt. simpl.
      destruct (IH (out ++ New e) cur (End e) (w + len (New e)) Hr Ho)
        as (out' & cur' & Ha & ? & ? & Hb); [lia .. |].
      exists out', cur'. rewrite Ha, Hb. repeat split; try lia.
      do 2 f_equal. rewrite !len_app. lia.
Qed.

#[local] Transparent IO.CopyN unread.

Lemma unread_segment src pos : 0 <= pos <= len src -> unread src pos = segment src pos (len src).
Proof.
  intros. unfold unread, segment. symmetry. apply take_ge.
  unfold len in *. rewrite length_drop. lia.
Qed.

(** C6.  For every source text and every edit list, [ApplyTo] on a reader
    over the source and an in-memory writer appends to the writer exactly the
    buffer that [Apply] returns, reports its length as the number of bytes
    written, and returns the same error value as [Apply]: both succeed or
    both fail with the error of validation. *)
Theorem ApplyTo_parity (src : Text) (E : list Edit) (w0 : Text) :
  exists out err r,
    Apply src E = Returns (out, err) /\
    ApplyTo (IO.Buffer w0) src (len src) E = (IO.Buffer (w0 ++ out), r, (len out, err)).
Proof.
  destruct (Validate (len src) E) as [[E' size] [err|]] eqn:HV.
  - exists [], (Some err), src. unfold Apply, ApplyTo. rewrite HV, app_nil_r. done.
  - pose proof (Apply_valid src E E' size HV) as [HA _].
    exists (patched src 0 E'), None, []. split; [done |].
    apply Validate_None in HV as HV'. destruct HV' as (HE & Hf & Ho & _).
    pose proof (len_nonneg src).
    destruct (applyToLoop_valid src E' w0 0 0 0 Hf Ho) as (out' & cur' & Ha & ? & ? & Hb);
      [lia .. |].
    destruct (applyLoop_valid src E' w0 0 Hf Ho) as (out2 & Ha2 & Heq); [lia |].
    rewrite Ha in Ha2. injection Ha2 as <-.
    pose proof (lastEndOf_bounds _ 0 _ Hf Ho) as Hbd.
    unfold ApplyTo. rewrite HV.
    change src with (unread src 0) at 1. rewrite Hb.
    cbn [st_src st_dst lastEnd cursor written].
    rewrite (CopyN_Discard src cur' (lastEndOf 0 E' - cur')) by lia.
    replace (cur' + (lastEndOf 0 E' - cur')) with (lastEndOf 0 E') by lia.
    unfold IO.Copy. simpl.
    rewrite unread_segment by lia.
    assert (Hlen : len out' + len (segment src (lastEndOf 0 E') (len src))
                   = len w0 + len (patched src 0 E')).
    { rewrite <- !len_app. by rewrite Heq. }
    rewrite Heq. do 3 f_equal. lia.
Qed.

(** ** Byte searches *)

Lemma Byte_eqb_iff (b c : byte) : Byte.eqb b c = true <-> b = c.
Proof. split; [apply Byte.byte_dec_bl | apply Byte.byte_dec_lb]. Qed.

Lemma lookup_cons_Z {A} (x : A) (s : list A) (j : Z) :
  0 < j -> (x :: s) !! Z.to_nat j = s !! Z.to_nat (j - 1).
Proof.
  intros. replace (Z.to_nat j) with (S (Z.to_nat (j - 1))) by lia. done.
Qed.

Lemma IndexByte_range s c : -1 <= IndexByte s c < len s.
Proof.
  induction s as [|b r IH]; cbn [IndexByte LastIndexByte]; [rewrite len_nil; lia |].
  rewrite len_cons. destruct (Byte.eqb b c); [pose proof (len_nonneg r); lia |].
  destruct (IndexByte r c <? 0) eqn:Hi; [pose proof (len_nonneg r); lia |].
  apply Z.ltb_ge in Hi. lia.
Qed.

Lemma IndexByte_found s c :
  0 <= IndexByte s c -> s !! Z.to_nat (IndexByte s c) = Some c.
Proof.
  induction s as [|b r IH]; cbn [IndexByte LastIndexByte]; [lia |].
  destruct (Byte.eqb b c) eqn:Hb.
  - apply Byte_eqb_iff in Hb as ->. done.
  - destruct (IndexByte r c <? 0) eqn:Hi; [lia |].
    apply Z.ltb_ge in Hi. intros _. cbv iota.
    rewrite lookup_cons_Z by lia. replace (IndexByte r c + 1 - 1) with (IndexByte r c) by lia.
    auto.
Qed.

Lemma IndexByte_first s c j :
  0 <= j -> s !! Z.to_nat j = Some c -> 0 <= IndexByte s c <= j.
Proof.
  revert j. induction s as [|b r IH]; intros j Hj Hl; cbn [IndexByte LastIndexByte]; [done |].
  destruct (Byte.eqb b c) eqn:Hb; [lia |].
  destruct (decide (j = 0)) as [-> | Hne].
  - simpl in Hl. injection Hl as ->.
    assert (Byte.eqb c c = true) by (by apply Byte_eqb_iff). congruence.
  - rewrite lookup_cons_Z in Hl by lia.
    specialize (IH (j - 1) ltac:(lia) Hl).
    destruct (IndexByte r c <? 0) eqn:Hi; [apply Z.ltb_lt in Hi |]; lia.
Qed.

Lemma LastIndexByte_range s c : -1 <= LastIndexByte s c < len s.
Proof.
  induction s as [|b r IH]; cbn [IndexByte LastIndexByte]; [rewrite len_nil; lia |].
  rewrite len_cons. destruct (0 <=? LastIndexByte r c) eqn:Hi; [lia |].
  pose proof (len_nonneg r). destruct (Byte.eqb b c); lia.
Qed.

Lemma LastIndexByte_found s c :
  0 <= LastIndexByte s c -> s !! Z.to_nat (LastIndexByte s c) = Some c.
Proof.
  induction s as [|b r IH]; cbn [IndexByte LastIndexByte]; [lia |].
  destruct (0 <=? LastIndexByte r c) eqn:Hi.
  - apply Z.leb_le in Hi. intros _. rewrite lookup_cons_Z by lia.
    replace (LastIndexByte r c + 1 - 1) with (LastIndexByte r c) by lia. auto.
  - destruct (Byte.eqb b c) eqn:Hb; [| lia].
    apply Byte_eqb_iff in Hb as ->. done.
Qed.

Lemma LastIndexByte_last s c j :
  0 <= j -> s !! Z.to_nat j = Some c -> j <= LastIndexByte s c.
Proof.
  revert j. induction s as [|b r IH]; intros j Hj Hl; cbn [IndexByte LastIndexByte]; [done |].
  destruct (decide (j = 0)) as [-> | Hne].
  - simpl in Hl. injection Hl as ->.
    destruct (0 <=? LastIndexByte r c) eqn:Hi; [apply Z.leb_le in Hi; lia |].
    assert (Hcc : Byte.eqb c c = true) by (by apply Byte_eqb_iff). rewrite Hcc. lia.
  - rewrite lookup_cons_Z in Hl by lia.
    specialize (IH (j - 1) ltac:(lia) Hl).
    destruct (0 <=? LastIndexByte r c) eqn:Hi; [lia | apply Z.leb_gt in Hi; lia].
Qed.

Lemma ContainsNL_iff s :
  ContainsNL s = true <-> exists j, 0 <= j /\ s !! Z.to_nat j = Some NL.
Proof.
  unfold ContainsNL. rewrite existsb_exists. split.
  - intros (b & Hin & ->%Byte_eqb_iff).
    apply list_elem_of_In, list_elem_of_lookup in Hin as [i Hi].
    exists (Z.of_nat i). rewrite Nat2Z.id. split; [lia | done].
  - intros (j & _ & Hj). exists NL. split; [| by apply Byte_eqb_iff].
    apply list_elem_of_In. by apply list_elem_of_lookup_2 in Hj.
Qed.

Lemma lookup_segment {A} (s : list A) lo hi j :
  0 <= lo -> 0 <= j < hi - lo ->
  segment s lo hi !! Z.to_nat j = s !! Z.to_nat (lo + j).
Proof.
  intros. unfold segment. rewrite lookup_take_lt by lia. rewrite lookup_drop.
  f_equal. lia.
Qed.

Lemma lookup_segment_Some {A} (s : list A) lo hi j x :
  0 <= lo -> 0 <= j -> segment s lo hi !! Z.to_nat j = Some x ->
  j < hi - lo /\ s !! Z.to_nat (lo + j) = Some x.
Proof.
  intros Hlo Hj Hl. unfold segment in Hl.
  apply lookup_take_Some in Hl as [Hl Hlt]. rewrite lookup_drop in Hl.
  split; [lia |]. rewrite <- Hl. f_equal. lia.
Qed.

(** ** Lines *)

(** Position [p] comes immediately after a ['\n'] of [src]. *)
Definition afterNL (src : Text) (p : Z) : Prop :=
  0 < p /\ src !! Z.to_nat (p - 1) = Some NL.

(** Position [p] is the start of a line: offset 0 or just after a ['\n']. *)
Definition lineStart (src : Text) (p : Z) : Prop := p = 0 \/ afterNL src p.

(** Where [expandEdit] moves a start [p]: [p - delta]. *)
Definition lineBegin (src : Text) (p : Z) : Z :=
  LastIndexByte (segment src 0 p) NL + 1.

(** Where [expandEdit] moves an end [p]. *)
Definition lineEnd (src : Text) (p : Z) : Z :=
  let nl := IndexByte (segment src p (len src)) NL in
  if nl <? 0 then len src else p + nl + 1.

Lemma lineBegin_spec src p :
  0 <= p <= len src ->
  0 <= lineBegin src p <= p /\
  lineStart src (lineBegin src p) /\
  (forall q, 0 <= q < p -> src !! Z.to_nat q = Some NL -> q + 1 <= lineBegin src p).
Proof.
  intros Hp. unfold lineBegin.
  pose proof (LastIndexByte_range (segment src 0 p) NL) as Hr.
  rewrite len_segment in Hr by lia.
  split; [lia |]. split.
  - destruct (decide (LastIndexByte (segment src 0 p) NL = -1)) as [-> | Hne].
    + by left.
    + right. split; [lia |].
      pose proof (LastIndexByte_found (segment src 0 p) NL ltac:(lia)) as Hf.
      rewrite lookup_segment in Hf by lia.
      rewrite <- Hf. f_equal. lia.
  - intros q Hq Hl.
    pose proof (LastIndexByte_last (segment src 0 p) NL q ltac:(lia)) as Hlast.
    rewrite lookup_segment in Hlast by lia. specialize (Hlast Hl). lia.
Qed.

Lemma lineEnd_spec src p :
  0 <= p <= len src ->
  p <= lineEnd src p <= len src /\
  (lineEnd src p = len src \/ afterNL src (lineEnd src p)) /\
  (forall q, p <= q -> src !! Z.to_nat q = Some NL -> lineEnd src p <= q + 1).
Proof.
  intros Hp. unfold lineEnd.
  pose proof (IndexByte_range (segment src p (len src)) NL) as Hr.
  rewrite len_segment in Hr by lia.
  destruct (IndexByte (segment src p (len src)) NL <? 0) eqn:Hn.
  - apply Z.ltb_lt in Hn. split; [lia |]. split; [by left |].
    intros q Hq Hl. apply lookup_lt_Some in Hl as Hlt. unfold len in *.
    pose proof (IndexByte_first (segment src p (Z.of_nat (length src))) NL (q - p) ltac:(lia)) as Hf.
    rewrite lookup_segment in Hf by lia.
    replace (p + (q - p)) with q in Hf by lia. specialize (Hf Hl). lia.
  - apply Z.ltb_ge in Hn. split; [lia |]. split.
    + right. split; [lia |].
      pose proof (IndexByte_found (segment src p (len src)) NL Hn) as Hf.
      rewrite lookup_segment in Hf by lia. rewrite <- Hf. f_equal. lia.
    + intros q Hq Hl. apply lookup_lt_Some in Hl as Hlt. unfold len in *.
      pose proof (IndexByte_first (segment src p (Z.of_nat (length src))) NL (q - p) ltac:(lia)) as Hf.
      rewrite lookup_segment in Hf by lia.
      replace (p + (q - p)) with q in Hf by lia. specialize (Hf Hl). lia.
Qed.

(** [expandEdit] takes no slice out of range on an edit within the source,
    and moves the start to the beginning of its line and the end past the
    next ['\n'] (or to the end of the source). *)
Lemma expandEdit_eq src e :
  inBounds (len src) e ->
  expandEdit e src =
    Returns {| Start := lineBegin src (Start e);
               End := lineEnd src (End e);
               New := segment src (lineBegin src (Start e)) (Start e) ++ New e ++
                      segment src (End e) (lineEnd src (End e)) |}.
Proof.
  intros (H0 & Hse & Hel). unfold expandEdit, slice_to, slice_from.
  pose proof (lineBegin_spec src (Start e) ltac:(lia)) as (Hb & _ & _).
  pose proof (lineEnd_spec src (End e) ltac:(lia)) as (He & _ & _).
  rewrite slice_ok by lia. cbn [mbind outcome_bind].
  fold (lineBegin src (Start e)).
  replace (Start e - 1 - LastIndexByte (segment src 0 (Start e)) NL)
    with (Start e - lineBegin src (Start e)) by (unfold lineBegin; lia).
  destruct (Start e - lineBegin src (Start e) >? 0) eqn:Hd.
  - apply Z.gtb_lt in Hd.
    replace (Start e - (Start e - lineBegin src (Start e))) with (lineBegin src (Start e)) by lia.
    rewrite slice_ok by lia. cbn [mbind outcome_bind Start End New].
    rewrite (slice_ok src (End e) (len src)) by lia. cbn [mbind outcome_bind].
    fold (lineEnd src (End e)). rewrite slice_ok by lia. cbn [mbind outcome_bind].
    by rewrite <- app_assoc.
  - assert (lineBegin src (Start e) = Start e) as Heq.
    { destruct (Z.gtb_spec (Start e - lineBegin src (Start e)) 0); [done | lia]. }
    cbn [mbind outcome_bind].
    rewrite (slice_ok src (End e) (len src)) by lia. cbn [mbind outcome_bind].
    fold (lineEnd src (End e)). rewrite slice_ok by lia. cbn [mbind outcome_bind].
    rewrite Heq, (segment_empty src (Start e) (Start e)) by lia. done.
Qed.

Lemma index_ok {A} (s : list A) i :
  0 <= i < len s -> exists x, index s i = Returns x /\ s !! Z.to_nat i = Some x.
Proof.
  intros [H0 Hl]. unfold index.
  apply Z.leb_le in H0 as H0'. apply Z.ltb_lt in Hl as Hl'. rewrite H0', Hl'. simpl.
  destruct (s !! Z.to_nat i) as [x|] eqn:Hx; [by exists x |].
  apply lookup_ge_None in Hx. unfold len in *. lia.
Qed.

(** An edit that the fast-path loop of [lineEdits] lets pass. *)
Definition fastAligned (src : Text) (e : Edit) : Prop :=
  Start e < len src /\ lineStart src (Start e) /\ lineStart src (End e).

Lemma lineStart_test src p :
  0 <= p <= len src ->
  exists b, (if p >? 0 then c ← index src (p - 1); Returns (negb (Byte.eqb c NL))
             else Returns false) = Returns b /\
            (b = false <-> lineStart src p).
Proof.
  intros Hp. unfold lineStart, afterNL. destruct (p >? 0) eqn:Hg.
  - apply Z.gtb_lt in Hg.
    destruct (index_ok src (p - 1)) as (c & -> & Hc); [lia |].
    exists (negb (Byte.eqb c NL)). split; [done |]. rewrite Hc.
    rewrite negb_false_iff, Byte_eqb_iff. split.
    + intros ->. auto.
    + intros [-> | [_ [= ->]]]; [lia | done].
  - exists false. split; [done |].
    destruct (Z.gtb_spec p 0); [done |]. split; [| done]. intros _. left. lia.
Qed.

Lemma needsExpand1_spec src e :
  inBounds (len src) e ->
  exists b, needsExpand1 src e = Returns b /\ (b = false <-> fastAligned src e).
Proof.
  intros (H0 & Hse & Hel). unfold needsExpand1, fastAligned.
  destruct (Start e >=? len src) eqn:Hge.
  - exists true. split; [done |].
    destruct (Z.geb_spec (Start e) (len src)); [| done]. split; [done | lia].
  - destruct (Z.geb_spec (Start e) (len src)); [done |].
    destruct (lineStart_test src (Start e)) as (b1 & -> & Hb1); [lia |].
    cbn [mbind outcome_bind]. destruct b1.
    + exists true. split; [done |]. split; [done |]. intros (_ & Hs & _).
      apply Hb1 in Hs. done.
    + destruct (lineStart_test src (End e)) as (b2 & -> & Hb2); [lia |].
      exists b2. split; [done |]. rewrite Hb2. intuition.
Qed.

Lemma needsExpand_spec src edits :
  Forall (inBounds (len src)) edits ->
  exists b, needsExpand src edits = Returns b /\
            (b = false <-> Forall (fastAligned src) edits).
Proof.
  induction 1 as [|e r He Hr (b & IHb & IH)]; simpl.
  - exists false. split; [done |]. split; [constructor | done].
  - destruct (needsExpand1_spec src e He) as (b1 & -> & Hb1).
    cbn [mbind outcome_bind]. destruct b1.
    + exists true. split; [done |]. split; [done |].
      intros Hf. inversion Hf; subst. by apply Hb1.
    + exists b. split; [done |]. rewrite IH. split.
      * intros. constructor; [by apply Hb1 | done].
      * intros Hf. by inversion Hf.
Qed.

(** ** Sorted input is left alone *)

Lemma Less_after_false L e1 e2 :
  L <= GoInt.int_max -> inBounds L e1 -> inBounds L e2 -> End e1 <= Start e2 ->
  Less e2 e1 = false.
Proof.
  intros HL (? & ? & ?) (? & ? & ?) Hle. unfold Less, GoInt.sub.
  rewrite GoInt.wrap_small by (unfold GoInt.in_range, GoInt.int_min, GoInt.int_max in *; lia).
  destruct (Start e2 - Start e1 =? 0) eqn:Hz; simpl.
  - apply Z.eqb_eq in Hz. apply Z.ltb_ge. lia.
  - apply Z.ltb_ge. lia.
Qed.

Lemma IsSorted_ordered L lastEnd edits :
  L <= GoInt.int_max -> Forall (inBounds L) edits -> ordered lastEnd edits ->
  Sort.IsSorted Less edits = true.
Proof.
  intros HL Hf. revert lastEnd. induction Hf as [|e r He Hr IH]; intros lastEnd Ho; [done |].
  destruct r as [|e2 r]; [done |].
  destruct Ho as [_ Ho].
  change (Sort.IsSorted Less (e :: e2 :: r))
    with (negb (Less e2 e) && Sort.IsSorted Less (e2 :: r)).
  rewrite (IH _ Ho).
  destruct Ho as [Ho _]. inversion Hr; subst.
  by rewrite (Less_after_false L e e2).
Qed.

(** Edits that are in bounds and in order pass validation as they are. *)
Lemma Validate_ordered L edits :
  L <= GoInt.int_max -> Forall (inBounds L) edits -> ordered 0 edits ->
  Validate L edits = (edits, L + sizeDelta edits, None).
Proof.
  intros HL Hf Ho. apply Validate_None.
  assert (sortedEdits edits = edits) as ->.
  { unfold sortedEdits. by rewrite (IsSorted_ordered L 0 edits). }
  done.
Qed.

(** ** Line expansion *)

(** The shape of an edit that [lineEdits] returns: it starts at a line
    start and ends at a line start or at the end of the source. *)
Definition lineAligned (src : Text) (e : Edit) : Prop :=
  lineStart src (Start e) /\ (End e = len src \/ lineStart src (End e)).

Lemma patched_segment src a b edits :
  0 <= a -> a <= b -> b <= len src -> ordered b edits ->
  segment src a b ++ patched src b edits = patched src a edits.
Proof.
  intros Ha Hab Hb Ho. destruct edits as [|e r]; simpl.
  - apply segment_app; lia.
  - destruct Ho as [Hs _]. rewrite app_assoc. f_equal. apply segment_app; lia.
Qed.

Lemma ordered_weaken a b edits : a <= b -> ordered b edits -> ordered a edits.
Proof. destruct edits; simpl; [done |]. intros ? [? ?]. split; [lia | done]. Qed.

Lemma expandLoop_spec src edits : forall prev expanded,
  inBounds (len src) prev -> Forall (inBounds (len src)) edits ->
  ordered (End prev) edits ->
  exists out,
    expandLoop src prev edits expanded = Returns (expanded ++ out) /\
    Forall (inBounds (len src)) out /\
    Forall (lineAligned src) out /\
    ordered (lineBegin src (Start prev)) out /\
    patched src (lineBegin src (Start prev)) out =
      patched src (lineBegin src (Start prev)) (prev :: edits).
Proof.
  induction edits as [|edit rest IH]; intros prev expanded Hp Hf Ho.
  - cbn [expandLoop]. rewrite (expandEdit_eq src prev Hp). cbn [mbind outcome_bind].
    destruct Hp as (H0 & Hse & Hel).
    pose proof (lineBegin_spec src (Start prev) ltac:(lia)) as (Hb & Hbs & _).
    pose proof (lineEnd_spec src (End prev) ltac:(lia)) as (He & Hes & _).
    eexists. split; [reflexivity |].
    split; [constructor; [unfold inBounds; simpl; lia | constructor] |].
    split; [constructor; [| constructor] |].
    { split; [done |]. simpl. destruct Hes; [by left | right; by right]. }
    split; [simpl; lia |].
    cbn [patched Start End New].
    rewrite (segment_empty src (lineBegin src (Start prev)) (lineBegin src (Start prev))) by lia.
    rewrite <- !app_assoc. cbn [app].
    do 2 f_equal. apply segment_app; lia.
  - inversion Hf as [|? ? Hedit Hrest]; subst. destruct Ho as [Hle Ho].
    pose proof Hp as (H0 & Hse & Hel). pose proof Hedit as (H0' & Hse' & Hel').
    cbn [expandLoop]. rewrite slice_ok by lia. cbn [mbind outcome_bind].
    destruct (ContainsNL (segment src (End prev) (Start edit))) eqn:Hnl; cbn [negb].
    + (* a newline in between: flush *)
      rewrite (expandEdit_eq src prev Hp). cbn [mbind outcome_bind].
      apply ContainsNL_iff in Hnl as (j & Hj & Hnl).
      apply lookup_segment_Some in Hnl as [Hjlt Hq]; [| lia | lia].
      pose proof (lineBegin_spec src (Start prev) ltac:(lia)) as (Hb & Hbs & _).
      pose proof (lineEnd_spec src (End prev) ltac:(lia)) as (He & Hes & Hefirst).
      pose proof (lineBegin_spec src (Start edit) ltac:(lia)) as (Hb' & _ & Hblast).
      specialize (Hefirst (End prev + j) ltac:(lia) Hq).
      specialize (Hblast (End prev + j) ltac:(lia) Hq).
      destruct (IH edit (expanded ++
                  [{| Start := lineBegin src (Start prev); End := lineEnd src (End prev);
                      New := segment src (lineBegin src (Start prev)) (Start prev) ++
                             New prev ++ segment src (End prev) (lineEnd src (End prev)) |}])
                  Hedit Hrest Ho)
        as (out & -> & Hfo & Hfa & Hoo & Hpo).
      eexists. split; [by rewrite <- app_assoc |]. cbn [app].
      split; [constructor; [unfold inBounds; simpl; lia | done] |].
      split; [constructor; [| done] |].
      { split; [done |]. simpl. destruct Hes; [by left | right; by right]. }
      split.
      { cbn [ordered Start End]. split; [lia |]. eapply ordered_weaken; [| exact Hoo]. lia. }
      assert (Hoe : ordered (lineBegin src (Start edit)) (edit :: rest))
        by (split; [lia | done]).
      change (patched src (lineBegin src (Start prev)) (prev :: edit :: rest))
        with (segment src (lineBegin src (Start prev)) (Start prev) ++ New prev ++
              patched src (End prev) (edit :: rest)).
      cbn [patched Start End New].
      rewrite (segment_empty src (lineBegin src (Start prev)) (lineBegin src (Start prev))) by lia.
      rewrite <- !app_assoc. cbn [app].
      do 2 f_equal.
      rewrite <- (patched_segment src (lineEnd src (End prev)) (lineBegin src (Start edit)) out)
        by (auto; lia).
      rewrite Hpo.
      rewrite (patched_segment src (lineEnd src (End prev)) (lineBegin src (Start edit)))
        by (auto; lia).
      apply (patched_segment src (End prev) (lineEnd src (End prev)) (edit :: rest));
        [lia | lia | lia |]. split; [lia | done].
    + (* same line: merge *)
      destruct (IH {| Start := Start prev; End := End edit;
                      New := New prev ++ segment src (End prev) (Start edit) ++ New edit |}
                  expanded) as (out & -> & Hfo & Hfa & Hoo & Hpo).
      { unfold inBounds; simpl; lia. }
      { done. }
      { done. }
      exists out. split; [done |]. split; [done |]. split; [done |].
      cbn [Start] in *. split; [done |].
      rewrite Hpo. cbn [patched Start End New]. by rewrite <- !app_assoc.
Qed.





(** C4 as the code has it.  For validated edits (on a source whose length
    is an [int]) [lineEdits] returns a list that [Apply] turns into the same
    text as the original edits, and every returned edit starts at offset 0 or
    immediately after a ['\n'] and ends at offset 0, at [len(src)] or
    immediately after a ['\n']. *)
Theorem lineEdits_preserves_meaning (src : Text) (E E' : list Edit) (size : Z) :
  len src <= GoInt.int_max ->
  Validate (len src) E = (E', size, None) ->
  exists LE,
    lineEdits src E = Returns (LE, None) /\
    Apply src LE = Apply src E /\
    Forall (fun e => (Start e = 0 \/ afterNL src (Start e)) /\
                     (End e = 0 \/ End e = len src \/ afterNL src (End e))) LE.
Proof.
  intros HL HV.
  pose proof (Apply_valid src E E' size HV) as [HA _].
  pose proof HV as (HE & Hf & Ho & _)%Validate_None.
  assert (Hal : forall l, Forall (lineAligned src) l ->
     Forall (fun e => (Start e = 0 \/ afterNL src (Start e)) /\
                      (End e = 0 \/ End e = len src \/ afterNL src (End e))) l).
  { intros l Hl. eapply Forall_impl; [exact Hl |]. intros e [Hs He]. split; [exact Hs |].
    destruct He as [? | [? | ?]]; auto. }
  assert (Hap : forall l, Forall (inBounds (len src)) l -> ordered 0 l ->
     patched src 0 l = patched src 0 E' -> Apply src l = Apply src E).
  { intros l Hfl Hol Hpl. rewrite HA, <- Hpl.
    apply (Apply_valid src l l (len src + sizeDelta l)). by apply Validate_ordered. }
  destruct (needsExpand_spec src E' Hf) as (b & Hb & Hbi).
  unfold lineEdits. rewrite HV, Hb. cbn [mbind outcome_bind]. destruct b.
  - destruct E' as [|prev rest]; [simpl in Hb; discriminate |].
    inversion Hf as [|? ? Hp Hr]; subst. destruct Ho as [H0 Ho].
    destruct (expandLoop_spec src rest prev [] Hp Hr Ho) as (out & -> & Hfo & Hfa & Hoo & Hpo).
    pose proof Hp as (? & ? & ?).
    pose proof (lineBegin_spec src (Start prev) ltac:(lia)) as (Hbb & _ & _).
    exists out. cbn [mbind outcome_bind app]. split; [done |]. split; [| by apply Hal].
    assert (Hoo0 : ordered 0 out) by (eapply ordered_weaken; [| exact Hoo]; lia).
    apply Hap; [done | done |].
    rewrite <- (patched_segment src 0 (lineBegin src (Start prev)) out) by (auto; lia).
    rewrite Hpo. apply patched_segment; [lia | lia | lia |]. split; [lia | done].
  - exists E'. split; [done |]. split; [by apply Hap |].
    apply Hal. assert (Hfa : Forall (fastAligned src) E') by (by apply Hbi).
    eapply Forall_impl; [exact Hfa |]. intros e (_ & ? & ?). split; [done | by right].
Qed.

Lemma lineEdits_preserves_meaning_witness :
  let src := ["g"; "o"; "r"; "d"; NL]%byte in
  let E := [mkEdit 2 2 ["u"]%byte] in
  exists LE,
    lineEdits src E = Returns (LE, None) /\
    Apply src LE = Apply src E /\
    Forall (fun e => (Start e = 0 \/ afterNL src (Start e)) /\
                     (End e = 0 \/ End e = len src \/ afterNL src (End e))) LE.
Proof.
  intros src E. apply (lineEdits_preserves_meaning src E E 6).
  - vm_compute. discriminate.
  - reflexivity.
Defined.

(** C4 as stated fails: on ["abc"] the insertion [{0,0,"x"}] is returned
    as it is, and its end, offset 0, is neither [len(src)] nor a position
    after a ['\n']. *)
Lemma lineEdits_keeps_end_at_offset_0 :
  let src := ["a"; "b"; "c"]%byte in
  let E := [mkEdit 0 0 ["x"]%byte] in
  Validate (len src) E = (E, 4, None) /\
  lineEdits src E = Returns (E, None) /\
  ~ Forall (fun e => (Start e = 0 \/ afterNL src (Start e)) /\
                     (End e = len src \/ afterNL src (End e))) E.
Proof.
  intros src E. split; [reflexivity |]. split; [reflexivity |].
  intros HF. inversion HF as [|? ? [_ [Hlen | [Hpos _]]] _]; subst.
  - vm_compute in Hlen. discriminate.
  - simpl in Hpos. lia.
Qed.

(** ** SortEdits on offsets that do not overflow *)

(** The order that [Less] is meant to compute: by start, then by end. *)
Definition ltEdit (a b : Edit) : Prop :=
  Start a < Start b \/ (Start a = Start b /\ End a < End b).

(** Starts that are offsets ([0 <= start <= MaxInt]): their differences do
    not overflow. *)
Definition offsetStart (e : Edit) : Prop := 0 <= Start e <= GoInt.int_max.

Lemma Less_ltEdit a b :
  offsetStart a -> offsetStart b -> (Less a b = true <-> ltEdit a b).
Proof.
  unfold offsetStart, Less, ltEdit, GoInt.sub. intros Ha Hb.
  rewrite GoInt.wrap_small by (unfold GoInt.in_range, GoInt.int_min, GoInt.int_max in *; lia).
  destruct (Start a - Start b =? 0) eqn:Hz; simpl.
  - apply Z.eqb_eq in Hz. rewrite Z.ltb_lt. lia.
  - apply Z.eqb_neq in Hz. rewrite Z.ltb_lt. lia.
Qed.

(** [l], last element first, is in ascending order. *)
Definition descending (l : list Edit) : Prop :=
  StronglySorted (fun a b => ~ ltEdit a b) l.

Lemma sift_descending x acc :
  offsetStart x -> Forall offsetStart acc -> descending acc ->
  descending (Sort.sift Less x acc).
Proof.
  intros Hx Hacc Hd. induction Hd as [|y r Hr IH Hy]; simpl.
  - repeat constructor.
  - inversion Hacc as [|? ? Hoy Hor]; subst.
    destruct (Less x y) eqn:Hl.
    + apply Less_ltEdit in Hl; [| done | done].
      constructor; [by apply IH |].
      rewrite sift_perm. constructor; [| done]. unfold ltEdit in *. lia.
    + assert (Hn : ~ ltEdit x y) by (rewrite <- Less_ltEdit by done; congruence).
      constructor; [by constructor |].
      constructor; [done |].
      eapply Forall_impl; [exact Hy |]. unfold ltEdit in *. intros z ?. lia.
Qed.

Lemma fold_sift_descending l acc :
  Forall offsetStart l -> Forall offsetStart acc -> descending acc ->
  descending (fold_left (fun acc x => Sort.sift Less x acc) l acc).
Proof.
  revert acc. induction l as [|x r IH]; intros acc Hl Hacc Hd; simpl; [done |].
  inversion Hl; subst. apply IH; [done | | by apply sift_descending].
  rewrite sift_perm. by constructor.
Qed.

Lemma descending_rev l :
  descending l -> StronglySorted (fun a b => ~ ltEdit b a) (rev l).
Proof.
  induction 1 as [|x r Hr IH Hx]; simpl; [constructor |].
  apply StronglySorted_app_2; [| done | repeat constructor].
  intros a b Ha ->%list_elem_of_singleton.
  apply list_elem_of_In, in_rev in Ha.
  rewrite Forall_forall in Hx. by apply Hx, list_elem_of_In.
Qed.

(** On offsets, [SortEdits] puts the edits in ascending (start, end)
    order. *)
Lemma SortEdits_sorted E :
  Forall offsetStart E ->
  StronglySorted (fun a b => ~ ltEdit b a) (SortEdits E).
Proof.
  intros HE. apply descending_rev, fold_sift_descending; [done | constructor | constructor].
Qed.

(** The edits with start [s] and end [e]. *)
Definition sameKey (s e : Z) (x : Edit) : Prop := Start x = s /\ End x = e.

#[local] Instance sameKey_dec s e x : Decision (sameKey s e x).
Proof. unfold sameKey. apply _. Defined.

Lemma sift_sameKey s e x acc :
  offsetStart x -> Forall offsetStart acc ->
  filter (sameKey s e) (Sort.sift Less x acc) = filter (sameKey s e) (x :: acc).
Proof.
  intros Hx Hacc. induction Hacc as [|y r Hy Hr IH]; simpl; [done |].
  destruct (Less x y) eqn:Hl; [| done].
  apply Less_ltEdit in Hl; [| done | done].
  rewrite filter_cons, IH, !filter_cons.
  destruct (decide (sameKey s e y)) as [[? ?] |], (decide (sameKey s e x)) as [[? ?] |];
    try done.
  unfold ltEdit in Hl. lia.
Qed.

Lemma fold_sift_sameKey s e l acc :
  Forall offsetStart l -> Forall offsetStart acc ->
  filter (sameKey s e) (fold_left (fun acc x => Sort.sift Less x acc) l acc) =
  filter (sameKey s e) (rev l ++ acc).
Proof.
  revert acc. induction l as [|x r IH]; intros acc Hl Hacc; simpl; [done |].
  inversion Hl; subst. rewrite IH; [| done | rewrite sift_perm; by constructor].
  rewrite <- app_assoc. cbn [app].
  by rewrite !filter_app, sift_sameKey.
Qed.

Lemma filter_rev {A} (P : A -> Prop) `{forall x, Decision (P x)} (l : list A) :
  filter P (rev l) = rev (filter P l).
Proof.
  induction l as [|x r IH]; simpl; [done |].
  rewrite filter_app, IH, !filter_cons. destruct (decide (P x)); simpl; [done |].
  by rewrite app_nil_r.
Qed.

(** On offsets, [SortEdits] is stable: edits with the same start and the
    same end stay in the order in which they were given. *)
Lemma SortEdits_stable s e E :
  Forall offsetStart E ->
  filter (sameKey s e) (SortEdits E) = filter (sameKey s e) E.
Proof.
  intros HE. unfold SortEdits, Sort.Stable, Sort.insertionSort.
  rewrite filter_rev, fold_sift_sameKey by (done || constructor).
  rewrite app_nil_r, filter_rev. apply rev_involutive.
Qed.

Lemma IsSorted_StronglySorted l :
  Forall offsetStart l -> StronglySorted (fun a b => ~ ltEdit b a) l ->
  Sort.IsSorted Less l = true.
Proof.
  intros Hf Hs. induction Hs as [|x r Hr IH Hx]; [done |].
  inversion Hf as [|? ? Hox Hor]; subst.
  destruct r as [|y r]; [done |].
  change (Sort.IsSorted Less (x :: y :: r))
    with (negb (Less y x) && Sort.IsSorted Less (y :: r)).
  rewrite IH by done. inversion Hx as [|? ? Hxy _]; subst. inversion Hor; subst.
  destruct (Less y x) eqn:Hl; [| done].
  apply Less_ltEdit in Hl; done.
Qed.

(** On offsets, sorting twice is sorting once. *)
Lemma SortEdits_idempotent E :
  Forall offsetStart E -> SortEdits (SortEdits E) = SortEdits E.
Proof.
  intros HE. apply Stable_sorted, IsSorted_StronglySorted.
  - unfold SortEdits. by rewrite Stable_perm.
  - by apply SortEdits_sorted.
Qed.

(** C8, at the point where the code leaves it.  [Less] compares two starts
    through their difference, which overflows for starts that are [2^63]
    apart: both [Less a b] and [Less b a] hold for [a.Start = MinInt64] and
    [b.Start = 0].  The ascending list [a; b] is then "sorted" into [b; a],
    and sorting that once more gives [a; b] again. *)
Theorem SortEdits_overflow :
  let a := mkEdit GoInt.int_min 0 [] in
  let b := mkEdit 0 0 [] in
  Less a b = true /\ Less b a = true /\
  SortEdits [a; b] = [b; a] /\
  SortEdits (SortEdits [a; b]) = [a; b] /\
  SortEdits (SortEdits [a; b]) <> SortEdits [a; b].
Proof. vm_compute. repeat split; discriminate. Qed.

(** ** Edit slices in memory

    [validate] receives the caller's slice and "may return a different
    slice".  To see which memory it writes, the functions of [diff.go] are
    given once more with the backing arrays of the [[]Edit] slices in an
    explicit store. *)

Module Mem.

(** The store: backing arrays by address. *)
Abbreviation heap := (gmap nat (list Edit)).

(** A slice value: [nil], or a backing array (with all of its elements). *)
Inductive sliceRef : Type :=
| Nil
| Ref (l : nat).

#[global] Instance sliceRef_eq_dec : EqDecision sliceRef.
Proof. solve_decision. Defined.

Definition read (h : heap) (s : sliceRef) : list Edit :=
  match s with
  | Nil => []
  | Ref l => default [] (h !! l)
  end.

(** [append([]Edit(nil), edits...)]: a new backing array with the same
    elements ([nil] when there are none). *)
Definition copy (h : heap) (edits : sliceRef) : heap * sliceRef :=
  match read h edits with
  | [] => (h, Nil)
  | es => let l := fresh (dom h) in (<[l := es]> h, Ref l)
  end.

(** [SortEdits(edits)]: [sort.Stable] swaps the elements of the backing
    array in place. *)
Definition SortEdits (h : heap) (edits : sliceRef) : heap :=
  match edits with
  | Nil => h
  | Ref l => <[l := SortEdits (read h edits)]> h
  end.

(** [Validate(srcLen, edits)]. *)
Definition Validate (srcLen : Z) (h : heap) (edits : sliceRef)
  : heap * (sliceRef * Z * option error) :=
  let '(h, edits) :=
    if Sort.IsSorted Less (read h edits) then (h, edits)
    else let '(h, edits) := copy h edits in (SortEdits h edits, edits) in
  match validateLoop srcLen (read h edits) srcLen 0 with
  | inl err => (h, (Nil, 0, Some err))
  | inr size => (h, (edits, size, None))
  end.

(** [Apply(src, edits)]; the returned text is a fresh byte buffer. *)
Definition Apply (src : Text) (h : heap) (edits : sliceRef)
  : heap * outcome (Text * option error) :=
  match Validate (len src) h edits with
  | (h, (_, _, Some err)) => (h, Returns ([], Some err))
  | (h, (edits, size, None)) =>
      (h,
       if size <? 0 then Panics MakeCap else
       '(out, lastEnd) ← applyLoop src (read h edits) [] 0;
       tl ← slice_from src lastEnd;
       let out := out ++ tl in
       if negb (len out =? size) then Panics WrongSize
       else Returns (out, None))
  end.

(** [lineEdits(src, edits)]: the aligned case returns the validated slice
    itself, the other one the new slice [expanded]. *)
Definition lineEdits (src : Text) (h : heap) (edits : sliceRef)
  : heap * outcome (sliceRef * option error) :=
  match Validate (len src) h edits with
  | (h, (_, _, Some err)) => (h, Returns (Nil, Some err))
  | (h, (edits, _, None)) =>
      match needsExpand src (read h edits) with
      | Panics p => (h, Panics p)
      | Returns false => (h, Returns (edits, None))
      | Returns true =>
          match read h edits with
          | [] => (h, Panics IndexRange)
          | prev :: rest =>
              match expandLoop src prev rest [] with
              | Panics p => (h, Panics p)
              | Returns expanded =>
                  let l := fresh (dom h) in
                  (<[l := expanded]> h, Returns (Ref l, None))
              end
          end
      end
  end.

(** [ApplyTo(dst, src, srcLen, edits)]. *)
Definition ApplyTo (dst : IO.Writer) (src : IO.Reader) (srcLen : Z)
    (h : heap) (edits : sliceRef)
  : heap * (IO.Writer * IO.Reader * (Z * option error)) :=
  match Validate srcLen h edits with
  | (h, (_, _, Some err)) => (h, (dst, src, (0, Some err)))
  | (h, (edits, _, None)) =>
      (h,
       match applyToLoop (read h edits) (mkApplyTo dst src 0 0 0) with
       | inl (st, e) => (st_dst st, st_src st, (written st, Some e))
       | inr st =>
           let '(_, r, (_, err)) :=
             IO.CopyN IO.Discard (st_src st) (lastEnd st - cursor st) in
           match err with
           | Some e => (st_dst st, r, (written st, Some e))
           | None =>
               let '(d, r, (w, err)) := IO.Copy (st_dst st) r in
               (d, r, (written st + w, err))
           end
       end)
  end.

End Mem.

Lemma Mem_read_insert_fresh (h : Mem.heap) l es s :
  h !! l = None -> Mem.read (<[l := es]> h) s = if decide (s = Mem.Ref l) then es else Mem.read h s.
Proof.
  intros Hl. destruct s as [|l'].
  - by rewrite decide_False.
  - destruct (decide (l = l')) as [-> | Hne].
    + rewrite decide_True by done. unfold Mem.read. by rewrite lookup_insert_eq.
    + rewrite decide_False by congruence. unfold Mem.read. by rewrite lookup_insert_ne.
Qed.

(** What the prelude of [Validate] does to the store. *)
Lemma Mem_Validate_eq L (h : Mem.heap) edits :
  let E := Mem.read h edits in
  exists h' edits',
    Mem.Validate L h edits =
      match validateLoop L (sortedEdits E) L 0 with
      | inl err => (h', (Mem.Nil, 0, Some err))
      | inr size => (h', (edits', size, None))
      end /\
    Mem.read h' edits' = sortedEdits E /\
    (Sort.IsSorted Less E = true -> h' = h /\ edits' = edits) /\
    (Sort.IsSorted Less E = false ->
       exists l, h !! l = None /\ h' = <[l := SortEdits E]> h /\ edits' = Mem.Ref l).
Proof.
  intros E. unfold Mem.Validate, sortedEdits. fold E.
  destruct (Sort.IsSorted Less E) eqn:Hs.
  - exists h, edits. fold E. repeat split; done.
  - unfold Mem.copy. fold E. destruct E as [|e0 E0] eqn:HE; [done |].
    set (l := fresh (dom h)).
    assert (Hl : h !! l = None) by (apply not_elem_of_dom, is_fresh).
    exists (<[l := SortEdits (e0 :: E0)]> h), (Mem.Ref l).
    assert (Hh : Mem.SortEdits (<[l := e0 :: E0]> h) (Mem.Ref l)
                 = <[l := SortEdits (e0 :: E0)]> h).
    { unfold Mem.SortEdits, Mem.read. by rewrite lookup_insert_eq, insert_insert_eq. }
    rewrite Hh.
    assert (Hr : Mem.read (<[l := SortEdits (e0 :: E0)]> h) (Mem.Ref l) = SortEdits (e0 :: E0)).
    { simpl. by rewrite lookup_insert_eq. }
    rewrite Hr. repeat split; [done | done |].
    intros _. exists l. done.
Qed.

Lemma Mem_Validate_frame L (h : Mem.heap) edits :
  h ⊆ (Mem.Validate L h edits).1 /\
  Mem.read (Mem.Validate L h edits).1 edits = Mem.read h edits.
Proof.
  destruct (Mem_Validate_eq L h edits) as (h' & edits' & HV & _ & Hs & Hn).
  assert (Hh : (Mem.Validate L h edits).1 = h').
  { rewrite HV. by destruct (validateLoop L (sortedEdits (Mem.read h edits)) L 0). }
  rewrite Hh. destruct (Sort.IsSorted Less (Mem.read h edits)) eqn:HsE.
  - destruct (Hs eq_refl) as [-> _]. done.
  - destruct (Hn eq_refl) as (l & Hl & -> & _). split; [by apply insert_subseteq |].
    rewrite Mem_read_insert_fresh by done.
    destruct (decide (edits = Mem.Ref l)) as [-> | ?]; [| done].
    simpl in HsE. rewrite Hl in HsE. done.
Qed.

(** With the store or without it, the functions compute the same. *)
Lemma Mem_Apply_pure src (h : Mem.heap) edits :
  (Mem.Apply src h edits).2 = Apply src (Mem.read h edits).
Proof.
  destruct (Mem_Validate_eq (len src) h edits) as (h' & edits' & HV & Hr & _).
  unfold Mem.Apply, Apply, Validate. rewrite HV.
  destruct (validateLoop (len src) (sortedEdits (Mem.read h edits)) (len src) 0); [done |].
  simpl. by rewrite Hr.
Qed.

Lemma Mem_ApplyTo_pure dst src L (h : Mem.heap) edits :
  (Mem.ApplyTo dst src L h edits).2 = ApplyTo dst src L (Mem.read h edits).
Proof.
  destruct (Mem_Validate_eq L h edits) as (h' & edits' & HV & Hr & _).
  unfold Mem.ApplyTo, ApplyTo, Validate. rewrite HV.
  destruct (validateLoop L (sortedEdits (Mem.read h edits)) L 0); [done |].
  simpl. by rewrite Hr.
Qed.

Lemma Mem_lineEdits_pure src (h : Mem.heap) edits :
  let '(h', r) := Mem.lineEdits src h edits in
  match r with
  | Returns (s, err) => lineEdits src (Mem.read h edits) = Returns (Mem.read h' s, err)
  | Panics p => lineEdits src (Mem.read h edits) = Panics p
  end.
Proof.
  destruct (Mem_Validate_eq (len src) h edits) as (h' & edits' & HV & Hr & _).
  unfold Mem.lineEdits, lineEdits, Validate. rewrite HV.
  destruct (validateLoop (len src) (sortedEdits (Mem.read h edits)) (len src) 0); [done |].
  rewrite Hr. destruct (needsExpand src (sortedEdits (Mem.read h edits))) as [[|] | ?]; simpl.
  - destruct (sortedEdits (Mem.read h edits)) as [|prev rest]; [done |].
    destruct (expandLoop src prev rest []); simpl; [| done].
    by rewrite lookup_insert_eq.
  - by rewrite Hr.
  - done.
Qed.

(** C10.  [Validate] writes to no array that existed before the call:
    the caller's slice keeps its elements.  When [sort.IsSorted] accepts the
    input, nothing is allocated and a successful call returns the caller's
    slice itself; otherwise a new array is allocated, receives the sorted
    copy, and is the slice that a successful call returns.  [Apply],
    [ApplyTo] and [lineEdits] change no existing array either. *)
Theorem Validate_keeps_caller_slice
    (L : Z) (src : Text) (dst : IO.Writer) (h : Mem.heap) (edits : Mem.sliceRef) :
  let E := Mem.read h edits in
  exists h' edits' size err,
    Mem.Validate L h edits = (h', (edits', size, err)) /\
    (Mem.read h' edits', size, err) = Validate L E /\
    h ⊆ h' /\ Mem.read h' edits = E /\
    (Sort.IsSorted Less E = true -> h' = h /\ (err = None -> edits' = edits)) /\
    (Sort.IsSorted Less E = false ->
       exists l, h !! l = None /\ h' = <[l := SortEdits E]> h /\
                 (err = None -> edits' = Mem.Ref l)) /\
    h ⊆ (Mem.Apply src h edits).1 /\
    h ⊆ (Mem.ApplyTo dst src L h edits).1 /\
    h ⊆ (Mem.lineEdits src h edits).1.
Proof.
  intros E.
  destruct (Mem_Validate_eq L h edits) as (h' & edits' & HV & Hr & Hs & Hn).
  fold E in HV, Hr, Hs, Hn.
  pose proof (Mem_Validate_frame L h edits) as [Hsub Hrd]. fold E in Hrd.
  assert (HA : h ⊆ (Mem.Apply src h edits).1).
  { pose proof (Mem_Validate_frame (len src) h edits) as [Hsub' _].
    unfold Mem.Apply. by destruct (Mem.Validate (len src) h edits) as [? [[? ?] [?|]]]. }
  assert (HL : h ⊆ (Mem.lineEdits src h edits).1).
  { pose proof (Mem_Validate_frame (len src) h edits) as [Hsub' _].
    unfold Mem.lineEdits.
    destruct (Mem.Validate (len src) h edits) as [h1 [[e1 ?] [?|]]]; simpl in *; [done |].
    destruct (needsExpand src (Mem.read h1 e1)) as [[|] | ?]; simpl; try done.
    destruct (Mem.read h1 e1) as [|prev rest]; simpl; [done |].
    destruct (expandLoop src prev rest []); simpl; [| done].
    etrans; [exact Hsub' |]. apply insert_subseteq, not_elem_of_dom, is_fresh. }
  assert (HT : h ⊆ (Mem.ApplyTo dst src L h edits).1).
  { unfold Mem.ApplyTo. by destruct (Mem.Validate L h edits) as [? [[? ?] [?|]]]. }
  unfold Validate. fold E.
  destruct (validateLoop L (sortedEdits E) L 0) as [err | size] eqn:Hloop.
  - exists h', Mem.Nil, 0, (Some err). rewrite HV in Hsub, Hrd |- *.
    split_and!; try done.
    + intros HsE. by destruct (Hs HsE).
    + intros HsE. destruct (Hn HsE) as (l & ? & ? & ?). exists l. done.
  - exists h', edits', size, None. rewrite HV in Hsub, Hrd |- *. rewrite Hr.
    split_and!; try done.
    + intros HsE. by destruct (Hs HsE).
    + intros HsE. destruct (Hn HsE) as (l & ? & ? & ?). exists l. done.
Qed.

(** ** package lcs *)

Module Lcs.

(** [lcs.Diff]: [A[Start:End]] is replaced by [B[ReplStart:ReplEnd]]. *)
Record Diff : Type := mkDiff { Start : Z; End : Z; ReplStart : Z; ReplEnd : Z }.

(** *** sequence.go *)

(** [commonPrefixLenString(a, b)]: the loop compares [a[i]] and [b[i]]
    from [i = 0] while both exist and agree. *)
Fixpoint commonPrefixLenString (a b : Text) : Z :=
  match a, b with
  | x :: a', y :: b' => if Byte.eqb x y then 1 + commonPrefixLenString a' b' else 0
  | _, _ => 0
  end.

(** [commonSuffixLenString(a, b)]: the same loop from the last elements
    backwards. *)
Definition commonSuffixLenString (a b : Text) : Z :=
  commonPrefixLenString (rev a) (rev b).

(** [stringSeqs], the pair of sequences behind the [sequences] interface. *)
Record stringSeqs : Type := mkSeqs { seq_a : Text; seq_b : Text }.

Definition lengths (s : stringSeqs) : Z * Z := (len (seq_a s), len (seq_b s)).

Definition commonPrefixLen (s : stringSeqs) (ai aj bi bj : Z) : outcome Z :=
  a ← slice (seq_a s) ai aj; b ← slice (seq_b s) bi bj;
  Returns (commonPrefixLenString a b).

Definition commonSuffixLen (s : stringSeqs) (ai aj bi bj : Z) : outcome Z :=
  a ← slice (seq_a s) ai aj; b ← slice (seq_b s) bi bj;
  Returns (commonSuffixLenString a b).

(** *** The engine *)

(** Modelled from the spec: the divide-and-conquer engine behind
    [lcs.DiffText] is not among the sources; what follows is section 4.2 of
    the specification over the sequence view above.  The anchor of a window
    is sought on the midpoint of its longer side, at the position of the other
    side where the common suffix before the anchor and the common prefix
    after it are longest together, the first such position winning; the two
    corners that would leave a half as large as the window are not
    candidates. *)
Definition score (s : stringSeqs) (ai aj bi bj x y : Z) : outcome Z :=
  p ← commonSuffixLen s ai x bi y;
  q ← commonPrefixLen s x aj y bj;
  Returns (p + q).

(** The first candidate with the highest score, [cur] included. *)
Fixpoint best (f : Z -> outcome Z) (cands : list Z) (cur curScore : Z) : outcome Z :=
  match cands with
  | [] => Returns cur
  | c :: r =>
      sc ← f c;
      if sc >? curScore then best f r c sc else best f r cur curScore
  end.

(** Modelled from the spec: step 4 of section 4.2, the choice of the
    anchor [(x, y)] of a window with two non-empty sides. *)
Definition anchor (s : stringSeqs) (ai aj bi bj : Z) : outcome (Z * Z) :=
  if bj - bi <=? aj - ai then
    let x := ai + (aj - ai) / 2 in
    let y0 := if x =? ai then bi + 1 else bi in
    sc ← score s ai aj bi bj x y0;
    y ← best (score s ai aj bi bj x) (seqZ (y0 + 1) (bj - y0)) y0 sc;
    Returns (x, y)
  else
    let y := bi + (bj - bi) / 2 in
    sc ← score s ai aj bi bj ai y;
    x ← best (fun x => score s ai aj bi bj x y) (seqZ (ai + 1) (aj - ai)) ai sc;
    Returns (x, y).

(** Modelled from the spec: steps 1 to 4 of section 4.2 on the window
    [[ai,aj) x [bi,bj)].  [fuel] bounds the depth of the recursion. *)
Fixpoint lcs (fuel : nat) (s : stringSeqs) (ai aj bi bj : Z) : outcome (list Diff) :=
  match fuel with
  | O => Panics StackOverflow
  | S f =>
      p ← commonPrefixLen s ai aj bi bj;
      let ai := ai + p in
      let bi := bi + p in
      q ← commonSuffixLen s ai aj bi bj;
      let aj := aj - q in
      let bj := bj - q in
      if (ai =? aj) || (bi =? bj) then
        if (ai =? aj) && (bi =? bj) then Returns [] else Returns [mkDiff ai aj bi bj]
      else
        '(x, y) ← anchor s ai aj bi bj;
        left ← lcs f s ai x bi y;
        right ← lcs f s x aj y bj;
        Returns (left ++ right)
  end.

(** Modelled from the spec: step 5 of section 4.2, adjacent diffs become
    one. *)
Fixpoint mergeFrom (cur : Diff) (rest : list Diff) : list Diff :=
  match rest with
  | [] => [cur]
  | d :: r =>
      if (End cur =? Start d) && (ReplEnd cur =? ReplStart d)
      then mergeFrom (mkDiff (Start cur) (End d) (ReplStart cur) (ReplEnd d)) r
      else cur :: mergeFrom d r
  end.

Definition merge (ds : list Diff) : list Diff :=
  match ds with
  | [] => []
  | d :: r => mergeFrom d r
  end.

(** Modelled from the spec: [lcs.DiffText(a, b)], the engine on the whole
    of both texts.  Every call of the engine on a window with two non-empty
    sides splits it into two smaller windows, so [len(a) + len(b) + 1] levels
    of recursion are enough. *)
Definition DiffText (a b : Text) : outcome (list Diff) :=
  let s := mkSeqs a b in
  let '(m, n) := lengths s in
  ds ← lcs (Z.to_nat (m + n + 1)) s 0 m 0 n;
  Returns (merge ds).

End Lcs.

(** ** ndiff.go *)

(** [isASCII(s)]. *)
Definition isASCII (s : Text) : bool :=
  forallb (fun c => Z.of_N (Byte.to_N c) <? 128) s.

(** [diffASCII(before, after)]: the diffs of the engine as edits. *)
Fixpoint diffsToEdits (after : Text) (diffs : list Lcs.Diff) : outcome (list Edit) :=
  match diffs with
  | [] => Returns []
  | d :: r =>
      new ← slice after (Lcs.ReplStart d) (Lcs.ReplEnd d);
      res ← diffsToEdits after r;
      Returns (mkEdit (Lcs.Start d) (Lcs.End d) new :: res)
  end.

Definition diffASCII (before after : Text) : outcome (list Edit) :=
  diffs ← Lcs.DiffText before after;
  diffsToEdits after diffs.

Section Ndiff.

(** The rune path of [diffText] ([diffRunes] over [text.ToRunes]), which
    decodes UTF-8; [Binary] does not take it. *)
Variable diffRunes : Text -> Text -> outcome (list Edit).

(** [diffText(before, after, binary)]. *)
Definition diffText (before after : Text) (binary : bool) : outcome (list Edit) :=
  if bool_decide (before = after) then Returns []
  else if binary || (isASCII before && isASCII after)
  then diffASCII before after
  else diffRunes before after.

(** [Binary(before, after)]. *)
Definition Binary (before after : Text) : outcome (list Edit) :=
  diffText before after true.

End Ndiff.

(** ** The engine's diffs describe the second text *)

Lemma take_segment {A} (s : list A) lo hi k :
  0 <= k <= hi - lo -> take (Z.to_nat k) (segment s lo hi) = segment s lo (lo + k).
Proof.
  intros. unfold segment. rewrite take_take.
  f_equal. lia.
Qed.

Lemma drop_segment {A} (s : list A) lo hi k :
  0 <= lo -> 0 <= k <= hi - lo ->
  drop (Z.to_nat k) (segment s lo hi) = segment s (lo + k) hi.
Proof.
  intros. unfold segment. rewrite skipn_firstn_comm, drop_drop.
  f_equal; [lia | f_equal; lia].
Qed.

Lemma commonPrefixLenString_spec a b :
  let p := Lcs.commonPrefixLenString a b in
  0 <= p /\ p <= len a /\ p <= len b /\ take (Z.to_nat p) a = take (Z.to_nat p) b.
Proof.
  assert (Hz : forall a b : Text, 0 <= 0 /\ 0 <= len a /\ 0 <= len b /\
                 take (Z.to_nat 0) a = take (Z.to_nat 0) b).
  { intros a' b'. pose proof (len_nonneg a'). pose proof (len_nonneg b'). split_and!; (lia || done). }
  revert b. induction a as [|x a IH]; intros [|y b]; cbn [Lcs.commonPrefixLenString];
    try apply Hz.
  destruct (Byte.eqb x y) eqn:Hxy; [| apply Hz].
  apply Byte_eqb_iff in Hxy as ->. destruct (IH b) as (? & ? & ? & Heq).
  rewrite !len_cons. split_and!; try lia.
  replace (Z.to_nat (1 + Lcs.commonPrefixLenString a b))
    with (S (Z.to_nat (Lcs.commonPrefixLenString a b))) by lia.
  simpl. by rewrite Heq.
Qed.

Lemma commonSuffixLenString_spec a b :
  let q := Lcs.commonSuffixLenString a b in
  0 <= q /\ q <= len a /\ q <= len b /\
  drop (length a - Z.to_nat q) a = drop (length b - Z.to_nat q) b.
Proof.
  unfold Lcs.commonSuffixLenString.
  destruct (commonPrefixLenString_spec (rev a) (rev b)) as (H0 & Ha & Hb & Heq).
  unfold len in *. rewrite length_rev in Ha, Hb. split_and!; try lia.
  rewrite !firstn_rev in Heq. by apply (f_equal (@rev byte)) in Heq; rewrite !rev_involutive in Heq.
Qed.

Section LcsFacts.

Variables a b : Text.

Let s := Lcs.mkSeqs a b.

(** A window of the two texts. *)
Definition window (ai aj bi bj : Z) : Prop :=
  (0 <= ai /\ ai <= aj /\ aj <= len a) /\ (0 <= bi /\ bi <= bj /\ bj <= len b).

Lemma commonPrefixLen_spec ai aj bi bj :
  window ai aj bi bj ->
  exists p, Lcs.commonPrefixLen s ai aj bi bj = Returns p /\
    0 <= p /\ p <= aj - ai /\ p <= bj - bi /\
    segment a ai (ai + p) = segment b bi (bi + p).
Proof.
  intros [(? & ? & ?) (? & ? & ?)]. unfold Lcs.commonPrefixLen. simpl.
  rewrite !slice_ok by lia. simpl.
  destruct (commonPrefixLenString_spec (segment a ai aj) (segment b bi bj)) as (Hp0 & Ha & Hb & Heq).
  rewrite len_segment in Ha, Hb by lia.
  eexists. split; [reflexivity |]. split_and!; try lia.
  by rewrite !take_segment in Heq by lia.
Qed.

Lemma commonSuffixLen_spec ai aj bi bj :
  window ai aj bi bj ->
  exists q, Lcs.commonSuffixLen s ai aj bi bj = Returns q /\
    0 <= q /\ q <= aj - ai /\ q <= bj - bi /\
    segment a (aj - q) aj = segment b (bj - q) bj.
Proof.
  intros [(? & ? & ?) (? & ? & ?)]. unfold Lcs.commonSuffixLen. simpl.
  rewrite !slice_ok by lia. simpl.
  destruct (commonSuffixLenString_spec (segment a ai aj) (segment b bi bj)) as (Hq0 & Ha & Hb & Heq).
  rewrite len_segment in Ha, Hb by lia.
  eexists. split; [reflexivity |]. split_and!; try lia.
  set (q := Lcs.commonSuffixLenString (segment a ai aj) (segment b bi bj)) in *.
  assert (Hla : (length (segment a ai aj) - Z.to_nat q)%nat = Z.to_nat (aj - ai - q)).
  { pose proof (len_segment a ai aj). unfold len in *. lia. }
  assert (Hlb : (length (segment b bi bj) - Z.to_nat q)%nat = Z.to_nat (bj - bi - q)).
  { pose proof (len_segment b bi bj). unfold len in *. lia. }
  rewrite Hla, Hlb, !drop_segment in Heq by lia.
  by replace (ai + (aj - ai - q)) with (aj - q) in Heq by lia;
     replace (bi + (bj - bi - q)) with (bj - q) in Heq by lia.
Qed.

Lemma score_Returns ai aj bi bj x y :
  window ai aj bi bj -> ai <= x <= aj -> bi <= y <= bj ->
  exists sc, Lcs.score s ai aj bi bj x y = Returns sc.
Proof.
  intros [(? & ? & ?) (? & ? & ?)] Hx Hy. unfold Lcs.score.
  destruct (commonSuffixLen_spec ai x bi y) as (p & -> & _); [unfold window; lia |].
  destruct (commonPrefixLen_spec x aj y bj) as (q & -> & _); [unfold window; lia |].
  by eexists.
Qed.

Lemma best_Returns (f : Z -> outcome Z) cands cur curScore :
  (forall c, c ∈ cands -> exists sc, f c = Returns sc) ->
  exists r, Lcs.best f cands cur curScore = Returns r /\ (r = cur \/ r ∈ cands).
Proof.
  revert cur curScore. induction cands as [|c r IH]; intros cur curScore Hf; simpl.
  - eexists. split; [reflexivity | by left].
  - destruct (Hf c) as (sc & ->); [by left |]. simpl.
    assert (Hr : forall c', c' ∈ r -> exists sc, f c' = Returns sc)
      by (intros; apply Hf; by right).
    destruct (sc >? curScore).
    + destruct (IH c sc Hr) as (r' & -> & [-> | ?]); eexists; (split; [reflexivity |]);
        right; [by left | by right].
    + destruct (IH cur curScore Hr) as (r' & -> & [-> | ?]); eexists; (split; [reflexivity |]);
        [by left | right; by right].
Qed.

(** The anchor lies in the window and at neither of the two corners that
    would leave one half as large as the window. *)
Lemma anchor_spec ai aj bi bj :
  window ai aj bi bj -> ai < aj -> bi < bj ->
  exists x y, Lcs.anchor s ai aj bi bj = Returns (x, y) /\
    ai <= x <= aj /\ bi <= y <= bj /\
    0 < (x - ai) + (y - bi) /\ 0 < (aj - x) + (bj - y).
Proof.
  intros Hw Ha Hb. pose proof Hw as [(? & ? & ?) (? & ? & ?)]. unfold Lcs.anchor.
  destruct (bj - bi <=? aj - ai) eqn:Hlong.
  - set (x := ai + (aj - ai) / 2).
    assert (Hx : ai <= x < aj).
    { subst x. pose proof (Z.div_pos (aj - ai) 2). 
      pose proof (Z.div_lt_upper_bound (aj - ai) 2 (aj - ai)). lia. }
    set (y0 := if x =? ai then bi + 1 else bi).
    assert (Hy0 : bi <= y0 <= bj) by (subst y0; destruct (x =? ai); lia).
    destruct (score_Returns ai aj bi bj x y0 Hw) as (sc & ->); [lia | lia |]. simpl.
    destruct (best_Returns (Lcs.score s ai aj bi bj x) (seqZ (y0 + 1) (bj - y0)) y0 sc)
      as (y & -> & Hy).
    { intros c Hc%elem_of_seqZ. apply score_Returns; [done | lia | lia]. }
    simpl. exists x, y. split; [done |].
    assert (y0 <= y <= bj) by (destruct Hy as [-> | Hy%elem_of_seqZ]; lia).
    split_and!; try lia.
    subst y0. destruct (Z.eqb_spec x ai); lia.
  - apply Z.leb_gt in Hlong.
    set (y := bi + (bj - bi) / 2).
    assert (Hy : bi < y < bj).
    { subst y. pose proof (Z.div_le_lower_bound (bj - bi) 2 1).
      pose proof (Z.div_lt_upper_bound (bj - bi) 2 (bj - bi)). lia. }
    destruct (score_Returns ai aj bi bj ai y Hw) as (sc & ->); [lia | lia |]. simpl.
    destruct (best_Returns (fun x => Lcs.score s ai aj bi bj x y) (seqZ (ai + 1) (aj - ai)) ai sc)
      as (x & -> & Hx).
    { intros c Hc%elem_of_seqZ. apply score_Returns; [done | lia | lia]. }
    simpl. exists x, y. split; [done |].
    assert (ai <= x <= aj) by (destruct Hx as [-> | Hx%elem_of_seqZ]; lia).
    lia.
Qed.

End LcsFacts.

Section Reconstruction.

Variables a b : Text.

(** The text that a list of diffs makes of [a[pos:aj]]. *)
Fixpoint recon (pos : Z) (ds : list Lcs.Diff) (aj : Z) : Text :=
  match ds with
  | [] => segment a pos aj
  | d :: r =>
      segment a pos (Lcs.Start d) ++
      segment b (Lcs.ReplStart d) (Lcs.ReplEnd d) ++ recon (Lcs.End d) r aj
  end.

(** The diffs advance through [[pos,aj)] and [[posB,bj)] without going
    back. *)
Fixpoint chain (pos posB : Z) (ds : list Lcs.Diff) (aj bj : Z) : Prop :=
  match ds with
  | [] => pos <= aj /\ posB <= bj
  | d :: r =>
      (pos <= Lcs.Start d /\ Lcs.Start d <= Lcs.End d) /\
      (posB <= Lcs.ReplStart d /\ Lcs.ReplStart d <= Lcs.ReplEnd d) /\
      chain (Lcs.End d) (Lcs.ReplEnd d) r aj bj
  end.

Lemma chain_le pos posB ds aj bj : chain pos posB ds aj bj -> pos <= aj /\ posB <= bj.
Proof.
  revert pos posB. induction ds as [|d r IH]; intros pos posB; simpl; [done |].
  intros (? & ? & Hc). apply IH in Hc. lia.
Qed.

Lemma chain_widen pos posB ds aj bj pos' posB' aj' bj' :
  chain pos posB ds aj bj -> pos' <= pos -> posB' <= posB -> aj <= aj' -> bj <= bj' ->
  chain pos' posB' ds aj' bj'.
Proof.
  revert pos posB pos' posB'. induction ds as [|d r IH]; intros pos posB pos' posB'; simpl.
  - lia.
  - intros (? & ? & Hc) ? ? ? ?. split_and!; try lia. apply (IH _ _ _ _ Hc); lia.
Qed.

Lemma chain_app pos posB l r x y aj bj :
  chain pos posB l x y -> chain x y r aj bj -> chain pos posB (l ++ r) aj bj.
Proof.
  revert pos posB. induction l as [|d l IH]; intros pos posB; simpl.
  - intros [? ?] Hr. apply (chain_widen _ _ _ _ _ _ _ _ _ Hr); lia.
  - intros (? & ? & Hc) Hr. split_and!; try lia. by apply IH.
Qed.

Lemma recon_left pos pos' posB ds aj bj :
  0 <= pos -> pos <= pos' -> chain pos' posB ds aj bj ->
  segment a pos pos' ++ recon pos' ds aj = recon pos ds aj.
Proof.
  intros ? ? Hc. destruct ds as [|d r]; simpl in *.
  - apply segment_app; lia.
  - rewrite app_assoc. f_equal. apply segment_app; lia.
Qed.

Lemma recon_right pos posB ds aj aj' bj :
  0 <= pos -> chain pos posB ds aj bj -> aj <= aj' ->
  recon pos ds aj ++ segment a aj aj' = recon pos ds aj'.
Proof.
  revert pos posB. induction ds as [|d r IH]; intros pos posB ? Hc ?; simpl in *.
  - apply segment_app; lia.
  - destruct Hc as (? & ? & Hc). rewrite <- !app_assoc. do 2 f_equal.
    eapply IH; [| exact Hc |]; lia.
Qed.

Lemma recon_app pos posB l r x y aj bj :
  0 <= pos -> chain pos posB l x y -> chain x y r aj bj ->
  recon pos (l ++ r) aj = recon pos l x ++ recon x r aj.
Proof.
  revert pos posB. induction l as [|d l IH]; intros pos posB ? Hl Hr; simpl in *.
  - symmetry. eapply recon_left; [| | exact Hr]; lia.
  - destruct Hl as (? & ? & Hl). rewrite <- !app_assoc. do 2 f_equal.
    eapply IH; [| exact Hl | exact Hr]. lia.
Qed.

(** The engine returns, and its diffs turn the window of [a] into the
    window of [b]. *)
Lemma lcs_spec fuel : forall ai aj bi bj,
  window a b ai aj bi bj -> (aj - ai) + (bj - bi) < Z.of_nat fuel ->
  exists ds, Lcs.lcs fuel (Lcs.mkSeqs a b) ai aj bi bj = Returns ds /\
    chain ai bi ds aj bj /\ recon ai ds aj = segment b bi bj.
Proof.
  induction fuel as [|fuel IH]; intros ai aj bi bj Hw Hfuel.
  { destruct Hw as [(? & ? & ?) (? & ? & ?)]. lia. }
  pose proof Hw as [(? & ? & ?) (? & ? & ?)].
  cbn [Lcs.lcs].
  destruct (commonPrefixLen_spec a b ai aj bi bj Hw) as (p & -> & ? & ? & ? & Hpre).
  cbn [mbind outcome_bind].
  assert (Hw1 : window a b (ai + p) aj (bi + p) bj) by (unfold window; lia).
  destruct (commonSuffixLen_spec a b (ai + p) aj (bi + p) bj Hw1) as (q & -> & ? & ? & ? & Hsuf).
  cbn [mbind outcome_bind].
  assert (Hframe : forall ds,
    chain (ai + p) (bi + p) ds (aj - q) (bj - q) ->
    recon (ai + p) ds (aj - q) = segment b (bi + p) (bj - q) ->
    chain ai bi ds aj bj /\ recon ai ds aj = segment b bi bj).
  { intros ds Hc Hr. split; [apply (chain_widen _ _ _ _ _ _ _ _ _ Hc); lia |].
    rewrite <- (recon_left ai (ai + p) (bi + p) ds aj bj)
      by (try lia; apply (chain_widen _ _ _ _ _ _ _ _ _ Hc); lia).
    rewrite <- (recon_right (ai + p) (bi + p) ds (aj - q) aj (bj - q)) by (done || lia).
    rewrite Hr, Hpre, Hsuf.
    rewrite (segment_app b (bi + p) (bj - q) bj) by lia.
    apply segment_app; lia. }
  destruct ((ai + p =? aj - q) || (bi + p =? bj - q)) eqn:Hempty.
  - destruct ((ai + p =? aj - q) && (bi + p =? bj - q)) eqn:Hboth.
    + apply andb_true_iff in Hboth as [Ha%Z.eqb_eq Hb%Z.eqb_eq].
      eexists. split; [reflexivity |]. apply Hframe; simpl; [lia |].
      rewrite !segment_empty by lia. done.
    + eexists. split; [reflexivity |]. apply Hframe; simpl; [lia |].
      rewrite (segment_empty a (ai + p) (ai + p)), (segment_empty a (aj - q) (aj - q)) by lia.
      by rewrite app_nil_r.
  - apply orb_false_iff in Hempty as [Ha%Z.eqb_neq Hb%Z.eqb_neq].
    assert (Hw2 : window a b (ai + p) (aj - q) (bi + p) (bj - q)) by (unfold window; lia).
    destruct (anchor_spec a b _ _ _ _ Hw2) as (x & y & -> & ? & ? & ? & ?); [lia | lia |].
    cbn [mbind outcome_bind].
    destruct (IH (ai + p) x (bi + p) y) as (l & -> & Hcl & Hrl); [unfold window; lia | lia |].
    cbn [mbind outcome_bind].
    destruct (IH x (aj - q) y (bj - q)) as (r & -> & Hcr & Hrr); [unfold window; lia | lia |].
    cbn [mbind outcome_bind].
    eexists. split; [reflexivity |]. apply Hframe.
    + by apply (chain_app _ _ _ _ x y).
    + rewrite (recon_app _ _ _ _ x y (aj - q) (bj - q)) by (done || lia).
      rewrite Hrl, Hrr. apply segment_app; lia.
Qed.

Lemma mergeFrom_spec rest : forall cur pos posB aj bj,
  0 <= pos -> 0 <= posB ->
  chain pos posB (cur :: rest) aj bj ->
  chain pos posB (Lcs.mergeFrom cur rest) aj bj /\
  recon pos (Lcs.mergeFrom cur rest) aj = recon pos (cur :: rest) aj.
Proof.
  induction rest as [|d r IH]; intros cur pos posB aj bj ? ? Hc; [done |].
  cbn [Lcs.mergeFrom].
  destruct Hc as ((? & ?) & (? & ?) & (? & ?) & (? & ?) & Hc).
  destruct ((Lcs.End cur =? Lcs.Start d) && (Lcs.ReplEnd cur =? Lcs.ReplStart d)) eqn:Hadj.
  - apply andb_true_iff in Hadj as [Ha%Z.eqb_eq Hb%Z.eqb_eq].
    destruct (IH (Lcs.mkDiff (Lcs.Start cur) (Lcs.End d) (Lcs.ReplStart cur) (Lcs.ReplEnd d))
                pos posB aj bj) as [Hc' Hr']; [lia | lia | |].
    { simpl. split_and!; (lia || done). }
    split; [done |]. rewrite Hr'. cbn [recon Lcs.Start Lcs.End Lcs.ReplStart Lcs.ReplEnd].
    rewrite (segment_empty a (Lcs.End cur) (Lcs.Start d)) by lia.
    rewrite <- (segment_app b (Lcs.ReplStart cur) (Lcs.ReplEnd cur) (Lcs.ReplEnd d)) by lia.
    rewrite Hb. by rewrite <- !app_assoc.
  - destruct (IH d (Lcs.End cur) (Lcs.ReplEnd cur) aj bj) as [Hc' Hr']; [lia | lia | |].
    { simpl. split_and!; (lia || done). }
    split; [simpl; split_and!; (lia || done) |].
    cbn [recon]. by rewrite Hr'.
Qed.

Lemma merge_spec ds pos posB aj bj :
  0 <= pos -> 0 <= posB -> chain pos posB ds aj bj ->
  chain pos posB (Lcs.merge ds) aj bj /\ recon pos (Lcs.merge ds) aj = recon pos ds aj.
Proof.
  destruct ds as [|d r]; [done |]. apply mergeFrom_spec.
Qed.

(** The edit that [diffASCII] makes of a diff. *)
Definition toEdit (d : Lcs.Diff) : Edit :=
  mkEdit (Lcs.Start d) (Lcs.End d) (segment b (Lcs.ReplStart d) (Lcs.ReplEnd d)).

Lemma diffsToEdits_spec ds : forall pos posB,
  0 <= pos -> 0 <= posB -> chain pos posB ds (len a) (len b) ->
  diffsToEdits b ds = Returns (map toEdit ds) /\
  Forall (inBounds (len a)) (map toEdit ds) /\
  ordered pos (map toEdit ds) /\
  patched a pos (map toEdit ds) = recon pos ds (len a).
Proof.
  induction ds as [|d r IH]; intros pos posB ? ? Hc; [by repeat constructor |].
  destruct Hc as ((? & ?) & (? & ?) & Hc). pose proof (chain_le _ _ _ _ _ Hc) as [? ?].
  cbn [diffsToEdits]. rewrite slice_ok by lia. cbn [mbind outcome_bind].
  destruct (IH (Lcs.End d) (Lcs.ReplEnd d)) as (-> & Hf & Ho & Hp); [lia | lia | done |].
  cbn [mbind outcome_bind].
  split; [done |]. split; [constructor; [unfold inBounds; simpl; lia | done] |].
  split; [simpl; split; [lia | done] |].
  cbn [map patched recon toEdit Start End New]. by rewrite Hp.
Qed.

End Reconstruction.

Lemma Apply_ordered src edits :
  len src <= GoInt.int_max -> Forall (inBounds (len src)) edits -> ordered 0 edits ->
  Apply src edits = Returns (patched src 0 edits, None).
Proof.
  intros HL Hf Ho.
  apply (Apply_valid src edits edits (len src + sizeDelta edits)).
  by apply Validate_ordered.
Qed.

Lemma diffASCII_spec before after :
  exists E, diffASCII before after = Returns E /\
    Forall (inBounds (len before)) E /\ ordered 0 E /\ patched before 0 E = after.
Proof.
  unfold diffASCII, Lcs.DiffText, Lcs.lengths. cbn [Lcs.seq_a Lcs.seq_b].
  pose proof (len_nonneg before). pose proof (len_nonneg after).
  destruct (lcs_spec before after (Z.to_nat (len before + len after + 1))
              0 (len before) 0 (len after)) as (ds & -> & Hc & Hr);
    [unfold window; lia | lia |].
  cbn [mbind outcome_bind].
  destruct (merge_spec before after ds 0 0 (len before) (len after)) as [Hc' Hr']; [lia | lia | done |].
  destruct (diffsToEdits_spec before after (Lcs.merge ds) 0 0) as (-> & Hf & Ho & Hp);
    [lia | lia | done |].
  eexists. split; [reflexivity |]. split; [done |]. split; [done |].
  rewrite Hp, Hr', Hr. apply segment_all.
Qed.

(** C1.  For every pair of byte strings [A] and [B] ([A] no longer than an
    [int] can tell), the binary diff returns an edit script, and applying
    that script to [A] returns [B] and no error: no panic on the way, no
    validation failure.  The engine behind [lcs.DiffText] is the one modelled
    from the specification. *)
Theorem Binary_round_trip (diffRunes : Text -> Text -> outcome (list Edit)) (A B : Text) :
  len A <= GoInt.int_max ->
  exists E, Binary diffRunes A B = Returns E /\ Apply A E = Returns (B, None).
Proof.
  intros HL. unfold Binary, diffText. destruct (bool_decide (A = B)) eqn:Heq.
  - apply bool_decide_eq_true in Heq as ->. exists []. split; [done |].
    rewrite Apply_ordered by (done || constructor). simpl. by rewrite segment_all.
  - cbn [orb]. destruct (diffASCII_spec A B) as (E & -> & Hf & Ho & Hp).
    exists E. split; [done |]. rewrite Apply_ordered by done. by rewrite Hp.
Qed.

Lemma Binary_round_trip_witness :
  let A := ["b"; "l"; "a"; "n"; "k"; "e"; "t"; NL]%byte in
  let B := ["b"; "u"; "n"; "k"; "e"; "r"; NL]%byte in
  exists E, Binary (fun _ _ => Returns []) A B = Returns E /\ Apply A E = Returns (B, None).
Proof.
  intros A B. apply (Binary_round_trip (fun _ _ => Returns []) A B).
  vm_compute. discriminate.
Defined.

(** ** package myers *)

Module Myers.

(** Modelled from the spec: [diff.OpKind] is declared in a file that is not
    among the sources; section 4.6 names the three kinds of operation:
    deletions, insertions and equals. *)
Inductive OpKind : Type := Delete | Insert | Equal.

(** [type Operation struct { Kind; Start, End; ReplStart, ReplEnd }] *)
Record Operation : Type := mkOp {
  Kind : OpKind; Start : Z; End : Z; ReplStart : Z; ReplEnd : Z
}.

(** [text.SplitAfter(t, "\n")]: the pieces of [t] after each ['\n'];
    there is always a last piece, empty when [t] is empty or ends in
    ['\n']. *)
Fixpoint SplitAfter (t : Text) : list Text :=
  match t with
  | [] => [[]]
  | c :: r =>
      if Byte.eqb c NL then [c] :: SplitAfter r
      else match SplitAfter r with
           | [] => [[c]]
           | l :: ls => (c :: l) :: ls
           end
  end.

(** [splitLines(t)]. *)
Definition splitLines (t : Text) : outcome (list Text) :=
  let lines := SplitAfter t in
  l ← index lines (len lines - 1);
  if len l =? 0 then slice_to lines (len lines - 1) else Returns lines.

(** [text.Equal]. *)
Definition TextEqual (s t : Text) : bool := bool_decide (s = t).

(** [s[i] = x]. *)
Definition store {A} (s : list A) (i : Z) (x : A) : outcome (list A) :=
  if (0 <=? i) && (i <? len s) then Returns (<[Z.to_nat i := x]> s)
  else Panics IndexRange.

(** The diagonal loop [for x < M && y < N && text.Equal(a[x], b[y])];
    it makes at most [M - x] steps. *)
Fixpoint slide (fuel : nat) (a b : list Text) (x y : Z) : outcome (Z * Z) :=
  match fuel with
  | O => Returns (x, y)
  | S f =>
      if (x <? len a) && (y <? len b) then
        ax ← index a x; by_ ← index b y;
        if TextEqual ax by_ then slide f a b (x + 1) (y + 1) else Returns (x, y)
      else Returns (x, y)
  end.

(** The test [k == -d || (k != d && V[k-1+offset] < V[k+1+offset])]:
    does the path on diagonal [k] come down from diagonal [k+1]? *)
Definition goesDown (V : list Z) (offset d k : Z) : outcome bool :=
  if k =? - d then Returns true
  else if negb (k =? d) then
    l ← index V (k - 1 + offset); r ← index V (k + 1 + offset); Returns (l <? r)
  else Returns false.

(** The loop [for k := -d; k <= d; k += 2] of [shortestEditSequence], at
    most [d + 1] rounds: [inl V] when the end of both sequences is
    reached, [inr V] when the loop runs to its end. *)
Fixpoint kLoop (fuel : nat) (a b : list Text) (offset d k : Z) (V : list Z)
  : outcome (list Z + list Z) :=
  match fuel with
  | O => Returns (inr V)
  | S f =>
      if k <=? d then
        down ← goesDown V offset d k;
        x ← (if down : bool then index V (k + 1 + offset)
             else v ← index V (k - 1 + offset); Returns (v + 1));
        let y := x - k in
        '(x, y) ← slide (Z.to_nat (len a - x)) a b x y;
        V ← store V (k + offset) x;
        if (x =? len a) && (y =? len b) then Returns (inl V)
        else kLoop f a b offset d (k + 2) V
      else Returns (inr V)
  end.

(** The loop [for d := 0; d <= N+M; d++], at most [N + M + 1] rounds.
    Falling out of the loop returns [nil, 0]. *)
Fixpoint dLoop (fuel : nat) (a b : list Text) (offset d : Z) (V : list Z)
    (trace : list (list Z)) : outcome (list (list Z) * Z) :=
  match fuel with
  | O => Returns ([], 0)
  | S f =>
      if d <=? len a + len b then
        r ← kLoop (Z.to_nat (d + 1)) a b offset d (- d) V;
        match r with
        | inl V => trace ← store trace d V; Returns (trace, offset)
        | inr V => trace ← store trace d V; dLoop f a b offset (d + 1) V trace
        end
      else Returns ([], 0)
  end.

(** [shortestEditSequence(a, b)]. *)
Definition shortestEditSequence (a b : list Text) : outcome (list (list Z) * Z) :=
  let M := len a in
  let N := len b in
  let V := replicate (Z.to_nat (2 * (N + M) + 1)) 0 in
  let offset := N + M in
  let trace := replicate (Z.to_nat (N + M + 1)) [] in
  dLoop (Z.to_nat (N + M + 1)) a b offset 0 V trace.

(** The loop [for ; x > 0 && y > 0 && d > 0; d--] of [backtrack], at most
    [len(trace)] rounds. *)
Fixpoint backtrackLoop (fuel : nat) (trace : list (list Z)) (offset : Z)
    (x y d : Z) (snakes : list (list Z)) : outcome (list (list Z) * Z * Z * Z) :=
  match fuel with
  | O => Returns (snakes, x, y, d)
  | S f =>
      if (x >? 0) && (y >? 0) && (d >? 0) then
        V ← index trace d;
        if len V =? 0 then backtrackLoop f trace offset x y (d - 1) snakes
        else
          snakes ← store snakes d [x; y];
          let k := x - y in
          down ← goesDown V offset d k;
          let kPrev := if down : bool then k + 1 else k - 1 in
          x ← index V (kPrev + offset);
          let y := x - kPrev in
          backtrackLoop f trace offset x y (d - 1) snakes
      else Returns (snakes, x, y, d)
  end.

(** [backtrack(trace, x, y, offset)]. *)
Definition backtrack (trace : list (list Z)) (x y offset : Z) : outcome (list (list Z)) :=
  let snakes := replicate (length trace) [] in
  let d := len trace - 1 in
  '(snakes, x, y, d) ← backtrackLoop (length trace) trace offset x y d snakes;
  if (x <? 0) || (y <? 0) then Returns snakes
  else store snakes d [x; y].

(** [for snake[0]-snake[1] > x-y { ...; x++; if x == M { break } }]: the
    value of [x] afterwards. *)
Fixpoint deleteLoop (fuel : nat) (k x y M : Z) : Z :=
  match fuel with
  | O => x
  | S f =>
      if k >? x - y then
        let x := x + 1 in
        if x =? M then x else deleteLoop f k x y M
      else x
  end.

(** [for snake[0]-snake[1] < x-y { ...; y++ }]: the value of [y]
    afterwards. *)
Fixpoint insertLoop (fuel : nat) (k x y : Z) : Z :=
  match fuel with
  | O => y
  | S f => if k <? x - y then insertLoop f k x (y + 1) else y
  end.

(** [for x < snake[0] { x++; y++ }]. *)
Fixpoint equalLoop (fuel : nat) (s0 x y : Z) : Z * Z :=
  match fuel with
  | O => (x, y)
  | S f => if x <? s0 then equalLoop f s0 (x + 1) (y + 1) else (x, y)
  end.

(** The closure [add]: [solution] is the filled part [solution[:i]] of a
    slice with [M + N] elements. *)
Definition add (cap : Z) (solution : list Operation) (op : option Operation) (i2 j2 : Z)
  : outcome (list Operation) :=
  match op with
  | None => Returns solution
  | Some op =>
      let op := mkOp (Kind op) (Start op) i2 (ReplStart op)
                  (match Kind op with Insert => j2 | _ => ReplEnd op end) in
      if len solution <? cap then Returns (solution ++ [op]) else Panics IndexRange
  end.

(** The loop over the snakes in [Operations]: [solution[:i]], [x], [y]. *)
Fixpoint snakeLoop (snakes : list (list Z)) (M N : Z)
    (solution : list Operation) (x y : Z) : outcome (list Operation) :=
  match snakes with
  | [] => Returns solution
  | snake :: rest =>
      if len snake <? 2 then snakeLoop rest M N solution x y
      else
        s0 ← index snake 0; s1 ← index snake 1;
        let k := s0 - s1 in
        let op := if k >? x - y then Some (mkOp Delete x 0 y 0) else None in
        let x := deleteLoop (Z.to_nat (k - (x - y))) k x y M in
        solution ← add (M + N) solution op x y;
        let op := if k <? x - y then Some (mkOp Insert x 0 y 0) else None in
        let y := insertLoop (Z.to_nat ((x - y) - k)) k x y in
        solution ← add (M + N) solution op x y;
        let '(x, y) := equalLoop (Z.to_nat (s0 - x)) s0 x y in
        if (x >=? M) && (y >=? N) then Returns solution
        else snakeLoop rest M N solution x y
  end.

(** [Operations(a, b)]. *)
Definition Operations (a b : list Text) : outcome (list Operation) :=
  if (len a =? 0) && (len b =? 0) then Returns []
  else
    '(trace, offset) ← shortestEditSequence a b;
    snakes ← backtrack trace (len a) (len b) offset;
    snakeLoop snakes (len a) (len b) [] 0 0.

(** The table [lineOffsets]. *)
Fixpoint lineOffsetsFrom (lines : list Text) (total : Z) : list Z :=
  match lines with
  | [] => [total]
  | l :: r => total :: lineOffsetsFrom r (total + len l)
  end.

(** The loop over the operations in [ComputeEdits]. *)
Fixpoint editsLoop (ops : list Operation) (lineOffsets : list Z) (afterLines : list Text)
    (edits : list Edit) : outcome (list Edit) :=
  match ops with
  | [] => Returns edits
  | op :: rest =>
      start ← index lineOffsets (Start op);
      end_ ← index lineOffsets (End op);
      match Kind op with
      | Delete => editsLoop rest lineOffsets afterLines (edits ++ [mkEdit start end_ []])
      | Insert =>
          ls ← slice afterLines (ReplStart op) (ReplEnd op);
          let content := concat ls in
          if negb (len content =? 0)
          then editsLoop rest lineOffsets afterLines (edits ++ [mkEdit start end_ content])
          else editsLoop rest lineOffsets afterLines edits
      | Equal => editsLoop rest lineOffsets afterLines edits
      end
  end.

(** [ComputeEdits(before, after)]. *)
Definition ComputeEdits (before after : Text) : outcome (list Edit) :=
  beforeLines ← splitLines before;
  afterLines ← splitLines after;
  ops ← Operations beforeLines afterLines;
  let lineOffsets := lineOffsetsFrom beforeLines 0 in
  editsLoop ops lineOffsets afterLines [].

End Myers.

(** ** Paths in the edit graph *)

Section EditGraph.

Variables a b : list Text.

(** The lines [a[x]] and [b[y]] exist and are equal: a diagonal edge. *)
Definition eqAt (x y : Z) : Prop :=
  (0 <= x /\ x < len a) /\ (0 <= y /\ y < len b) /\
  a !! Z.to_nat x = b !! Z.to_nat y.

(** [reach d x y]: some path from [(0,0)] to [(x,y)] has exactly [d]
    horizontal or vertical edges.  (Horizontal and vertical edges exist
    everywhere, as in the loop, which lets [x] and [y] run past [M] and
    [N].) *)
Inductive reach : Z -> Z -> Z -> Prop :=
| reach_start : reach 0 0 0
| reach_diag d x y x' y' :
    reach d x y -> eqAt x y -> x' = x + 1 -> y' = y + 1 -> reach d x' y'
| reach_right d x y d' x' :
    reach d x y -> d' = d + 1 -> x' = x + 1 -> reach d' x' y
| reach_down d x y d' y' :
    reach d x y -> d' = d + 1 -> y' = y + 1 -> reach d' x y'.

(** A maximal run of diagonal edges on diagonal [k], from [x0] to [x]. *)
Definition snake (k x0 x : Z) : Prop :=
  x0 <= x /\ (forall i, x0 <= i < x -> eqAt i (i - k)) /\ ~ eqAt x (x - k).

(** [x] is the furthest that a path with [d] non-diagonal edges gets on
    diagonal [k]. *)
Definition furthest (d k x : Z) : Prop :=
  reach d x (x - k) /\ forall x', reach d x' (x' - k) -> x' <= x.

(** The diagonals that paths with [d] non-diagonal edges end on. *)
Definition diagonalOf (d k : Z) : Prop := exists j, 0 <= j <= d /\ k = d - 2 * j.

Lemma reach_facts d x y :
  reach d x y -> 0 <= x /\ 0 <= y /\ d <= x + y /\ diagonalOf d (x - y).
Proof.
  unfold diagonalOf.
  induction 1 as [| d x y x' y' _ (? & ? & ? & j & ? & ?) _ -> ->
                  | d x y d' x' _ (? & ? & ? & j & ? & ?) -> ->
                  | d x y d' y' _ (? & ? & ? & j & ? & ?) -> ->].
  - split_and!; try lia. exists 0. lia.
  - split_and!; try lia. exists j. lia.
  - split_and!; try lia. exists j. lia.
  - split_and!; try lia. exists (j + 1). lia.
Qed.

Lemma reach_snake d k x0 x :
  reach d x0 (x0 - k) -> snake k x0 x -> reach d x (x - k).
Proof.
  intros Hr (Hle & Heq & _).
  assert (H : forall n : nat, forall x1, x1 = x0 + Z.of_nat n -> x1 <= x -> reach d x1 (x1 - k)).
  { induction n as [|n IH]; intros x1 -> Hx1.
    - by replace (x0 + Z.of_nat 0) with x0 by lia.
    - apply (reach_diag d (x0 + Z.of_nat n) (x0 + Z.of_nat n - k)); [| | lia | lia].
      + apply IH; lia.
      + apply Heq. lia. }
  apply (H (Z.to_nat (x - x0))); lia.
Qed.

(** Depth 0: the snake from the origin. *)
Lemma greedy_base x : snake 0 0 x -> furthest 0 0 x.
Proof.
  intros Hs. split; [apply (reach_snake 0 0 0 x); [apply reach_start | done] |].
  destruct Hs as (Hle & Heq & Hmax).
  assert (H : forall d x' y', reach d x' y' -> d = 0 -> x' = y' /\ x' <= x).
  { induction 1 as [| d x1 y1 x' y' Hr IH He -> -> | d x1 y1 d' x' Hr IH -> ->
                    | d x1 y1 d' y' Hr IH -> ->]; intros Hd.
    - lia.
    - destruct (IH Hd) as [-> Hx]. split; [lia |].
      destruct (decide (y1 = x)) as [-> | ?]; [| lia].
      exfalso. apply Hmax. by replace (x - 0) with x by lia.
    - apply reach_facts in Hr as (_ & _ & _ & j & ? & ?). lia.
    - apply reach_facts in Hr as (_ & _ & _ & j & ? & ?). lia. }
  intros x' Hr. by apply (H 0 x' (x' - 0)).
Qed.

(** The choice of the loop between coming down from diagonal [k+1] (at
    [vr]) and coming right from diagonal [k-1] (at [vl]). *)
Definition landing (d k vl vr : Z) : Z :=
  if (k =? - d) || (negb (k =? d) && (vl <? vr)) then vr else vl + 1.

(** One step of the greedy algorithm: from the furthest points of depth
    [d - 1] on the two neighbouring diagonals to the furthest point of depth
    [d] on diagonal [k]. *)
Lemma greedy_step d k vl vr x :
  1 <= d -> diagonalOf d k ->
  (k <> - d -> furthest (d - 1) (k - 1) vl) ->
  (k <> d -> furthest (d - 1) (k + 1) vr) ->
  snake k (landing d k vl vr) x ->
  furthest d k x.
Proof.
  intros Hd (j & Hj & Hk) Hl Hr Hs. unfold landing in Hs.
  split.
  - eapply reach_snake; [| exact Hs].
    destruct ((k =? - d) || (negb (k =? d) && (vl <? vr))) eqn:Hc.
    + assert (k <> d).
      { apply orb_true_iff in Hc as [?%Z.eqb_eq | [?%negb_true_iff%Z.eqb_neq _]%andb_true_iff]; lia. }
      destruct (Hr ltac:(done)) as [Hreach _].
      apply (reach_down (d - 1) vr (vr - (k + 1))); [done | lia | lia].
    + assert (k <> - d).
      { apply orb_false_iff in Hc as [?%Z.eqb_neq _]. done. }
      destruct (Hl ltac:(done)) as [Hreach _].
      replace (vl + 1 - k) with (vl - (k - 1)) by lia.
      apply (reach_right (d - 1) vl (vl - (k - 1))); [done | lia | lia].
  - destruct Hs as (Hle & Heq & Hmax).
    assert (H : forall d1 x' y', reach d1 x' y' -> d1 = d -> x' - y' = k -> x' <= x).
    { induction 1 as [| d1 x1 y1 x' y' Hreach IH He -> -> | d0 x1 y1 d1 x' Hreach IH -> ->
                      | d0 x1 y1 d1 y' Hreach IH -> ->]; intros Hd1 Hdiag.
      - lia.
      - specialize (IH Hd1 ltac:(lia)).
        destruct (decide (x1 = x)) as [-> | ?]; [| lia].
        exfalso. apply Hmax. by replace (x - k) with y1 by lia.
      - (* the last edge is horizontal, from diagonal k - 1 *)
        pose proof (reach_facts _ _ _ Hreach) as (_ & _ & _ & j0 & ? & ?).
        assert (Hkd : k <> - d) by lia.
        destruct (Hl Hkd) as [_ Hmaxl].
        assert (x1 <= vl).
        { apply Hmaxl. replace (d - 1) with d0 by lia.
          by replace (x1 - (k - 1)) with y1 by lia. }
        destruct ((k =? - d) || (negb (k =? d) && (vl <? vr))) eqn:Hc; [| lia].
        apply orb_true_iff in Hc as [?%Z.eqb_eq | [_ ?%Z.ltb_lt]%andb_true_iff]; lia.
      - (* the last edge is vertical, from diagonal k + 1 *)
        pose proof (reach_facts _ _ _ Hreach) as (_ & _ & _ & j0 & ? & ?).
        assert (Hkd : k <> d) by lia.
        destruct (Hr Hkd) as [_ Hmaxr].
        assert (x1 <= vr).
        { apply Hmaxr. replace (d - 1) with d0 by lia.
          by replace (x1 - (k + 1)) with y1 by lia. }
        destruct ((k =? - d) || (negb (k =? d) && (vl <? vr))) eqn:Hc; [lia |].
        apply orb_false_iff in Hc as [_ Hc]. apply andb_false_iff in Hc as [Hc | Hc].
        + apply negb_false_iff, Z.eqb_eq in Hc. lia.
        + apply Z.ltb_ge in Hc. lia. }
    intros x' Hreach. by apply (H d x' (x' - k)); [| | lia].
Qed.

(** Edges that leave the grid can be dropped from a path. *)
Lemma reach_clamp d x y :
  reach d x y ->
  exists d', reach d' (Z.min x (len a)) (Z.min y (len b)) /\
             d' + (x - Z.min x (len a)) + (y - Z.min y (len b)) <= d.
Proof.
  pose proof (len_nonneg a). pose proof (len_nonneg b).
  induction 1 as [| d x y x' y' Hreach (d1 & IH & ?) ((? & ?) & (? & ?) & ?) -> ->
                  | d x y d' x' Hreach (d1 & IH & ?) -> ->
                  | d x y d' y' Hreach (d1 & IH & ?) -> ->].
  - exists 0. rewrite !Z.min_l by lia. split; [apply reach_start | lia].
  - exists d1. rewrite !Z.min_l in * by lia. split; [| lia].
    apply (reach_diag d1 x y); done.
  - destruct (decide (x < len a)).
    + exists (d1 + 1). rewrite (Z.min_l (x + 1)), (Z.min_l x) in * by lia. split; [| lia].
      apply (reach_right d1 x (Z.min y (len b))); done.
    + exists d1. rewrite (Z.min_r (x + 1)), (Z.min_r x) in * by lia. split; [done | lia].
  - destruct (decide (y < len b)).
    + exists (d1 + 1). rewrite (Z.min_l (y + 1)), (Z.min_l y) in * by lia. split; [| lia].
      apply (reach_down d1 (Z.min x (len a)) y); done.
    + exists d1. rewrite (Z.min_r (y + 1)), (Z.min_r y) in * by lia. split; [done | lia].
Qed.

(** The whole of [a] can be deleted and the whole of [b] inserted. *)
Lemma reach_trivial : reach (len a + len b) (len a) (len b).
Proof.
  assert (Hx : forall n : nat, reach (Z.of_nat n) (Z.of_nat n) 0).
  { induction n as [|n IH]; [apply reach_start |].
    apply (reach_right (Z.of_nat n) (Z.of_nat n) 0); [done | lia | lia]. }
  assert (Hy : forall n : nat, reach (len a + Z.of_nat n) (len a) (Z.of_nat n)).
  { induction n as [|n IH].
    - replace (len a + Z.of_nat 0) with (len a) by lia. apply Hx.
    - apply (reach_down (len a + Z.of_nat n) (len a) (Z.of_nat n)); [done | lia | lia]. }
  apply Hy.
Qed.

(** When the loop passes diagonal [M - N] at depth [d] without reaching
    the end, and no shorter path reaches the end, no path of depth [d] does. *)
Lemma no_hit_no_reach d x :
  furthest d (len a - len b) x -> x <> len a ->
  (forall d', d' < d -> ~ reach d' (len a) (len b)) ->
  ~ reach d (len a) (len b).
Proof.
  intros [Hreach Hmax] Hne Hmin Hend.
  assert (len a <= x).
  { apply Hmax. by replace (len a - (len a - len b)) with (len b) by lia. }
  destruct (reach_clamp _ _ _ Hreach) as (d' & Hr' & Hd').
  rewrite !Z.min_r in * by lia.
  apply (Hmin d'); [lia | done].
Qed.

End EditGraph.

(** ** The forward pass of Myers' algorithm *)

Lemma index_Returns {A} (dflt : A) (s : list A) i :
  0 <= i < len s -> index s i = Returns (default dflt (s !! Z.to_nat i)).
Proof.
  intros Hi. destruct (index_ok s i Hi) as (x & -> & ->). done.
Qed.

Lemma store_Returns {A} (s : list A) i x :
  0 <= i < len s -> Myers.store s i x = Returns (<[Z.to_nat i := x]> s).
Proof.
  intros [H0 Hl]. unfold Myers.store.
  apply Z.leb_le in H0. apply Z.ltb_lt in Hl. by rewrite H0, Hl.
Qed.

Lemma len_insert {A} (s : list A) i x : len (<[i := x]> s) = len s.
Proof. unfold len. by rewrite length_insert. Qed.

Lemma len_replicate {A} n (x : A) : 0 <= n -> len (replicate (Z.to_nat n) x) = n.
Proof. intros. unfold len. rewrite length_replicate. lia. Qed.

Section MyersRun.

Variables a b : list Text.

(** [offset], the index of diagonal 0 in [V]. *)
Let off : Z := len b + len a.

(** [V[k+offset]]. *)
Definition val (V : list Z) (k : Z) : Z := default 0 (V !! Z.to_nat (k + off)).

Lemma val_insert V k x k' :
  0 <= k + off < len V -> 0 <= k' + off ->
  val (<[Z.to_nat (k + off) := x]> V) k' = if decide (k' = k) then x else val V k'.
Proof.
  intros Hk Hk'. unfold val. destruct (decide (k' = k)) as [-> | Hne].
  - rewrite list_lookup_insert_eq; [done |]. unfold len in Hk. lia.
  - rewrite list_lookup_insert_ne; [done | lia].
Qed.

Lemma slide_spec fuel : forall x y,
  0 <= x -> 0 <= y -> len a - x <= Z.of_nat fuel ->
  exists x', Myers.slide fuel a b x y = Returns (x', x' - (x - y)) /\
             snake a b (x - y) x x'.
Proof.
  induction fuel as [|fuel IH]; intros x y Hx Hy Hfuel.
  - exists x. split; [simpl; do 2 f_equal; lia |].
    split; [lia |]. split; [intros; lia |]. intros [[_ ?] _]. lia.
  - cbn [Myers.slide]. destruct ((x <? len a) && (y <? len b)) eqn:Hin.
    + apply andb_true_iff in Hin as [Hxa%Z.ltb_lt Hyb%Z.ltb_lt].
      destruct (index_ok a x) as (ax & -> & Hax); [lia |].
      destruct (index_ok b y) as (by_ & -> & Hby); [lia |].
      cbn [mbind outcome_bind]. unfold Myers.TextEqual.
      destruct (bool_decide (ax = by_)) eqn:Heq.
      * apply bool_decide_eq_true in Heq as ->.
        destruct (IH (x + 1) (y + 1)) as (x' & -> & Hle & Hall & Hmax); [lia | lia | lia |].
        replace (x + 1 - (y + 1)) with (x - y) in * by lia.
        exists x'. split; [done |]. split; [lia |]. split; [| done].
        intros i Hi. destruct (decide (i = x)) as [-> | ?]; [| apply Hall; lia].
        replace (x - (x - y)) with y by lia. unfold eqAt. rewrite Hax, Hby. split_and!; (lia || done).
      * apply bool_decide_eq_false in Heq.
        exists x. split; [do 2 f_equal; lia |].
        split; [lia |]. split; [intros; lia |].
        replace (x - (x - y)) with y by lia. intros (_ & _ & He).
        rewrite Hax, Hby in He. congruence.
    + exists x. split; [do 2 f_equal; lia |].
      split; [lia |]. split; [intros; lia |].
      replace (x - (x - y)) with y by lia. intros ((_ & ?) & (_ & ?) & _).
      apply andb_false_iff in Hin as [?%Z.ltb_ge | ?%Z.ltb_ge]; lia.
Qed.

(** The previous depth, as far as depth [d] reads it: the furthest points
    of depth [d - 1], or the zero of the fresh array at depth 0. *)
Definition prevOK (d : Z) (V : list Z) : Prop :=
  if decide (d = 0) then val V 1 = 0
  else forall k, diagonalOf (d - 1) k -> furthest a b (d - 1) k (val V k).

(** The diagonals below [k] that depth [d] has been through: [V] holds
    their furthest points, each the end of the snake from where the loop
    landed. *)
Definition curOK (d k : Z) (V : list Z) : Prop :=
  forall k', diagonalOf d k' -> k' < k ->
    furthest a b d k' (val V k') /\
    snake a b k' (landing d k' (val V (k' - 1)) (val V (k' + 1))) (val V k').

Lemma goesDown_eq V d k :
  1 <= off -> 0 <= d <= off -> len V = 2 * off + 1 -> diagonalOf d k ->
  Myers.goesDown V off d k =
    Returns ((k =? - d) || (negb (k =? d) && (val V (k - 1) <? val V (k + 1)))).
Proof.
  intros Hoff Hd HV (j & Hj & Hk). unfold Myers.goesDown.
  destruct (k =? - d) eqn:H1; [done |]. apply Z.eqb_neq in H1.
  destruct (k =? d) eqn:H2; [done |]. apply Z.eqb_neq in H2.
  cbn [negb orb andb].
  rewrite (index_Returns 0 V (k - 1 + off)), (index_Returns 0 V (k + 1 + off)) by lia.
  done.
Qed.

Lemma landing_eq V d k :
  1 <= off -> 0 <= d <= off -> len V = 2 * off + 1 -> diagonalOf d k ->
  (if (k =? - d) || (negb (k =? d) && (val V (k - 1) <? val V (k + 1)))
   then index V (k + 1 + off)
   else v ← index V (k - 1 + off); Returns (v + 1)) =
  Returns (landing d k (val V (k - 1)) (val V (k + 1))).
Proof.
  intros Hoff Hd HV (j & Hj & Hk). unfold landing.
  destruct ((k =? - d) || (negb (k =? d) && (val V (k - 1) <? val V (k + 1)))) eqn:Hc.
  - rewrite (index_Returns 0 V (k + 1 + off)); [done |].
    apply orb_true_iff in Hc as [?%Z.eqb_eq | [?%negb_true_iff%Z.eqb_neq _]%andb_true_iff]; lia.
  - rewrite (index_Returns 0 V (k - 1 + off)); [done |].
    apply orb_false_iff in Hc as [?%Z.eqb_neq _]. lia.
Qed.

(** Where the loop lands is a point of the first quadrant, and the snake
    from there ends at the furthest point of the diagonal. *)
Lemma landing_furthest V d k x :
  0 <= d -> diagonalOf d k -> prevOK d V ->
  let x0 := landing d k (val V (k - 1)) (val V (k + 1)) in
  (0 <= x0 /\ 0 <= x0 - k) /\ (snake a b k x0 x -> furthest a b d k x).
Proof.
  intros Hd Hdiag Hprev x0. pose proof Hdiag as (j & Hj & Hk).
  unfold prevOK in Hprev. destruct (decide (d = 0)) as [-> | Hne].
  - assert (k = 0) as -> by lia.
    assert (x0 = 0) as -> by (subst x0; exact Hprev).
    split; [lia |]. apply greedy_base.
  - assert (Hl : k <> - d -> furthest a b (d - 1) (k - 1) (val V (k - 1))).
    { intros ?. apply Hprev. exists j. lia. }
    assert (Hr : k <> d -> furthest a b (d - 1) (k + 1) (val V (k + 1))).
    { intros ?. apply Hprev. exists (j - 1). lia. }
    split; [| apply (greedy_step a b d k); (done || lia)].
    subst x0. unfold landing.
    destruct ((k =? - d) || (negb (k =? d) && (val V (k - 1) <? val V (k + 1)))) eqn:Hc.
    + assert (k <> d).
      { apply orb_true_iff in Hc as [?%Z.eqb_eq | [?%negb_true_iff%Z.eqb_neq _]%andb_true_iff]; lia. }
      destruct (Hr ltac:(done)) as [Hreach _]. apply reach_facts in Hreach. lia.
    + assert (k <> - d) by (apply orb_false_iff in Hc as [?%Z.eqb_neq _]; done).
      destruct (Hl ltac:(done)) as [Hreach _]. apply reach_facts in Hreach. lia.
Qed.

Lemma prevOK_ext d V V' :
  0 <= d <= off -> 1 <= off ->
  (forall k', ~ diagonalOf d k' -> 0 <= k' + off -> val V' k' = val V k') ->
  prevOK d V -> prevOK d V'.
Proof.
  intros Hd Hoff Hext. unfold prevOK. destruct (decide (d = 0)) as [-> | Hne].
  - intros <-. apply Hext; [| lia]. intros (j & ? & ?). lia.
  - intros Hp k Hk. rewrite Hext; [by apply Hp | | destruct Hk as (j & ? & ?); lia].
    destruct Hk as (j & ? & ?). intros (j' & ? & ?). lia.
Qed.

Lemma landing_cong d k vl vr vl' vr' :
  (k <> - d -> vl = vl') -> vr = vr' ->
  landing d k vl vr = landing d k vl' vr'.
Proof.
  intros Hl <-. unfold landing.
  destruct (Z.eqb_spec k (- d)) as [? | Hnd]; [done |].
  by rewrite <- (Hl Hnd).
Qed.

Lemma curOK_insert d k V x :
  0 <= d <= off -> len V = 2 * off + 1 -> diagonalOf d k ->
  curOK d k V ->
  furthest a b d k x ->
  snake a b k (landing d k (val V (k - 1)) (val V (k + 1))) x ->
  curOK d (k + 2) (<[Z.to_nat (k + off) := x]> V).
Proof.
  intros Hd HV (j & Hj & Hk) Hcur Hfur Hsn k' (j' & Hj' & Hk') Hlt.
  rewrite (landing_cong d k' _ _ (val V (k' - 1)) (val V (k' + 1))).
  - rewrite val_insert by lia.
    destruct (decide (k' = k)) as [-> | Hne]; [done |].
    apply Hcur; [by exists j' | lia].
  - intros ?. rewrite val_insert by lia. apply decide_False. lia.
  - rewrite val_insert by lia. apply decide_False. lia.
Qed.

(** The hit test of the loop. *)
Definition atEnd (V : list Z) (k : Z) : Prop :=
  val V k = len a /\ val V k - k = len b.

(** One depth of the forward pass. *)
Lemma kLoop_spec fuel : forall d k V,
  1 <= off -> 0 <= d <= off -> len V = 2 * off + 1 ->
  (exists i, 0 <= i <= d + 1 /\ k = - d + 2 * i) ->
  d - k + 2 <= 2 * Z.of_nat fuel ->
  prevOK d V -> curOK d k V ->
  (forall k', diagonalOf d k' -> k' < k -> ~ atEnd V k') ->
  exists V', len V' = 2 * off + 1 /\
    (forall k', ~ diagonalOf d k' -> 0 <= k' + off -> val V' k' = val V k') /\
    ((Myers.kLoop fuel a b off d k V = Returns (inr V') /\
      curOK d (d + 2) V' /\ (forall k', diagonalOf d k' -> ~ atEnd V' k')) \/
     (exists kh, Myers.kLoop fuel a b off d k V = Returns (inl V') /\
        diagonalOf d kh /\ curOK d (kh + 2) V' /\ atEnd V' kh)).
Proof.
  induction fuel as [|fuel IH]; intros d k V Hoff Hd HV (i & Hi & Hk) Hfuel Hprev Hcur Hno.
  { exists V. split; [done |]. split; [done |]. left. split; [done |].
    assert (k = d + 2) as -> by lia. split; [done |].
    intros k' Hk'. apply Hno; [done |]. destruct Hk' as (j & ? & ?). lia. }
  cbn [Myers.kLoop]. destruct (k <=? d) eqn:Hkd.
  2:{ apply Z.leb_gt in Hkd. exists V. split; [done |]. split; [done |]. left. split; [done |].
      assert (k = d + 2) as -> by lia. split; [done |].
      intros k' Hk'. apply Hno; [done |]. destruct Hk' as (j & ? & ?). lia. }
  apply Z.leb_le in Hkd.
  assert (Hdiag : diagonalOf d k) by (exists (d - i); lia).
  rewrite goesDown_eq by done. cbn [mbind outcome_bind].
  rewrite landing_eq by done. cbn [mbind outcome_bind].
  destruct (landing_furthest V d k) with (x := 0) as [[Hx0 Hy0] _]; [lia | done | done |].
  set (x0 := landing d k (val V (k - 1)) (val V (k + 1))) in *.
  destruct (slide_spec (Z.to_nat (len a - x0)) x0 (x0 - k)) as (x & -> & Hsnake);
    [lia | lia | lia |].
  replace (x0 - (x0 - k)) with k in * by lia.
  cbn [mbind outcome_bind].
  rewrite store_Returns by lia. cbn [mbind outcome_bind].
  destruct (landing_furthest V d k x) as [_ Hfur]; [lia | done | done |].
  specialize (Hfur Hsnake).
  set (V1 := <[Z.to_nat (k + off) := x]> V).
  assert (HV1 : len V1 = 2 * off + 1) by (subst V1; by rewrite len_insert).
  assert (Hext1 : forall k', ~ diagonalOf d k' -> 0 <= k' + off -> val V1 k' = val V k').
  { intros k' Hnd ?. subst V1. rewrite val_insert by lia.
    destruct (decide (k' = k)) as [-> | ?]; [done | done]. }
  assert (Hcur1 : curOK d (k + 2) V1) by (by apply curOK_insert).
  assert (Hvk : val V1 k = x).
  { subst V1. rewrite val_insert by lia. by rewrite decide_True. }
  destruct ((x =? len a) && (x - k =? len b)) eqn:Hhit.
  - apply andb_true_iff in Hhit as [?%Z.eqb_eq ?%Z.eqb_eq].
    exists V1. split; [done |]. split; [done |]. right. exists k.
    split; [done |]. split; [done |]. split; [done |]. unfold atEnd. rewrite Hvk. done.
  - destruct (IH d (k + 2) V1) as (V' & HV' & Hext & Hres); try done.
    + exists (i + 1). lia.
    + lia.
    + by apply (prevOK_ext d V).
    + intros k' Hk' Hlt. destruct (decide (k' = k)) as [-> | Hne].
      * unfold atEnd. rewrite Hvk. intros [? ?].
        apply andb_false_iff in Hhit as [?%Z.eqb_neq | ?%Z.eqb_neq]; lia.
      * unfold atEnd. subst V1. rewrite val_insert by (destruct Hk' as (j & ? & ?); lia).
        rewrite decide_False by done. apply Hno; [done |].
        destruct Hk' as (j & ? & ?). lia.
    + exists V'. split; [done |]. split; [| done].
      intros k' Hnd ?. rewrite Hext by done. by apply Hext1.
Qed.

(** The snapshot [T] that [trace] keeps of depth [i]: complete, and its
    furthest points are still there in the next snapshot. *)
Definition snapOK (i : Z) (T Tnext : list Z) : Prop :=
  len T = 2 * off + 1 /\ curOK i (i + 2) T /\
  (forall k, diagonalOf i k -> val Tnext k = val T k).

(** The snapshots of the depths [i], [i+1], ..., the last one followed by
    [V]. *)
Fixpoint snapsOK (i : Z) (snaps : list (list Z)) (V : list Z) : Prop :=
  match snaps with
  | [] => True
  | T :: rest => snapOK i T (hd V rest) /\ snapsOK (i + 1) rest V
  end.

Lemma snapsOK_relink snaps : forall i V V',
  snapsOK i snaps V ->
  (forall k, diagonalOf (i + len snaps - 1) k -> val V' k = val V k) ->
  snapsOK i snaps V'.
Proof.
  induction snaps as [|T rest IH]; intros i V V' Hs Hlink; [done |].
  destruct Hs as [(HT & Hcur & Hnext) Hs]. rewrite len_cons in Hlink. split.
  - split; [done |]. split; [done |]. destruct rest as [|T' rest]; [| done].
    simpl in *. intros k Hk. rewrite Hlink; [by apply Hnext |].
    rewrite len_nil. by replace (i + (1 + 0) - 1) with i by lia.
  - apply (IH (i + 1) V V' Hs). intros k Hk. apply Hlink.
    by replace (i + (1 + len rest) - 1) with (i + 1 + len rest - 1) by lia.
Qed.

Lemma snapsOK_snoc snaps : forall i V T,
  snapsOK i snaps V ->
  (forall k, diagonalOf (i + len snaps - 1) k -> val T k = val V k) ->
  snapOK (i + len snaps) T T ->
  snapsOK i (snaps ++ [T]) T.
Proof.
  induction snaps as [|T0 rest IH]; intros i V T Hs Hlink HT.
  - rewrite len_nil, Z.add_0_r in HT. simpl. done.
  - destruct Hs as [(HT0 & Hcur & Hnext) Hs]. rewrite len_cons in Hlink, HT.
    cbn [app snapsOK]. split.
    + split; [done |]. split; [done |]. destruct rest as [|T' rest]; [| done].
      simpl in *. intros k Hk. rewrite Hlink; [by apply Hnext |].
      rewrite len_nil. by replace (i + (1 + 0) - 1) with i by lia.
    + apply (IH (i + 1) V T Hs).
      * intros k Hk. apply Hlink.
        by replace (i + (1 + len rest) - 1) with (i + 1 + len rest - 1) by lia.
      * by replace (i + 1 + len rest) with (i + (1 + len rest)) by lia.
Qed.

Lemma store_trace (snaps : list (list Z)) d n T :
  len snaps = d -> 0 < n ->
  Myers.store (snaps ++ replicate (Z.to_nat n) []) d T =
    Returns (snaps ++ T :: replicate (Z.to_nat (n - 1)) []).
Proof.
  intros Hd Hn. pose proof (len_nonneg snaps).
  rewrite store_Returns by (rewrite len_app, len_replicate; lia).
  f_equal. unfold len in Hd.
  rewrite insert_app_r_alt by lia.
  replace (Z.to_nat d - length snaps)%nat with 0%nat by lia.
  replace (Z.to_nat n) with (S (Z.to_nat (n - 1))) by lia. done.
Qed.

Lemma off_eq : off = len b + len a.
Proof. reflexivity. Qed.

#[local] Ltac off_lia := (pose proof off_eq; lia).

(** The forward pass reaches the end of both sequences at some depth [D],
    and [trace] holds the snapshots of the depths up to [D]. *)
Lemma dLoop_spec fuel : forall d V snaps,
  1 <= off -> 0 <= d -> d + Z.of_nat fuel = off + 1 ->
  len V = 2 * off + 1 -> prevOK d V ->
  len snaps = d -> snapsOK 0 snaps V ->
  (forall d', d' < d -> ~ reach a b d' (len a) (len b)) ->
  exists D snaps' T,
    Myers.dLoop fuel a b off d V (snaps ++ replicate (Z.to_nat (off + 1 - d)) []) =
      Returns (snaps' ++ T :: replicate (Z.to_nat (off - D)) [], off) /\
    d <= D <= off /\ len snaps' = D /\ snapsOK 0 snaps' T /\
    len T = 2 * off + 1 /\ diagonalOf D (len a - len b) /\
    curOK D (len a - len b + 2) T /\ val T (len a - len b) = len a /\
    (forall d', d' < D -> ~ reach a b d' (len a) (len b)).
Proof.
  induction fuel as [|fuel IH]; intros d V snaps Hoff Hd Hfuel HV Hprev Hlen Hsnaps Hmin.
  { exfalso. apply (Hmin (len a + len b)); [off_lia | apply reach_trivial]. }
  cbn [Myers.dLoop].
  assert (Hdle : (d <=? len a + len b) = true) by (apply Z.leb_le; off_lia).
  rewrite Hdle.
  destruct (kLoop_spec (Z.to_nat (d + 1)) d (- d) V) as (V' & HV' & Hext & Hres); try done.
  { off_lia. }
  { exists 0. lia. }
  { lia. }
  { intros k' (j & ? & ?) ?. lia. }
  { intros k' (j & ? & ?) ?. lia. }
  assert (Hlink : forall k, diagonalOf (0 + len snaps - 1) k -> val V' k = val V k).
  { intros k (j & ? & ?). apply Hext; [| off_lia]. intros (j' & ? & ?). lia. }
  destruct Hres as [(-> & Hcur & Hno) | (kh & -> & Hdiag & Hcur & [Hend1 Hend2])];
    cbn [mbind outcome_bind]; rewrite store_trace by (done || off_lia);
    cbn [mbind outcome_bind].
  - destruct (IH (d + 1) V' (snaps ++ [V'])) as (D & snaps' & T & Hrun & ? & ? & ? & ? & ? & ? & ? & ?);
      try done; try lia.
    + unfold prevOK. rewrite decide_False by lia. intros k Hk.
      replace (d + 1 - 1) with d in * by lia.
      apply Hcur; [done | destruct Hk as (j & ? & ?); lia].
    + rewrite len_app, len_cons, len_nil. lia.
    + apply (snapsOK_snoc snaps 0 V V'); [done | done |].
      rewrite Hlen. split; [done |]. split; [| done]. by replace (0 + d + 2) with (d + 2) by lia.
    + intros d' Hd'. destruct (decide (d' = d)) as [-> | ?]; [| apply Hmin; lia].
      intros Hreach. pose proof (reach_facts _ _ _ _ _ Hreach) as (_ & _ & _ & Hdg).
      destruct (Hcur (len a - len b) Hdg) as [Hfur _]; [destruct Hdg as (j & ? & ?); lia |].
      revert Hreach. apply (no_hit_no_reach a b d _ Hfur); [| done].
      intros Heq. apply (Hno _ Hdg). split; [done | lia].
    + exists D, snaps', T. rewrite <- app_assoc in Hrun. cbn [app] in Hrun.
      replace (off + 1 - d - 1) with (off + 1 - (d + 1)) by lia.
      split; [done |]. split_and!; (done || lia).
  - assert (kh = len a - len b) as -> by lia.
    exists d, snaps, V'. replace (off + 1 - d - 1) with (off - d) by lia.
    split; [done |]. split; [off_lia |]. split; [done |].
    split; [by apply (snapsOK_relink snaps 0 V) |]. done.
Qed.

Lemma shortestEditSequence_spec :
  1 <= off ->
  exists D snaps T,
    Myers.shortestEditSequence a b =
      Returns (snaps ++ T :: replicate (Z.to_nat (off - D)) [], off) /\
    0 <= D <= off /\ len snaps = D /\ snapsOK 0 snaps T /\
    len T = 2 * off + 1 /\ diagonalOf D (len a - len b) /\
    curOK D (len a - len b + 2) T /\ val T (len a - len b) = len a /\
    (forall d', d' < D -> ~ reach a b d' (len a) (len b)).
Proof.
  intros Hoff. unfold Myers.shortestEditSequence. fold off.
  destruct (dLoop_spec (Z.to_nat (off + 1)) 0 (replicate (Z.to_nat (2 * off + 1)) 0) [])
    as (D & snaps & T & Hrun & ?); try done; try lia.
  - rewrite len_replicate; lia.
  - unfold prevOK. rewrite decide_True by done. unfold val.
    rewrite lookup_replicate_2; [done | lia].
  - intros d' ? Hreach. apply reach_facts in Hreach as (_ & _ & _ & j & ? & ?). lia.
  - exists D, snaps, T. cbn [app] in Hrun. replace (off + 1 - 0) with (off + 1) in Hrun by lia.
    done.
Qed.

(** ** Backtracking *)

(** A move to the right or down as far as diagonal [x2 - y2], then
    diagonal edges up to [(x2, y2)]. *)
Definition hop (x y x2 y2 : Z) : Prop :=
  let x0 := x + Z.max 0 ((x2 - y2) - (x - y)) in
  x0 <= x2 /\ y <= y2 /\ forall i, x0 <= i < x2 -> eqAt a b i (i - (x2 - y2)).

(** The points of a path, each a hop from the one before, ending at the
    end of both sequences. *)
Fixpoint pathOK (x y : Z) (pts : list (Z * Z)) : Prop :=
  match pts with
  | [] => x = len a /\ y = len b
  | (x2, y2) :: rest => hop x y x2 y2 /\ pathOK x2 y2 rest
  end.

Lemma hop_le x y x2 y2 : hop x y x2 y2 -> x <= x2 /\ y <= y2.
Proof. unfold hop. lia. Qed.

Lemma pathOK_le pts : forall x y, pathOK x y pts -> x <= len a /\ y <= len b.
Proof.
  induction pts as [|[x2 y2] rest IH]; intros x y; simpl; [lia |].
  intros [Hh Hp]. apply hop_le in Hh. apply IH in Hp. lia.
Qed.

(** The number of diagonals crossed along a path: the horizontal and
    vertical edges of its hops. *)
Fixpoint turns (x y : Z) (pts : list (Z * Z)) : Z :=
  match pts with
  | [] => 0
  | (x2, y2) :: rest => Z.abs ((x2 - y2) - (x - y)) + turns x2 y2 rest
  end.

Lemma turns_end pts : pathOK (len a) (len b) pts -> turns (len a) (len b) pts = 0.
Proof.
  assert (H : forall pts x y, x = len a -> y = len b -> pathOK x y pts -> turns x y pts = 0).
  { clear pts. induction pts as [|[x2 y2] rest IH]; intros x y Hx Hy Hp; [done |].
    destruct Hp as [Hh Hp]. pose proof (hop_le _ _ _ _ Hh). pose proof (pathOK_le _ _ _ Hp).
    cbn [turns]. rewrite (IH x2 y2) by (done || lia). lia. }
  by apply H.
Qed.

(** A snake as a slice of two ints. *)
Definition pt (p : Z * Z) : list Z := [p.1; p.2].

Lemma snapsOK_at snaps : forall i V n Tn,
  snapsOK i snaps V -> snaps !! n = Some Tn ->
  len Tn = 2 * off + 1 /\ curOK (i + Z.of_nat n) (i + Z.of_nat n + 2) Tn /\
  forall Tnext, (snaps ++ [V]) !! S n = Some Tnext ->
    forall k, diagonalOf (i + Z.of_nat n) k -> val Tnext k = val Tn k.
Proof.
  induction snaps as [|T0 rest IH]; intros i V n Tn Hs Hn; [done |].
  destruct Hs as [(HT0 & Hcur & Hnext) Hs]. destruct n as [|n]; simpl in Hn.
  - injection Hn as <-. rewrite Z.add_0_r. split; [done |]. split; [done |].
    intros Tnext HTn. simpl in HTn. destruct rest as [|T1 rest]; simpl in *.
    + by injection HTn as <-.
    + by injection HTn as <-.
  - destruct (IH (i + 1) V n Tn Hs Hn) as (? & ? & Hlink).
    replace (i + Z.of_nat (S n)) with (i + 1 + Z.of_nat n) by lia. done.
Qed.

Lemma reach_0_diag d x y :
  reach a b d x y -> d = 0 -> x = y /\ forall i, 0 <= i < x -> eqAt a b i i.
Proof.
  induction 1 as [| d x y x' y' Hr IH He -> -> | d x y d' x' Hr IH -> ->
                  | d x y d' y' Hr IH -> ->]; intros Hd.
  - split; [done | intros; lia].
  - destruct (IH Hd) as [-> Hall]. split; [done |].
    intros i Hi. destruct (decide (i = y)) as [-> | ?]; [done | apply Hall; lia].
  - apply reach_facts in Hr as (_ & _ & _ & j & ? & ?). lia.
  - apply reach_facts in Hr as (_ & _ & _ & j & ? & ?). lia.
Qed.

Lemma store_snakes (d : Z) (v : list Z) (rest : list (list Z)) :
  0 <= d ->
  Myers.store (replicate (Z.to_nat (d + 1)) [] ++ rest) d v =
    Returns (replicate (Z.to_nat d) [] ++ v :: rest).
Proof.
  intros Hd. pose proof (len_nonneg rest).
  rewrite store_Returns by (rewrite len_app, len_replicate; lia).
  f_equal. replace (Z.to_nat (d + 1)) with (Z.to_nat d + 1)%nat by lia.
  rewrite replicate_add, <- app_assoc. cbn [replicate app].
  rewrite insert_app_r_alt by (rewrite length_replicate; lia).
  rewrite length_replicate, Nat.sub_diag. done.
Qed.

Section Backtrack.

Variables (D : Z) (snaps : list (list Z)) (T : list Z).

Hypothesis Hoff : 1 <= off.
Hypothesis HD : 0 <= D <= off.
Hypothesis Hlen : len snaps = D.
Hypothesis Hsnaps : snapsOK 0 snaps T.
Hypothesis HT : len T = 2 * off + 1.
Hypothesis Hdiag : diagonalOf D (len a - len b).
Hypothesis Hcur : curOK D (len a - len b + 2) T.
Hypothesis Hend : val T (len a - len b) = len a.

(** The rest of [trace], which the forward pass did not fill. *)
Definition unused : list (list Z) := replicate (Z.to_nat (off - D)) [].

(** The point [(x, y)] is where depth [d] got on its diagonal, as the
    snapshot of depth [d] has it. *)
Definition pointOK (d x y : Z) : Prop :=
  diagonalOf d (x - y) /\
  exists Td, (snaps ++ [T]) !! Z.to_nat d = Some Td /\ len Td = 2 * off + 1 /\
    val Td (x - y) = x /\
    furthest a b d (x - y) x /\
    snake a b (x - y) (landing d (x - y) (val Td (x - y - 1)) (val Td (x - y + 1))) x.

Lemma pointOK_end : pointOK D (len a) (len b).
Proof.
  split; [done |]. exists T. split.
  - rewrite lookup_app_r by (unfold len in Hlen; lia).
    replace (Z.to_nat D - length snaps)%nat with 0%nat by (unfold len in Hlen; lia). done.
  - split; [done |]. split; [done |].
    destruct (Hcur (len a - len b) Hdiag ltac:(lia)) as [Hfur Hsn].
    rewrite Hend in Hfur, Hsn. done.
Qed.

Lemma trace_snapshot d Td :
  0 <= d -> (snaps ++ [T]) !! Z.to_nat d = Some Td ->
  index (snaps ++ T :: unused) d = Returns Td.
Proof.
  intros Hd HTd. pose proof (lookup_lt_Some _ _ _ HTd) as Hlt.
  rewrite length_app in Hlt. simpl in Hlt.
  rewrite (index_Returns [] _ d).
  - replace (snaps ++ T :: unused) with ((snaps ++ [T]) ++ unused) by (by rewrite <- app_assoc).
    rewrite lookup_app_l by (rewrite length_app; simpl; lia). by rewrite HTd.
  - rewrite len_app, len_cons. pose proof (len_nonneg unused). unfold len in *. lia.
Qed.

Lemma trace_unused d :
  D < d <= off -> index (snaps ++ T :: unused) d = Returns [].
Proof.
  intros Hd. unfold unused.
  rewrite (index_Returns [] _ d) by (rewrite len_app, len_cons, len_replicate; lia).
  f_equal. unfold len in Hlen.
  rewrite lookup_app_r by lia. destruct (Z.to_nat d - length snaps)%nat as [|n] eqn:Hn; [lia |].
  simpl. destruct (replicate (Z.to_nat (off - D)) [] !! n) eqn:Hl; [| done].
  by apply lookup_replicate in Hl as [-> _].
Qed.

Lemma backtrackLoop_skip (n : nat) : forall fuel d x y snakes,
  d = D + Z.of_nat n -> d <= off -> 0 < x -> 0 < y ->
  Myers.backtrackLoop (n + fuel) (snaps ++ T :: unused) off x y d snakes =
  Myers.backtrackLoop fuel (snaps ++ T :: unused) off x y D snakes.
Proof.
  induction n as [|n IH]; intros fuel d x y snakes Hd Hle Hx Hy.
  - replace d with D by lia. done.
  - cbn [Nat.add Myers.backtrackLoop].
    replace ((x >? 0) && (y >? 0) && (d >? 0)) with true
      by (symmetry; rewrite !andb_true_iff, !Z.gtb_lt; lia).
    rewrite trace_unused by lia. cbn [mbind outcome_bind].
    rewrite len_nil. cbn [Z.eqb]. apply IH; lia.
Qed.

(** One round of the loop steps back from the furthest point of depth [d]
    to the furthest point of depth [d - 1] that the forward pass came
    from. *)
Lemma backtrackLoop_spec (fuel : nat) : forall d x y above rest,
  0 <= d <= D -> d <= Z.of_nat fuel ->
  pointOK d x y -> pathOK x y above ->
  exists d' x' y' above',
    Myers.backtrackLoop fuel (snaps ++ T :: unused) off x y d
      (replicate (Z.to_nat (d + 1)) [] ++ map pt above ++ rest) =
    Returns (replicate (Z.to_nat (d' + 1)) [] ++ map pt above' ++ rest, x', y', d') /\
    0 <= d' /\ pointOK d' x' y' /\ pathOK x' y' above' /\
    (x' <= 0 \/ y' <= 0 \/ d' <= 0) /\
    turns x' y' above' = turns x y above + (d - d').
Proof.
  induction fuel as [|fuel IH]; intros d x y above rest Hd Hfuel Hpt Hpath.
  { exists d, x, y, above. split; [done |]. split; [lia |]. split; [done |]. split; [done |].
    split; lia. }
  cbn [Myers.backtrackLoop].
  destruct ((x >? 0) && (y >? 0) && (d >? 0)) eqn:Hc.
  2:{ exists d, x, y, above. split; [done |]. split; [lia |]. split; [done |]. split; [done |].
      split; [| lia].
      apply andb_false_iff in Hc as [Hc | Hc]; [apply andb_false_iff in Hc as [Hc | Hc] |];
        rewrite Z.gtb_ltb in Hc; apply Z.ltb_ge in Hc; lia. }
  apply andb_true_iff in Hc as [Hc Hd0]. apply andb_true_iff in Hc as [Hx0 Hy0].
  rewrite Z.gtb_ltb in Hx0, Hy0, Hd0. apply Z.ltb_lt in Hx0, Hy0, Hd0.
  destruct Hpt as (Hdg & Td & HTd & HlenTd & Hval & Hfur & Hsn).
  rewrite (trace_snapshot d Td) by (lia || done). cbn [mbind outcome_bind].
  replace (len Td =? 0) with false by (symmetry; apply Z.eqb_neq; lia).
  rewrite store_snakes by lia. cbn [mbind outcome_bind].
  rewrite goesDown_eq by (done || lia). cbn [mbind outcome_bind].
  set (k := x - y) in *.
  set (down := (k =? - d) || (negb (k =? d) && (val Td (k - 1) <? val Td (k + 1)))).
  set (kPrev := if down then k + 1 else k - 1).
  assert (Hprev : diagonalOf (d - 1) kPrev /\
                  landing d k (val Td (k - 1)) (val Td (k + 1)) =
                    if down then val Td kPrev else val Td kPrev + 1).
  { destruct Hdg as (j & Hj & Hk). unfold landing. fold down. subst kPrev.
    destruct down eqn:Hdown; subst down.
    - split; [| done]. exists (j - 1).
      apply orb_true_iff in Hdown as [?%Z.eqb_eq | [?%negb_true_iff%Z.eqb_neq _]%andb_true_iff]; lia.
    - split; [| done]. exists j. apply orb_false_iff in Hdown as [?%Z.eqb_neq _]. lia. }
  destruct Hprev as [Hdg' Hland].
  assert (Hin : 0 <= kPrev + off < len Td) by (destruct Hdg' as (j & ? & ?); lia).
  rewrite (index_Returns 0 Td (kPrev + off)) by done. cbn [mbind outcome_bind].
  fold (val Td kPrev).
  (* the snapshot of depth d - 1 *)
  destruct (lookup_lt_is_Some_2 snaps (Z.to_nat (d - 1))) as [Tp HTp];
    [unfold len in Hlen; lia |].
  destruct (snapsOK_at snaps 0 T _ Tp Hsnaps HTp) as (HlenTp & HcurTp & Hlink).
  replace (0 + Z.of_nat (Z.to_nat (d - 1))) with (d - 1) in * by lia.
  assert (Hsame : val Td kPrev = val Tp kPrev).
  { apply Hlink; [| done]. by replace (S (Z.to_nat (d - 1))) with (Z.to_nat d) by lia. }
  destruct (HcurTp kPrev Hdg') as [HfurP HsnP]; [destruct Hdg' as (j & ? & ?); lia |].
  set (x' := val Td kPrev) in *.
  destruct (IH (d - 1) x' (x' - kPrev) ((x, y) :: above) rest)
    as (d' & x'' & y'' & above' & Hrun & Hd' & Hpt' & Hpath' & Hexit & Hturns); [lia | lia | | |].
  - unfold pointOK. replace (x' - (x' - kPrev)) with kPrev by lia.
    split; [done |]. exists Tp. split; [by apply lookup_app_l_Some |]. split; [done |].
    rewrite <- Hsame in HfurP, HsnP |- *. done.
  - cbn [pathOK]. split; [| done]. rewrite Hland in Hsn.
    destruct Hsn as (Hle & Hall & _). unfold hop.
    replace (x - y - (x' - (x' - kPrev))) with (k - kPrev) by (subst k; lia).
    fold k. subst kPrev. destruct down.
    + rewrite Z.max_l, Z.add_0_r by lia. split; [lia |]. split; [lia | done].
    + rewrite Z.max_r by lia. replace (k - (k - 1)) with 1 by lia. split; [lia |].
      split; [lia | done].
  - exists d', x'', y'', above'. split; [| split_and!; try (done || lia)].
    + cbn [map pt fst snd] in Hrun.
      replace (Z.to_nat (d - 1 + 1)) with (Z.to_nat d) in Hrun by lia. exact Hrun.
    + rewrite Hturns. cbn [turns].
      replace (x - y - (x' - (x' - kPrev))) with (k - kPrev) by (subst k; lia).
      subst kPrev. destruct down; lia.
Qed.

Lemma length_trace : length (snaps ++ T :: unused) = Z.to_nat (off + 1).
Proof.
  rewrite length_app. cbn [length]. unfold unused. rewrite length_replicate.
  unfold len in Hlen. lia.
Qed.

(** [backtrack] returns the points of a path from the origin to the end of
    both sequences, among empty entries. *)
Lemma backtrack_spec :
  exists n1 pts n2,
    Myers.backtrack (snaps ++ T :: unused) (len a) (len b) off =
      Returns (replicate n1 [] ++ map pt pts ++ replicate n2 []) /\
    pathOK 0 0 pts /\ turns 0 0 pts = D.
Proof.
  pose proof (len_nonneg a) as Ha. pose proof (len_nonneg b) as Hb.
  unfold Myers.backtrack. unfold len at 3. rewrite length_trace.
  replace (Z.of_nat (Z.to_nat (off + 1)) - 1) with off by lia.
  destruct (decide (0 < len a /\ 0 < len b)) as [[HM HN] | Hzero].
  - assert (Hskip : forall snakes,
      Myers.backtrackLoop (Z.to_nat (off + 1)) (snaps ++ T :: unused) off
        (len a) (len b) off snakes =
      Myers.backtrackLoop (Z.to_nat (D + 1)) (snaps ++ T :: unused) off
        (len a) (len b) D snakes).
    { intros snakes.
      replace (Z.to_nat (off + 1)) with (Z.to_nat (off - D) + Z.to_nat (D + 1))%nat by lia.
      apply backtrackLoop_skip; lia. }
    rewrite Hskip.
    replace (replicate (Z.to_nat (off + 1)) [])
      with (replicate (Z.to_nat (D + 1)) [] ++ map pt [] ++ unused).
    2:{ unfold unused. cbn [map app]. rewrite <- replicate_add. f_equal. lia. }
    destruct (backtrackLoop_spec (Z.to_nat (D + 1)) D (len a) (len b) [] unused)
      as (d' & x' & y' & above' & -> & Hd' & Hpt' & Hpath' & Hexit & Hturns);
      [lia | lia | apply pointOK_end | done |].
    cbn [mbind outcome_bind].
    destruct Hpt' as (Hdg & _ & _ & _ & _ & [Hreach _] & _).
    pose proof (reach_facts _ _ _ _ _ Hreach) as (Hx' & Hy' & Hsum & _).
    replace (x' - (x' - y')) with y' in * by lia.
    replace ((x' <? 0) || (y' <? 0)) with false
      by (symmetry; apply orb_false_iff; rewrite !Z.ltb_ge; lia).
    rewrite store_snakes by lia.
    exists (Z.to_nat d'), ((x', y') :: above'), (Z.to_nat (off - D)).
    split; [done |]. cbn [pathOK turns]. rewrite Hturns. cbn [turns]. unfold hop.
    replace (x' - y' - (0 - 0)) with (x' - y') by lia.
    destruct (decide (d' = 0)) as [-> | Hne].
    + destruct (reach_0_diag _ _ _ Hreach eq_refl) as [<- Hall].
      rewrite Z.max_l by lia. split; [| lia]. split; [| done]. split; [lia |]. split; [lia |].
      intros i Hi. replace (i - (x' - x')) with i by lia. apply Hall. lia.
    + destruct Hdg as (j & ? & ?).
      split; [| lia]. split; [| done]. split; [lia |]. split; [lia |]. intros i Hi. lia.
  - assert (Hstop : forall snakes,
      Myers.backtrackLoop (Z.to_nat (off + 1)) (snaps ++ T :: unused) off
        (len a) (len b) off snakes = Returns (snakes, len a, len b, off)).
    { intros snakes. replace (Z.to_nat (off + 1)) with (S (Z.to_nat off)) by lia.
      cbn [Myers.backtrackLoop].
      replace ((len a >? 0) && (len b >? 0) && (off >? 0)) with false; [done |].
      symmetry. apply andb_false_iff. left. apply andb_false_iff.
      rewrite !Z.gtb_ltb, !Z.ltb_ge. lia. }
    rewrite Hstop.
    cbn [mbind outcome_bind].
    replace ((len a <? 0) || (len b <? 0)) with false
      by (symmetry; apply orb_false_iff; rewrite !Z.ltb_ge; lia).
    pose proof (store_snakes off [len a; len b] [] ltac:(lia)) as Hst.
    rewrite app_nil_r in Hst. rewrite Hst.
    exists (Z.to_nat off), [(len a, len b)], 0%nat. split; [done |].
    cbn [pathOK turns]. destruct Hdiag as (j & ? & ?). split; [| off_lia].
    split; [| done]. unfold hop.
    split; [lia |]. split; [lia |]. intros i Hi. lia.
Qed.

End Backtrack.

(** ** From the snakes to the operations *)

(** [script x y ops x' y']: the operations [ops], with equal lines between
    them, lead from line [x] of [a] and line [y] of [b] to lines [x'] and
    [y']. *)
Inductive script : Z -> Z -> list Myers.Operation -> Z -> Z -> Prop :=
| script_nil x y : script x y [] x y
| script_equal x y ops x' y' :
    eqAt a b x y -> script (x + 1) (y + 1) ops x' y' -> script x y ops x' y'
| script_delete x y n ops x' y' :
    0 < n -> x + n <= len a -> script (x + n) y ops x' y' ->
    script x y (Myers.mkOp Myers.Delete x (x + n) y 0 :: ops) x' y'
| script_insert x y n ops x' y' :
    0 < n -> y + n <= len b -> script x (y + n) ops x' y' ->
    script x y (Myers.mkOp Myers.Insert x x y (y + n) :: ops) x' y'.

(** The number of lines that the operations delete or insert. *)
Definition opCost (op : Myers.Operation) : Z :=
  match Myers.Kind op with
  | Myers.Delete => Myers.End op - Myers.Start op
  | Myers.Insert => Myers.ReplEnd op - Myers.ReplStart op
  | Myers.Equal => 0
  end.

Fixpoint cost (ops : list Myers.Operation) : Z :=
  match ops with
  | [] => 0
  | op :: r => opCost op + cost r
  end.

Lemma cost_app ops1 ops2 : cost (ops1 ++ ops2) = cost ops1 + cost ops2.
Proof. induction ops1 as [|op r IH]; cbn [app cost]; lia. Qed.

Lemma script_app x y ops1 x1 y1 ops2 x2 y2 :
  script x y ops1 x1 y1 -> script x1 y1 ops2 x2 y2 -> script x y (ops1 ++ ops2) x2 y2.
Proof.
  induction 1 as [| x y ops x' y' He Hs IH | x y n ops x' y' Hn Hle Hs IH
                  | x y n ops x' y' Hn Hle Hs IH]; intros H2; cbn [app].
  - done.
  - apply script_equal; [done | by apply IH].
  - apply script_delete; [done | done | by apply IH].
  - apply script_insert; [done | done | by apply IH].
Qed.

Lemma script_diag (n : nat) : forall x y,
  (forall i, x <= i < x + Z.of_nat n -> eqAt a b i (i - (x - y))) ->
  script x y [] (x + Z.of_nat n) (y + Z.of_nat n).
Proof.
  induction n as [|n IH]; intros x y Hall.
  - rewrite !Z.add_0_r. apply script_nil.
  - apply script_equal.
    + specialize (Hall x ltac:(lia)). by replace (x - (x - y)) with y in Hall by lia.
    + replace (x + Z.of_nat (S n)) with (x + 1 + Z.of_nat n) by lia.
      replace (y + Z.of_nat (S n)) with (y + 1 + Z.of_nat n) by lia.
      apply IH. intros i Hi. replace (x + 1 - (y + 1)) with (x - y) by lia.
      apply Hall. lia.
Qed.

Lemma deleteLoop_eq (m : nat) : forall k x y M,
  k - (x - y) = Z.of_nat m -> x + Z.of_nat m <= M ->
  Myers.deleteLoop m k x y M = x + Z.of_nat m.
Proof.
  induction m as [|m IH]; intros k x y M Hk HM; cbn [Myers.deleteLoop]; [lia |].
  replace (k >? x - y) with true by (symmetry; rewrite Z.gtb_ltb; apply Z.ltb_lt; lia).
  destruct (Z.eqb_spec (x + 1) M) as [? | ?]; [lia |].
  rewrite IH; lia.
Qed.

Lemma insertLoop_eq (m : nat) : forall k x y,
  x - y - k = Z.of_nat m -> Myers.insertLoop m k x y = y + Z.of_nat m.
Proof.
  induction m as [|m IH]; intros k x y Hk; cbn [Myers.insertLoop]; [lia |].
  replace (k <? x - y) with true by (symmetry; apply Z.ltb_lt; lia).
  rewrite IH; lia.
Qed.

Lemma equalLoop_eq (m : nat) : forall s0 x y,
  s0 - x = Z.of_nat m -> Myers.equalLoop m s0 x y = (s0, y + Z.of_nat m).
Proof.
  induction m as [|m IH]; intros s0 x y Hs; cbn [Myers.equalLoop].
  - f_equal; lia.
  - replace (x <? s0) with true by (symmetry; apply Z.ltb_lt; lia).
    rewrite IH by lia. f_equal. lia.
Qed.

Lemma snakeLoop_nils (n : nat) rest M N sol x y :
  Myers.snakeLoop (replicate n [] ++ rest) M N sol x y = Myers.snakeLoop rest M N sol x y.
Proof. induction n as [|n IH]; [done |]. cbn [replicate app Myers.snakeLoop]. exact IH. Qed.

Lemma deleteLoop_none fuel k x y M : k <= x - y -> Myers.deleteLoop fuel k x y M = x.
Proof.
  intros Hk. destruct fuel; cbn [Myers.deleteLoop]; [done |].
  by replace (k >? x - y) with false by (symmetry; rewrite Z.gtb_ltb; apply Z.ltb_ge; lia).
Qed.

Lemma insertLoop_none fuel k x y : x - y <= k -> Myers.insertLoop fuel k x y = y.
Proof.
  intros Hk. destruct fuel; cbn [Myers.insertLoop]; [done |].
  by replace (k <? x - y) with false by (symmetry; apply Z.ltb_ge; lia).
Qed.

Lemma equalLoop_Z s0 x y :
  x <= s0 -> Myers.equalLoop (Z.to_nat (s0 - x)) s0 x y = (s0, y + (s0 - x)).
Proof. intros Hx. rewrite equalLoop_eq by lia. f_equal. lia. Qed.

Lemma script_snoc sol x y op x1 y1 x2 y2 :
  script 0 0 sol x y -> script x y [op] x1 y1 ->
  x2 = x1 + (x2 - x1) -> 0 <= x2 - x1 -> y2 = y1 + (x2 - x1) ->
  (forall i, x1 <= i < x2 -> eqAt a b i (i - (x2 - y2))) ->
  script 0 0 (sol ++ [op]) x2 y2.
Proof.
  intros Hs Hop Hx Hn Hy Hall. eapply script_app; [exact Hs |].
  replace [op] with ([op] ++ []) by done. eapply script_app; [exact Hop |].
  rewrite Hx, Hy. replace (x2 - x1) with (Z.of_nat (Z.to_nat (x2 - x1))) at 1 2 by lia.
  apply script_diag. intros i Hi.
  replace (x1 - y1) with (x2 - y2) by lia. apply Hall. lia.
Qed.

(** One snake of the loop in [Operations]. *)
Lemma snakeLoop_step rest sol x y x2 y2 :
  0 <= x -> 0 <= y -> script 0 0 sol x y -> len sol <= x + y ->
  hop x y x2 y2 -> x2 <= len a -> y2 <= len b ->
  exists sol', script 0 0 sol' x2 y2 /\ len sol' <= x2 + y2 /\
    Myers.snakeLoop (pt (x2, y2) :: rest) (len a) (len b) sol x y =
      (if (x2 >=? len a) && (y2 >=? len b) then Returns sol'
       else Myers.snakeLoop rest (len a) (len b) sol' x2 y2) /\
    cost sol' = cost sol + Z.abs ((x2 - y2) - (x - y)).
Proof.
  intros Hx Hy Hs Hlen (Hx0 & Hy2 & Hall) Hxa Hyb.
  unfold pt. cbn [Myers.snakeLoop fst snd].
  change (len [x2; y2] <? 2) with false. cbv iota.
  change (index [x2; y2] 0) with (Returns x2).
  change (index [x2; y2] 1) with (Returns y2).
  cbn [mbind outcome_bind].
  set (k := x2 - y2) in *.
  destruct (Z.lt_trichotomy k (x - y)) as [Hlt | [Heq | Hgt]].
  - (* lines of b are inserted *)
    rewrite Z.max_l in * by lia.
    replace (k >? x - y) with false by (symmetry; rewrite Z.gtb_ltb; apply Z.ltb_ge; lia).
    rewrite deleteLoop_none by lia. cbn [Myers.add mbind outcome_bind].
    replace (k <? x - y) with true by (symmetry; apply Z.ltb_lt; lia).
    rewrite insertLoop_eq by lia.
    set (n := x - y - k) in *. replace (Z.of_nat (Z.to_nat n)) with n by lia.
    cbn [Myers.add Myers.Kind Myers.Start Myers.ReplStart].
    replace (len sol <? len a + len b) with true by (symmetry; apply Z.ltb_lt; lia).
    cbn [mbind outcome_bind]. rewrite equalLoop_Z by lia.
    replace (y + n + (x2 - x)) with y2 by lia.
    eexists. split; [| split; [| split; [reflexivity |]]].
    + apply (script_snoc sol x y _ x (y + n)); [done | | lia | lia | lia |].
      * apply script_insert; [lia | lia | apply script_nil].
      * intros i Hi. apply Hall. lia.
    + rewrite len_app, len_cons, len_nil. lia.
    + rewrite cost_app. cbn [cost opCost Myers.Kind Myers.ReplEnd Myers.ReplStart]. lia.
  - (* equal lines only *)
    rewrite Z.max_l in * by lia.
    replace (k >? x - y) with false by (symmetry; rewrite Z.gtb_ltb; apply Z.ltb_ge; lia).
    rewrite deleteLoop_none by lia. cbn [Myers.add mbind outcome_bind].
    replace (k <? x - y) with false by (symmetry; apply Z.ltb_ge; lia).
    rewrite insertLoop_none by lia. cbn [Myers.add mbind outcome_bind].
    rewrite equalLoop_Z by lia. replace (y + (x2 - x)) with y2 by lia.
    exists sol. split; [| split; [lia | split; [reflexivity | lia]]].
    replace sol with (sol ++ []) by apply app_nil_r.
    eapply script_app; [exact Hs |].
    replace x2 with (x + Z.of_nat (Z.to_nat (x2 - x))) by lia.
    replace y2 with (y + Z.of_nat (Z.to_nat (x2 - x))) by lia.
    apply script_diag. intros i Hi. rewrite <- Heq. apply Hall. lia.
  - (* lines of a are deleted *)
    rewrite Z.max_r in * by lia.
    replace (k >? x - y) with true by (symmetry; rewrite Z.gtb_ltb; apply Z.ltb_lt; lia).
    rewrite deleteLoop_eq by lia.
    set (n := k - (x - y)) in *. replace (Z.of_nat (Z.to_nat n)) with n by lia.
    cbn [Myers.add Myers.Kind Myers.Start Myers.ReplStart Myers.ReplEnd].
    replace (len sol <? len a + len b) with true by (symmetry; apply Z.ltb_lt; lia).
    cbn [mbind outcome_bind].
    replace (k <? x + n - y) with false by (symmetry; apply Z.ltb_ge; lia).
    rewrite insertLoop_none by lia. cbn [Myers.add mbind outcome_bind].
    rewrite equalLoop_Z by lia. replace (y + (x2 - (x + n))) with y2 by lia.
    eexists. split; [| split; [| split; [reflexivity |]]].
    + apply (script_snoc sol x y _ (x + n) y); [done | | lia | lia | lia |].
      * apply script_delete; [lia | lia | apply script_nil].
      * intros i Hi. apply Hall. lia.
    + rewrite len_app, len_cons, len_nil. lia.
    + rewrite cost_app. cbn [cost opCost Myers.Kind Myers.End Myers.Start]. lia.
Qed.

Lemma snakeLoop_path (n2 : nat) (pts : list (Z * Z)) : forall sol x y,
  0 <= x -> 0 <= y -> script 0 0 sol x y -> len sol <= x + y ->
  pathOK x y pts ->
  exists sol', Myers.snakeLoop (map pt pts ++ replicate n2 []) (len a) (len b) sol x y =
                 Returns sol' /\
               script 0 0 sol' (len a) (len b) /\
               cost sol' = cost sol + turns x y pts.
Proof.
  induction pts as [|[x2 y2] pts IH]; intros sol x y Hx Hy Hs Hlen Hpath.
  - destruct Hpath as [-> ->]. cbn [map app].
    pose proof (snakeLoop_nils n2 [] (len a) (len b) sol (len a) (len b)) as Hn.
    rewrite app_nil_r in Hn. rewrite Hn. exists sol. cbn [turns]. split_and!; (done || lia).
  - destruct Hpath as [Hhop Hpath]. cbn [map app].
    pose proof (hop_le _ _ _ _ Hhop) as [? ?].
    pose proof (pathOK_le _ _ _ Hpath) as [? ?].
    destruct (snakeLoop_step (map pt pts ++ replicate n2 []) sol x y x2 y2)
      as (sol' & Hs' & Hlen' & -> & Hcost); try done.
    cbn [turns].
    destruct ((x2 >=? len a) && (y2 >=? len b)) eqn:Hc.
    + apply andb_true_iff in Hc as [Hc1 Hc2]. rewrite Z.geb_leb in Hc1, Hc2.
      apply Z.leb_le in Hc1, Hc2.
      assert (x2 = len a) as -> by lia. assert (y2 = len b) as -> by lia.
      exists sol'. split; [done |]. split; [done |].
      rewrite (turns_end pts) by done. lia.
    + destruct (IH sol' x2 y2) as (sol2 & -> & Hs2 & Hcost2); try (done || lia).
      exists sol2. split; [done |]. split; [done |]. lia.
Qed.

(** [Operations] returns a script from the start to the end of both
    sequences. *)
Lemma script_reach x y ops x' y' :
  script x y ops x' y' -> forall d, reach a b d x y -> reach a b (d + cost ops) x' y'.
Proof.
  assert (Hright : forall n : nat, forall d u v, reach a b d u v ->
            reach a b (d + Z.of_nat n) (u + Z.of_nat n) v).
  { induction n as [|n IH]; intros d u v Hr.
    - by rewrite !Z.add_0_r.
    - apply (reach_right a b (d + Z.of_nat n) (u + Z.of_nat n) v); [by apply IH | lia | lia]. }
  assert (Hdown : forall n : nat, forall d u v, reach a b d u v ->
            reach a b (d + Z.of_nat n) u (v + Z.of_nat n)).
  { induction n as [|n IH]; intros d u v Hr.
    - by rewrite !Z.add_0_r.
    - apply (reach_down a b (d + Z.of_nat n) u (v + Z.of_nat n)); [by apply IH | lia | lia]. }
  induction 1 as [| x y ops x' y' He Hs IH | x y n ops x' y' Hn Hle Hs IH
                  | x y n ops x' y' Hn Hle Hs IH]; intros d Hr; cbn [cost].
  - by rewrite Z.add_0_r.
  - apply IH. by apply (reach_diag a b d x y).
  - cbn [opCost Myers.Kind Myers.End Myers.Start].
    replace (d + (x + n - x + cost ops)) with (d + n + cost ops) by lia. apply IH.
    specialize (Hright (Z.to_nat n) d x y Hr).
    by replace (Z.of_nat (Z.to_nat n)) with n in Hright by lia.
  - cbn [opCost Myers.Kind Myers.ReplEnd Myers.ReplStart].
    replace (d + (y + n - y + cost ops)) with (d + n + cost ops) by lia. apply IH.
    specialize (Hdown (Z.to_nat n) d x y Hr).
    by replace (Z.of_nat (Z.to_nat n)) with n in Hdown by lia.
Qed.

Lemma Operations_spec :
  exists ops, Myers.Operations a b = Returns ops /\ script 0 0 ops (len a) (len b) /\
    forall d, reach a b d (len a) (len b) -> cost ops <= d.
Proof.
  pose proof (len_nonneg a) as Ha. pose proof (len_nonneg b) as Hb.
  unfold Myers.Operations.
  destruct ((len a =? 0) && (len b =? 0)) eqn:Hc.
  - apply andb_true_iff in Hc as [->%Z.eqb_eq ->%Z.eqb_eq].
    exists []. split; [done |]. split; [apply script_nil |].
    intros d Hr. apply reach_facts in Hr as (_ & _ & _ & j & ? & ?). cbn [cost]. lia.
  - assert (Hoff : 1 <= off).
    { apply andb_false_iff in Hc as [?%Z.eqb_neq | ?%Z.eqb_neq]; off_lia. }
    destruct (shortestEditSequence_spec Hoff)
      as (D & snaps & T & -> & HD & Hlen & Hsnaps & HT & Hdiag & Hcur & Hend & Hmin).
    cbn [mbind outcome_bind].
    destruct (backtrack_spec D snaps T Hoff HD Hlen Hsnaps HT Hdiag Hcur Hend)
      as (n1 & pts & n2 & Hbt & Hpath & Hturns).
    unfold unused in Hbt. rewrite Hbt. cbn [mbind outcome_bind].
    rewrite snakeLoop_nils.
    destruct (snakeLoop_path n2 pts [] 0 0) as (ops & -> & Hs & Hcost);
      [lia | lia | apply script_nil | rewrite len_nil; lia | done |].
    exists ops. split; [done |]. split; [done |].
    intros d Hr. cbn [cost] in Hcost. rewrite Hcost, Hturns.
    destruct (Z.le_gt_cases D d) as [? | Hlt]; [lia |]. by destruct (Hmin d ltac:(lia)).
Qed.

Lemma script_le x y ops x' y' : script x y ops x' y' -> x <= x' /\ y <= y'.
Proof. induction 1; lia. Qed.

End MyersRun.

(** ** From the operations to the edits *)

Lemma SplitAfter_concat t : concat (Myers.SplitAfter t) = t /\ Myers.SplitAfter t <> [].
Proof.
  induction t as [|c r [IH Hne]]; [done |]. cbn [Myers.SplitAfter].
  destruct (Byte.eqb c NL).
  - split; [| done]. cbn [concat app]. by rewrite IH.
  - destruct (Myers.SplitAfter r) as [|l ls]; [done |].
    split; [| done]. cbn [concat app] in *. by rewrite IH.
Qed.

(** The lines of a text make up the text. *)
Lemma splitLines_spec t :
  exists lines, Myers.splitLines t = Returns lines /\ concat lines = t.
Proof.
  destruct (SplitAfter_concat t) as [Hcat Hne]. unfold Myers.splitLines.
  set (lines := Myers.SplitAfter t) in *.
  assert (Hlen : 1 <= len lines) by (destruct lines; [done | rewrite len_cons; pose proof (len_nonneg lines); lia]).
  destruct (index_ok lines (len lines - 1)) as (l & -> & Hl); [lia |].
  cbn [mbind outcome_bind].
  destruct (Z.eqb_spec (len l) 0) as [Hl0 | Hl0]; [| by exists lines].
  assert (l = []) as -> by (destruct l; [done | rewrite len_cons in Hl0; pose proof (len_nonneg l); lia]).
  unfold slice_to. rewrite slice_ok by lia. eexists. split; [done |].
  transitivity (concat (take (Z.to_nat (len lines - 1)) lines ++
                        [] :: drop (S (Z.to_nat (len lines - 1))) lines));
    [| by rewrite (take_drop_middle lines _ _ Hl)].
  rewrite concat_app. cbn [concat app].
  rewrite drop_ge by (unfold len; lia). cbn [concat]. rewrite app_nil_r.
  unfold segment. rewrite drop_0. f_equal. f_equal. lia.
Qed.

Lemma lineOffsetsFrom_lookup lines : forall total (n : nat),
  (n <= length lines)%nat ->
  Myers.lineOffsetsFrom lines total !! n = Some (total + len (concat (take n lines))).
Proof.
  induction lines as [|l r IH]; intros total n Hn.
  - destruct n; [| simpl in Hn; lia].
    change (Some total = Some (total + 0)). by rewrite Z.add_0_r.
  - destruct n as [|n]; cbn [Myers.lineOffsetsFrom take concat].
    + change (Some total = Some (total + 0)). by rewrite Z.add_0_r.
    + rewrite lookup_cons. rewrite IH by (simpl in Hn; lia).
      rewrite len_app. f_equal. lia.
Qed.

Lemma lineOffsetsFrom_length lines : forall total,
  length (Myers.lineOffsetsFrom lines total) = S (length lines).
Proof. induction lines as [|l r IH]; intros total; [done |]. simpl. by rewrite IH. Qed.

Lemma segment_middle {A} (l1 l2 l3 : list A) :
  segment (l1 ++ l2 ++ l3) (len l1) (len l1 + len l2) = l2.
Proof.
  unfold segment, len. rewrite Nat2Z.id.
  replace (Z.to_nat (Z.of_nat (length l1) + Z.of_nat (length l2) - Z.of_nat (length l1)))
    with (length l2) by lia.
  rewrite drop_app_length. by rewrite take_app_length.
Qed.

Lemma segment_one {A} (s : list A) x l :
  0 <= x -> s !! Z.to_nat x = Some l -> segment s x (x + 1) = [l].
Proof.
  intros Hx Hl. unfold segment. replace (Z.to_nat (x + 1 - x)) with 1%nat by lia.
  rewrite (drop_S _ _ _ Hl). done.
Qed.

Lemma segment_drop {A} (s : list A) y n :
  0 <= y -> 0 <= n ->
  drop (Z.to_nat y) s = segment s y (y + n) ++ drop (Z.to_nat (y + n)) s.
Proof.
  intros Hy Hn. unfold segment.
  replace (Z.to_nat (y + n)) with (Z.to_nat y + Z.to_nat (y + n - y))%nat by lia.
  rewrite <- drop_drop. by rewrite take_drop.
Qed.

Section Edits.

Variables a b : list Text.

(** The offset in the text of line [x] of [a]: [lineOffsets[x]]. *)
Definition lineOffset (x : Z) : Z := len (concat (take (Z.to_nat x) a)).

Lemma index_lineOffsets x :
  0 <= x <= len a -> index (Myers.lineOffsetsFrom a 0) x = Returns (lineOffset x).
Proof.
  intros Hx. unfold index, len. rewrite lineOffsetsFrom_length.
  replace ((0 <=? x) && (x <? Z.of_nat (S (length a)))) with true
    by (symmetry; apply andb_true_iff; rewrite Z.leb_le, Z.ltb_lt; unfold len in Hx; lia).
  rewrite lineOffsetsFrom_lookup by (unfold len in Hx; lia). done.
Qed.

Lemma lineOffset_0 : lineOffset 0 = 0.
Proof. done. Qed.

Lemma lineOffset_len : lineOffset (len a) = len (concat a).
Proof. unfold lineOffset, len at 2. by rewrite Nat2Z.id, firstn_all. Qed.

Lemma take_lines x x' :
  0 <= x <= x' -> take (Z.to_nat x') a = take (Z.to_nat x) a ++ segment a x x'.
Proof.
  intros Hx. unfold segment. rewrite take_take_drop. f_equal. lia.
Qed.

Lemma lineOffset_add x x' :
  0 <= x <= x' -> lineOffset x' = lineOffset x + len (concat (segment a x x')).
Proof.
  intros Hx. unfold lineOffset. by rewrite (take_lines x x'), concat_app, len_app.
Qed.

Lemma lineOffset_mono x x' : 0 <= x <= x' -> lineOffset x <= lineOffset x'.
Proof.
  intros Hx. rewrite (lineOffset_add x x') by done.
  pose proof (len_nonneg (concat (segment a x x'))). lia.
Qed.

Lemma lineOffset_nonneg x : 0 <= lineOffset x.
Proof. apply len_nonneg. Qed.

Lemma lineOffset_segment x x' :
  0 <= x <= x' ->
  segment (concat a) (lineOffset x) (lineOffset x') = concat (segment a x x').
Proof.
  intros Hx. rewrite (lineOffset_add x x') by done.
  rewrite <- (take_drop (Z.to_nat x') a) at 1.
  rewrite (take_lines x x') by done. rewrite !concat_app, <- app_assoc.
  apply segment_middle.
Qed.

(** The edits of a script are in bounds and in order, and patch the lines
    of [a] from line [x] on into the lines of [b] from line [y] on. *)
Lemma editsLoop_spec x y ops x' y' :
  script a b x y ops x' y' -> x' = len a -> y' = len b -> 0 <= x -> 0 <= y ->
  forall edits,
  exists E, Myers.editsLoop ops (Myers.lineOffsetsFrom a 0) b edits = Returns (edits ++ E) /\
    Forall (inBounds (len (concat a))) E /\ ordered (lineOffset x) E /\
    patched (concat a) (lineOffset x) E = concat (drop (Z.to_nat y) b).
Proof.
  induction 1 as [x y | x y ops x' y' He Hs IH | x y n ops x' y' Hn Hle Hs IH
                  | x y n ops x' y' Hn Hle Hs IH]; intros Hx' Hy' Hx Hy edits.
  - subst x y. exists []. rewrite app_nil_r. split; [done |]. split; [done |].
    split; [done |]. cbn [patched]. rewrite lineOffset_len, segment_empty by lia.
    by rewrite drop_ge by (unfold len; lia).
  - destruct (IH Hx' Hy' ltac:(lia) ltac:(lia) edits) as (E & HE & Hin & Hord & Hpat).
    destruct He as ((_ & Hxa) & (_ & Hyb) & Heq).
    pose proof (lineOffset_mono x (x + 1) ltac:(lia)).
    pose proof (lineOffset_mono (x + 1) (len a) ltac:(lia)) as Hmax.
    rewrite lineOffset_len in Hmax. pose proof (lineOffset_nonneg x).
    exists E. split; [done |]. split; [done |].
    split; [by apply (ordered_weaken _ (lineOffset (x + 1))) |].
    rewrite <- (patched_segment _ (lineOffset x) (lineOffset (x + 1))) by (done || lia).
    rewrite Hpat, lineOffset_segment by lia.
    destruct (lookup_lt_is_Some_2 b (Z.to_nat y)) as [l Hl]; [unfold len in Hyb; lia |].
    rewrite (segment_one a x l) by (lia || congruence).
    rewrite (drop_S _ _ _ Hl). cbn [concat]. rewrite app_nil_r.
    by replace (Z.to_nat (y + 1)) with (S (Z.to_nat y)) by lia.
  - pose proof (lineOffset_mono x (x + n) ltac:(lia)).
    pose proof (lineOffset_mono (x + n) (len a) ltac:(lia)) as Hmax.
    rewrite lineOffset_len in Hmax. pose proof (lineOffset_nonneg x).
    cbn [Myers.editsLoop Myers.Start Myers.End Myers.Kind].
    rewrite !index_lineOffsets by lia. cbn [mbind outcome_bind].
    destruct (IH Hx' Hy' ltac:(lia) ltac:(lia) (edits ++ [mkEdit (lineOffset x) (lineOffset (x + n)) []]))
      as (E & -> & Hin & Hord & Hpat).
    exists (mkEdit (lineOffset x) (lineOffset (x + n)) [] :: E).
    split; [by rewrite <- app_assoc |]. split.
    { constructor; [| done]. unfold inBounds. cbn [Start End]. lia. }
    split; [cbn [ordered Start End]; split; [lia | done] |].
    cbn [patched Start End New app]. rewrite segment_empty by lia. done.
  - pose proof (script_le _ _ _ _ _ _ _ Hs) as [Hxle Hyle].
    pose proof (lineOffset_mono x (len a) ltac:(lia)) as Hmax.
    rewrite lineOffset_len in Hmax. pose proof (lineOffset_nonneg x).
    cbn [Myers.editsLoop Myers.Start Myers.End Myers.Kind Myers.ReplStart Myers.ReplEnd].
    rewrite !index_lineOffsets by lia. cbn [mbind outcome_bind].
    rewrite slice_ok by lia. cbn [mbind outcome_bind].
    rewrite (segment_drop b y n), concat_app by lia.
    set (content := concat (segment b y (y + n))).
    destruct (Z.eqb_spec (len content) 0) as [H0 | H0]; cbn [negb].
    + destruct (IH Hx' Hy' ltac:(lia) ltac:(lia) edits) as (E & -> & Hin & Hord & Hpat).
      exists E. split; [done |]. split; [done |]. split; [done |].
      assert (content = []) as ->
        by (destruct content as [|c r]; [done | rewrite len_cons in H0; pose proof (len_nonneg r); lia]).
      done.
    + destruct (IH Hx' Hy' ltac:(lia) ltac:(lia) (edits ++ [mkEdit (lineOffset x) (lineOffset x) content]))
        as (E & -> & Hin & Hord & Hpat).
      exists (mkEdit (lineOffset x) (lineOffset x) content :: E).
      split; [by rewrite <- app_assoc |]. split.
      { constructor; [| done]. unfold inBounds. cbn [Start End]. lia. }
      split; [cbn [ordered Start End]; split; [lia | done] |].
      cbn [patched Start End New app]. rewrite segment_empty by lia.
      cbn [app]. by rewrite Hpat.
Qed.

End Edits.

(** [ComputeEdits] returns edits that are in bounds and in order, and that
    patch [before] into [after]. *)
Lemma ComputeEdits_spec before after :
  exists E, Myers.ComputeEdits before after = Returns E /\
    Forall (inBounds (len before)) E /\ ordered 0 E /\ patched before 0 E = after.
Proof.
  unfold Myers.ComputeEdits.
  destruct (splitLines_spec before) as (a & -> & Ha).
  destruct (splitLines_spec after) as (b & -> & Hb). cbn [mbind outcome_bind].
  destruct (Operations_spec a b) as (ops & -> & Hs & _). cbn [mbind outcome_bind].
  destruct (editsLoop_spec a b 0 0 ops _ _ Hs eq_refl eq_refl ltac:(lia) ltac:(lia) [])
    as (E & -> & Hin & Hord & Hpat).
  exists E. rewrite lineOffset_0 in Hord, Hpat.
  change (Z.to_nat 0) with 0%nat in Hpat. rewrite drop_0, Ha, Hb in Hpat.
  rewrite Ha in Hin. done.
Qed.

(** C7. For every pair of texts [before] and [after] (the length of
    [before] being an [int]), [myers.ComputeEdits(before, after)] returns an
    edit list that passes validation against [len(before)] as it is -- in
    bounds, sorted and without overlap, with [len(after)] as the size of the
    result -- and [Apply(before, myers.ComputeEdits(before, after))] returns
    [after] and no error. *)
Theorem ComputeEdits_valid_round_trip (before after : Text) :
  len before <= GoInt.int_max ->
  exists E, Myers.ComputeEdits before after = Returns E /\
    Validate (len before) E = (E, len after, None) /\
    Apply before E = Returns (after, None).
Proof.
  intros HL. destruct (ComputeEdits_spec before after) as (E & HE & Hin & Hord & Hpat).
  exists E. split; [done |]. split.
  - rewrite (Validate_ordered (len before) E) by done. do 2 f_equal.
    pose proof (len_patched before 0 E Hin Hord) as Hlen.
    rewrite Hpat in Hlen. pose proof (len_nonneg before). lia.
  - rewrite (Apply_ordered before E) by done. by rewrite Hpat.
Qed.

Lemma ComputeEdits_valid_round_trip_witness :
  exists E,
    Myers.ComputeEdits [x61; x0a; x62; x0a; x61; x0a] [x62; x0a; x61; x0a; x62; x0a] = Returns E /\
    Validate 6 E = (E, 6, None) /\
    Apply [x61; x0a; x62; x0a; x61; x0a] E = Returns ([x62; x0a; x61; x0a; x62; x0a], None).
Proof.
  apply (ComputeEdits_valid_round_trip
           [x61; x0a; x62; x0a; x61; x0a] [x62; x0a; x61; x0a; x62; x0a]).
  vm_compute. discriminate.
Defined.

(** * Further properties of the code *)

(** ** myers: the operations *)

(** X1. [Operations(a, b)] returns a shortest edit script: its operations
    lead from the start to the end of both sequences, and no script that
    does so deletes and inserts fewer lines in total. *)
Theorem Operations_shortest (a b : list Text) :
  exists ops, Myers.Operations a b = Returns ops /\
    script a b 0 0 ops (len a) (len b) /\
    forall ops', script a b 0 0 ops' (len a) (len b) -> cost ops <= cost ops'.
Proof.
  destruct (Operations_spec a b) as (ops & Hrun & Hs & Hmin).
  exists ops. split; [done |]. split; [done |].
  intros ops' Hs'. apply Hmin.
  apply (script_reach a b 0 0 ops' _ _ Hs' 0). apply reach_start.
Qed.

(** The shape of a list of operations from line [x] of [a] and line [y] of
    [b] on: each one deletes at least one line of [a] (and leaves [ReplEnd]
    at 0) or inserts at least one line of [b] (at [Start = End]), none is of
    kind [Equal], and each starts where the one before ended or later. *)
Fixpoint opsFrom (M N x y : Z) (ops : list Myers.Operation) : Prop :=
  match ops with
  | [] => True
  | op :: r =>
      x <= Myers.Start op /\ y <= Myers.ReplStart op /\
      match Myers.Kind op with
      | Myers.Delete =>
          Myers.Start op < Myers.End op <= M /\ Myers.ReplStart op <= N /\
          Myers.ReplEnd op = 0 /\
          opsFrom M N (Myers.End op) (Myers.ReplStart op) r
      | Myers.Insert =>
          Myers.End op = Myers.Start op /\ Myers.Start op <= M /\
          Myers.ReplStart op < Myers.ReplEnd op <= N /\
          opsFrom M N (Myers.Start op) (Myers.ReplEnd op) r
      | Myers.Equal => False
      end
  end.

Lemma opsFrom_weaken M N x y x0 y0 ops :
  x0 <= x -> y0 <= y -> opsFrom M N x y ops -> opsFrom M N x0 y0 ops.
Proof.
  destruct ops as [|op r]; [done |]. cbn [opsFrom]. intros ? ? (? & ? & H).
  split; [lia |]. split; [lia | done].
Qed.

Lemma script_opsFrom (a b : list Text) x y ops x' y' :
  script a b x y ops x' y' -> x' <= len a -> y' <= len b ->
  opsFrom (len a) (len b) x y ops.
Proof.
  induction 1 as [| x y ops x' y' He Hs IH | x y n ops x' y' Hn Hle Hs IH
                  | x y n ops x' y' Hn Hle Hs IH]; intros Hx' Hy'.
  - done.
  - apply (opsFrom_weaken _ _ (x + 1) (y + 1)); [lia | lia | by apply IH].
  - pose proof (script_le _ _ _ _ _ _ _ Hs).
    cbn [opsFrom Myers.Kind Myers.Start Myers.End Myers.ReplStart Myers.ReplEnd].
    split_and!; try lia. by apply IH.
  - pose proof (script_le _ _ _ _ _ _ _ Hs).
    cbn [opsFrom Myers.Kind Myers.Start Myers.End Myers.ReplStart Myers.ReplEnd].
    split_and!; try lia. by apply IH.
Qed.

(** X2. The operations that [Operations(a, b)] returns are deletions of at
    least one line of [a] (with [ReplEnd] left at 0) and insertions of at
    least one line of [b] (with [End = Start]); none has kind [Equal]; they
    are in bounds and in ascending order of position in both sequences. *)
Theorem Operations_shape (a b : list Text) :
  exists ops, Myers.Operations a b = Returns ops /\ opsFrom (len a) (len b) 0 0 ops.
Proof.
  destruct (Operations_spec a b) as (ops & Hrun & Hs & _).
  exists ops. split; [done |]. apply (script_opsFrom a b 0 0 ops _ _ Hs); lia.
Qed.

Lemma script_cost (a b : list Text) x y ops x' y' :
  script a b x y ops x' y' -> 0 <= cost ops /\ (cost ops = 0 -> ops = []).
Proof.
  induction 1 as [| x y ops x' y' He Hs IH | x y n ops x' y' Hn Hle Hs IH
                  | x y n ops x' y' Hn Hle Hs IH];
    cbn [cost opCost Myers.Kind Myers.Start Myers.End Myers.ReplStart Myers.ReplEnd];
    (done || lia).
Qed.

Lemma Operations_same (a : list Text) : Myers.Operations a a = Returns [].
Proof.
  destruct (Operations_spec a a) as (ops & -> & Hs & Hmin).
  assert (Hd : script a a 0 0 [] (len a) (len a)).
  { pose proof (script_diag a a (Z.to_nat (len a)) 0 0) as Hd.
    pose proof (len_nonneg a).
    replace (0 + Z.of_nat (Z.to_nat (len a))) with (len a) in Hd by lia.
    apply Hd. intros i Hi. replace (i - (0 - 0)) with i by lia.
    unfold eqAt. split_and!; (lia || done). }
  pose proof (script_reach a a 0 0 [] _ _ Hd 0 (reach_start a a)) as Hr.
  apply Hmin in Hr. cbn [cost] in Hr.
  destruct (script_cost a a _ _ _ _ _ Hs) as [H0 Hnil]. by rewrite Hnil by lia.
Qed.

(** X3. [ComputeEdits(before, after)] returns no edits exactly when the two
    texts are equal. *)
Theorem ComputeEdits_nil_iff (before after : Text) :
  Myers.ComputeEdits before after = Returns [] <-> before = after.
Proof.
  split.
  - intros Hrun. destruct (ComputeEdits_spec before after) as (E & HE & _ & _ & Hpat).
    rewrite Hrun in HE. injection HE as <-. cbn [patched] in Hpat.
    by rewrite segment_all in Hpat.
  - intros <-. unfold Myers.ComputeEdits.
    destruct (splitLines_spec before) as (a & -> & _). cbn [mbind outcome_bind].
    by rewrite Operations_same.
Qed.

(** ** myers: lines *)

(** A line that ends in its only ['\n']. *)
Definition terminated (l : Text) : Prop := exists body, l = body ++ [NL] /\ NL ∉ body.

(** The lines of a text: each one ends in its only ['\n'], but the last
    one may instead be non-empty without any ['\n']. *)
Fixpoint linesOK (lines : list Text) : Prop :=
  match lines with
  | [] => True
  | l :: r =>
      match r with
      | [] => terminated l \/ (l <> [] /\ NL ∉ l)
      | _ :: _ => terminated l /\ linesOK r
      end
  end.

(** The pieces of [text.SplitAfter]: terminated lines and a last piece
    without ['\n'], which may be empty. *)
Fixpoint piecesOK (pieces : list Text) : Prop :=
  match pieces with
  | [] => False
  | l :: r =>
      match r with
      | [] => NL ∉ l
      | _ :: _ => terminated l /\ piecesOK r
      end
  end.

Lemma SplitAfter_pieces t : piecesOK (Myers.SplitAfter t).
Proof.
  induction t as [|c r IH]; [cbn; apply not_elem_of_nil |].
  cbn [Myers.SplitAfter]. destruct (Byte.eqb c NL) eqn:Hc.
  - apply Byte_eqb_iff in Hc as ->.
    destruct (Myers.SplitAfter r) as [|l ls] eqn:Hr; [done |].
    cbn [piecesOK]. split; [| done]. exists []. split; [done | apply not_elem_of_nil].
  - assert (c <> NL) by (intros ->; by rewrite (proj2 (Byte_eqb_iff NL NL) eq_refl) in Hc).
    destruct (Myers.SplitAfter r) as [|l ls]; [done |].
    destruct ls as [|l2 ls]; cbn [piecesOK] in *.
    + rewrite not_elem_of_cons. done.
    + destruct IH as [(body & -> & Hbody) IH]. split; [| done].
      exists (c :: body). split; [done |]. rewrite not_elem_of_cons. done.
Qed.

Lemma piecesOK_lines pieces l :
  piecesOK (pieces ++ [l]) ->
  (l = [] -> linesOK pieces) /\ (l <> [] -> linesOK (pieces ++ [l])).
Proof.
  induction pieces as [|p r IH]; intros Hp.
  - split; [done |]. intros Hl. right. done.
  - cbn [app] in Hp. destruct (r ++ [l]) as [|q rest] eqn:Hr; [by destruct r |].
    change (terminated p /\ piecesOK (q :: rest)) in Hp.
    destruct Hp as [Hterm Hp].
    destruct (IH Hp) as [IH1 IH2]. split; intros Hl.
    + specialize (IH1 Hl). destruct r as [|q' r']; [by left |].
      change (terminated p /\ linesOK (q' :: r')). done.
    + specialize (IH2 Hl). cbn [app]. rewrite Hr.
      change (terminated p /\ linesOK (q :: rest)). done.
Qed.

Lemma splitLines_shape (t : Text) :
  exists lines, Myers.splitLines t = Returns lines /\
    concat lines = t /\ linesOK lines /\ Forall (fun l => l <> []) lines.
Proof.
  destruct (splitLines_spec t) as (lines & Hrun & Hcat).
  exists lines. split; [done |]. split; [done |].
  assert (Hok : linesOK lines).
  { pose proof (SplitAfter_pieces t) as Hp.
    destruct (SplitAfter_concat t) as [_ Hne]. revert Hrun. unfold Myers.splitLines.
    set (pieces := Myers.SplitAfter t) in *.
    destruct (exists_last Hne) as (init & l & Hpieces).
    assert (Hlen : len pieces = len init + 1) by (rewrite Hpieces, len_app, len_cons, len_nil; lia).
    pose proof (len_nonneg init).
    rewrite (index_Returns [] pieces) by lia.
    replace (pieces !! Z.to_nat (len pieces - 1)) with (Some l).
    2:{ rewrite Hpieces. symmetry.
        replace (Z.to_nat (len (init ++ [l]) - 1)) with (length init + 0)%nat
          by (rewrite <- Hpieces; unfold len in *; lia).
        by rewrite lookup_app_r, Nat.add_comm, Nat.add_sub by lia. }
    cbn [mbind outcome_bind default from_option id].
    rewrite Hpieces in Hp. apply piecesOK_lines in Hp as [Hp1 Hp2].
    destruct (Z.eqb_spec (len l) 0) as [Hl0 | Hl0]; cbv iota.
    - unfold slice_to. rewrite slice_ok by lia. intros [= <-].
      assert (l = []) as -> by (destruct l; [done | rewrite len_cons in Hl0; pose proof (len_nonneg l); lia]).
      replace (segment pieces 0 (len pieces - 1)) with init; [by apply Hp1 |].
      unfold segment. rewrite drop_0, Hpieces.
      replace (Z.to_nat (len (init ++ [[]]) - 1 - 0)) with (length init)
        by (rewrite <- Hpieces; unfold len in *; lia).
      by rewrite take_app_length.
    - intros [= <-]. rewrite Hpieces. apply Hp2. intros ->. by rewrite len_nil in Hl0. }
  split; [done |].
  clear Hrun Hcat. induction lines as [|l r IH]; [done |].
  cbn [linesOK] in Hok. destruct r as [|l2 r].
  - constructor; [| done]. destruct Hok as [(body & -> & _) | [? _]]; [by destruct body | done].
  - destruct Hok as [(body & -> & _) Hok]. constructor; [by destruct body | by apply IH].
Qed.

(** X4. [splitLines(t)] never panics; the lines it returns concatenate to
    [t]; each line ends in its only ['\n'], except that the last one may be a
    non-empty line without ['\n']; no line is empty. *)
Theorem splitLines_lines (t : Text) :
  exists lines, Myers.splitLines t = Returns lines /\
    concat lines = t /\ linesOK lines /\ Forall (fun l => l <> []) lines.
Proof. apply splitLines_shape. Qed.

(** ** myers: the edits *)

(** Offset [p] of [t] is a line boundary: the start of the text, its end,
    or just after a ['\n']. *)
Definition boundary (t : Text) (p : Z) : Prop := p = 0 \/ p = len t \/ afterNL t p.

(** An edit that deletes whole lines of [before], or that inserts whole
    lines of [after] between two lines of [before]. *)
Definition wholeLines (before after : Text) (e : Edit) : Prop :=
  boundary before (Start e) /\ boundary before (End e) /\
  ((New e = [] /\ Start e < End e) \/
   (Start e = End e /\ New e <> [] /\
    exists p q, boundary after p /\ boundary after q /\ New e = segment after p q)).

Lemma linesOK_terminated lines : forall (i : nat) l,
  linesOK lines -> lines !! i = Some l -> (S i < length lines)%nat -> terminated l.
Proof.
  induction lines as [|l0 r IH]; intros i l Hok Hl Hlt; [done |].
  destruct r as [|l1 r]; [simpl in Hlt; lia |].
  change (terminated l0 /\ linesOK (l1 :: r)) in Hok. destruct Hok as [Ht Hok].
  destruct i as [|i]; [by injection Hl as <- |].
  apply (IH i l Hok Hl). simpl in *. lia.
Qed.

Lemma lineOffset_boundary (a : list Text) x :
  linesOK a -> 0 <= x <= len a -> boundary (concat a) (lineOffset a x).
Proof.
  intros Hok Hx. destruct (decide (x = 0)) as [-> | Hx0]; [by left |].
  destruct (decide (x = len a)) as [-> | HxM]; [right; left; apply lineOffset_len |].
  right. right.
  destruct (lookup_lt_is_Some_2 a (Z.to_nat (x - 1))) as [l Hl]; [unfold len in Hx; lia |].
  destruct (linesOK_terminated a _ l Hok Hl) as (body & -> & _); [unfold len in *; lia |].
  assert (Htake : take (Z.to_nat x) a = take (Z.to_nat (x - 1)) a ++ [body ++ [NL]]).
  { replace (Z.to_nat x) with (S (Z.to_nat (x - 1))) by lia. by apply take_S_r. }
  unfold afterNL, lineOffset. rewrite Htake, concat_app. cbn [concat]. rewrite app_nil_r.
  set (pre := concat (take (Z.to_nat (x - 1)) a)).
  pose proof (len_nonneg pre). pose proof (len_nonneg body).
  rewrite !len_app. change (len [NL]) with 1. split; [lia |].
  assert (Hcat : concat a = pre ++ body ++ [NL] ++ concat (drop (Z.to_nat x) a)).
  { transitivity (concat (take (Z.to_nat x) a ++ drop (Z.to_nat x) a)); [by rewrite take_drop |].
    rewrite Htake, !concat_app. cbn [concat]. by rewrite app_nil_r, <- !app_assoc. }
  rewrite Hcat.
  rewrite lookup_app_r by (unfold len; lia).
  rewrite lookup_app_r by (unfold len; lia).
  replace (Z.to_nat (len pre + (len body + 1) - 1) - length pre - length body)%nat
    with 0%nat by (unfold len; lia).
  done.
Qed.

Lemma len_concat_lines (a : list Text) x n :
  Forall (fun l => l <> []) a -> 0 <= x -> 0 < n -> x + n <= len a ->
  0 < len (concat (segment a x (x + n))).
Proof.
  intros Hne Hx Hn Hle.
  destruct (lookup_lt_is_Some_2 a (Z.to_nat x)) as [l Hl]; [unfold len in Hle; lia |].
  rewrite <- (segment_app a x (x + 1) (x + n)) by lia.
  rewrite (segment_one a x l) by done. cbn [app concat]. rewrite len_app.
  pose proof (len_nonneg (concat (segment a (x + 1) (x + n)))).
  pose proof (Forall_lookup_1 _ _ _ _ Hne Hl) as Hl0. cbn beta in Hl0.
  destruct l as [|c l]; [done |]. rewrite len_cons. pose proof (len_nonneg l). lia.
Qed.

Lemma editsLoop_lines (a b : list Text) x y ops x' y' :
  linesOK a -> linesOK b -> Forall (fun l => l <> []) a ->
  script a b x y ops x' y' -> x' = len a -> y' = len b -> 0 <= x -> 0 <= y ->
  forall edits,
  exists E, Myers.editsLoop ops (Myers.lineOffsetsFrom a 0) b edits = Returns (edits ++ E) /\
    Forall (wholeLines (concat a) (concat b)) E.
Proof.
  intros Hoka Hokb Hne.
  induction 1 as [| x y ops x' y' He Hs IH | x y n ops x' y' Hn Hle Hs IH
                  | x y n ops x' y' Hn Hle Hs IH]; intros Hx' Hy' Hx Hy edits.
  - exists []. by rewrite app_nil_r.
  - apply IH; (done || lia).
  - cbn [Myers.editsLoop Myers.Start Myers.End Myers.Kind].
    rewrite !index_lineOffsets by lia. cbn [mbind outcome_bind].
    destruct (IH Hx' Hy' ltac:(lia) ltac:(lia)
                (edits ++ [mkEdit (lineOffset a x) (lineOffset a (x + n)) []]))
      as (E & -> & HE).
    eexists (_ :: E). split; [by rewrite <- app_assoc |].
    constructor; [| done]. unfold wholeLines. cbn [Start End New].
    split; [apply lineOffset_boundary; (done || lia) |].
    split; [apply lineOffset_boundary; (done || lia) |].
    left. split; [done |]. rewrite (lineOffset_add a x (x + n)) by lia.
    pose proof (len_concat_lines a x n Hne). lia.
  - pose proof (script_le _ _ _ _ _ _ _ Hs) as [Hxle Hyle].
    cbn [Myers.editsLoop Myers.Start Myers.End Myers.Kind Myers.ReplStart Myers.ReplEnd].
    rewrite !index_lineOffsets by lia. cbn [mbind outcome_bind].
    rewrite slice_ok by lia. cbn [mbind outcome_bind].
    set (content := concat (segment b y (y + n))).
    destruct (Z.eqb_spec (len content) 0) as [H0 | H0]; cbn [negb].
    + apply IH; (done || lia).
    + destruct (IH Hx' Hy' ltac:(lia) ltac:(lia)
                  (edits ++ [mkEdit (lineOffset a x) (lineOffset a x) content]))
        as (E & -> & HE).
      eexists (_ :: E). split; [by rewrite <- app_assoc |].
      constructor; [| done]. unfold wholeLines. cbn [Start End New].
      split; [apply lineOffset_boundary; (done || lia) |].
      split; [apply lineOffset_boundary; (done || lia) |].
      right. split; [done |]. split; [intros Hc; by rewrite Hc, len_nil in H0 |].
      exists (lineOffset b y), (lineOffset b (y + n)).
      split; [apply lineOffset_boundary; (done || lia) |].
      split; [apply lineOffset_boundary; (done || lia) |].
      subst content. by rewrite lineOffset_segment by lia.
Qed.

(** X5. Every edit that [ComputeEdits(before, after)] returns works on whole
    lines: it starts and ends at a line boundary of [before] and either
    deletes the lines between (nothing is inserted, and at least one byte is
    deleted) or inserts, between two lines of [before], a non-empty run of
    whole lines of [after]. *)
Theorem ComputeEdits_whole_lines (before after : Text) :
  exists E, Myers.ComputeEdits before after = Returns E /\
    Forall (wholeLines before after) E.
Proof.
  unfold Myers.ComputeEdits.
  destruct (splitLines_shape before) as (a & -> & Ha & Hoka & Hnea).
  destruct (splitLines_shape after) as (b & -> & Hb & Hokb & _). cbn [mbind outcome_bind].
  destruct (Operations_spec a b) as (ops & -> & Hs & _). cbn [mbind outcome_bind].
  destruct (editsLoop_lines a b 0 0 ops _ _ Hoka Hokb Hnea Hs eq_refl eq_refl
              ltac:(lia) ltac:(lia) []) as (E & -> & HE).
  exists E. by rewrite Ha, Hb in HE.
Qed.

(** ** myers: the forward pass *)

(** X6. [shortestEditSequence(a, b)] panics with an index out of range when
    both sequences are empty (the case that [Operations] returns from
    beforehand).  Otherwise it returns the offset [N + M] and a trace of
    [N + M + 1] entries: for some [D] that is the least number of deleted and
    inserted lines of any path to the end of both sequences, the entries up to
    [D] are arrays of [2(N+M)+1] ints and the entries after [D] are empty.  It
    never leaves its loop by the final [return nil, 0]. *)
Theorem shortestEditSequence_outcome (a b : list Text) :
  if decide (a = [] /\ b = []) then
    Myers.shortestEditSequence a b = Panics IndexRange
  else
    exists trace D,
      Myers.shortestEditSequence a b = Returns (trace, len b + len a) /\
      len trace = len b + len a + 1 /\
      0 <= D <= len b + len a /\
      reach a b D (len a) (len b) /\
      (forall d, reach a b d (len a) (len b) -> D <= d) /\
      (forall i V, trace !! i = Some V ->
         if decide (Z.of_nat i <= D) then len V = 2 * (len b + len a) + 1 else V = []).
Proof.
  destruct (decide (a = [] /\ b = [])) as [[-> ->] | Hne]; [done |].
  assert (Hoff : 1 <= len b + len a).
  { destruct a as [|? a']; destruct b as [|? b']; [by destruct Hne | ..];
      unfold len; cbn [length]; lia. }
  destruct (shortestEditSequence_spec a b Hoff)
    as (D & snaps & T & -> & HD & Hlen & Hsnaps & HT & Hdiag & Hcur & Hend & Hmin).
  eexists _, D. split; [done |].
  split; [rewrite len_app, len_cons, len_replicate; lia |].
  split; [done |]. split.
  { destruct (Hcur (len a - len b) Hdiag ltac:(lia)) as [[Hr _] _].
    rewrite Hend in Hr. by replace (len a - (len a - len b)) with (len b) in Hr by lia. }
  split.
  { intros d Hr. destruct (Z.le_gt_cases D d) as [? | Hlt]; [done |].
    exfalso. apply (Hmin d); [lia | done]. }
  intros i V HV. unfold len in Hlen.
  destruct (decide (Z.of_nat i <= D)) as [Hi | Hi].
  - destruct (decide (i < length snaps)%nat) as [Hlt | Hge].
    + rewrite lookup_app_l in HV by done.
      by destruct (snapsOK_at a b snaps 0 T i V Hsnaps HV) as [? _].
    + rewrite lookup_app_r in HV by lia.
      replace (i - length snaps)%nat with 0%nat in HV by lia. by injection HV as <-.
  - rewrite lookup_app_r in HV by lia.
    destruct (i - length snaps)%nat as [|n] eqn:Hn; [lia |].
    cbn [lookup list_lookup] in HV. by apply lookup_replicate in HV as [-> _].
Qed.

(** ** lcs/sequence.go: the loops as they are written *)

Module Sequence.

(** [min(x, y)]. *)
Definition min (x y : Z) : Z := if x <? y then x else y.

Section Loops.

(** The test of the loop on two elements: [==] in the functions on bytes,
    runes, strings and comparable elements, [text.Equal] on lines, the method
    [c.Equal] of the comparer in [commonPrefixLenAnySlices]. *)
Context {T1 T2 : Type} (Equal : T1 -> T2 -> bool).

(** [for i < n && Equal(a[i], b[i]) { i++ }], at most [n] rounds. *)
Fixpoint prefixLoop (fuel : nat) (a : list T1) (b : list T2) (n i : Z) : outcome Z :=
  match fuel with
  | O => Returns i
  | S f =>
      if i <? n then
        x ← index a i; y ← index b i;
        if Equal x y then prefixLoop f a b n (i + 1) else Returns i
      else Returns i
  end.

(** [commonPrefixLenAnySlices(a, b, c)]. *)
Definition commonPrefixLenAnySlices (a : list T1) (b : list T2) : outcome Z :=
  let n := min (len a) (len b) in
  prefixLoop (Z.to_nat n) a b n 0.

(** [for i < n && Equal(a[len(a)-1-i], b[len(b)-1-i]) { i++ }]. *)
Fixpoint suffixLoop (fuel : nat) (a : list T1) (b : list T2) (n i : Z) : outcome Z :=
  match fuel with
  | O => Returns i
  | S f =>
      if i <? n then
        x ← index a (len a - 1 - i); y ← index b (len b - 1 - i);
        if Equal x y then suffixLoop f a b n (i + 1) else Returns i
      else Returns i
  end.

(** [commonSuffixLenAnySlices(a, b, c)]. *)
Definition commonSuffixLenAnySlices (a : list T1) (b : list T2) : outcome Z :=
  let n := min (len a) (len b) in
  suffixLoop (Z.to_nat n) a b n 0.

End Loops.

(** [commonPrefixLenSlices] and [commonSuffixLenSlices], on comparable
    elements. *)
Definition commonPrefixLenSlices {T} `{EqDecision T} (a b : list T) : outcome Z :=
  commonPrefixLenAnySlices (fun x y => bool_decide (x = y)) a b.

Definition commonSuffixLenSlices {T} `{EqDecision T} (a b : list T) : outcome Z :=
  commonSuffixLenAnySlices (fun x y => bool_decide (x = y)) a b.

(** The functions on bytes and on strings (sequences of bytes). *)
Definition commonPrefixLenBytes (a b : Text) : outcome Z := commonPrefixLenSlices a b.
Definition commonSuffixLenBytes (a b : Text) : outcome Z := commonSuffixLenSlices a b.
Definition commonPrefixLenString (a b : Text) : outcome Z := commonPrefixLenSlices a b.
Definition commonSuffixLenString (a b : Text) : outcome Z := commonSuffixLenSlices a b.

(** The functions on runes ([int32] code points). *)
Definition commonPrefixLenRunes (a b : list Z) : outcome Z := commonPrefixLenSlices a b.
Definition commonSuffixLenRunes (a b : list Z) : outcome Z := commonSuffixLenSlices a b.

(** The functions on lines, which are compared with [text.Equal]. *)
Definition commonPrefixLenLines (a b : list Text) : outcome Z :=
  commonPrefixLenAnySlices Myers.TextEqual a b.
Definition commonSuffixLenLines (a b : list Text) : outcome Z :=
  commonSuffixLenAnySlices Myers.TextEqual a b.

End Sequence.

(** The elements at index [j] of both sequences exist and pass the test. *)
Definition agreeAt {T1 T2} (Equal : T1 -> T2 -> bool) (a : list T1) (b : list T2) (j : Z)
  : Prop :=
  exists x y, a !! Z.to_nat j = Some x /\ b !! Z.to_nat j = Some y /\ Equal x y = true.

Lemma prefixLoop_spec {T1 T2} (Equal : T1 -> T2 -> bool) a b n (fuel : nat) : forall i,
  0 <= i <= n -> n <= len a -> n <= len b -> n - i <= Z.of_nat fuel ->
  (forall j, 0 <= j < i -> agreeAt Equal a b j) ->
  exists p, Sequence.prefixLoop Equal fuel a b n i = Returns p /\
    i <= p <= n /\ (forall j, 0 <= j < p -> agreeAt Equal a b j) /\
    (p < n -> ~ agreeAt Equal a b p).
Proof.
  induction fuel as [|fuel IH]; intros i Hi Ha Hb Hfuel Hall.
  - exists i. split; [done |]. split; [lia |]. split; [done |]. lia.
  - cbn [Sequence.prefixLoop]. destruct (Z.ltb_spec i n) as [Hlt | Hge].
    2:{ exists i. split; [done |]. split; [lia |]. split; [done |]. lia. }
    destruct (index_ok a i) as (x & -> & Hx); [lia |].
    destruct (index_ok b i) as (y & -> & Hy); [lia |].
    cbn [mbind outcome_bind]. destruct (Equal x y) eqn:Hxy.
    + destruct (IH (i + 1)) as (p & -> & Hp & Hpall & Hpmax); try lia.
      * intros j Hj. destruct (decide (j = i)) as [-> | ?]; [by exists x, y | apply Hall; lia].
      * exists p. split; [done |]. split; [lia | done].
    + exists i. split; [done |]. split; [lia |]. split; [done |].
      intros _ (x' & y' & Hx' & Hy' & Heq). congruence.
Qed.

Lemma min_spec x y : Sequence.min x y = Z.min x y.
Proof. unfold Sequence.min. destruct (Z.ltb_spec x y); lia. Qed.

(** X7. The prefix loop of [lcs/sequence.go] ([commonPrefixLenAnySlices],
    and with it the variants on bytes, runes, strings, lines and comparable
    elements) never panics, and returns the length [p] of the longest prefix
    on which the two sequences pass the test element by element: [p] is at
    most both lengths, the test holds at every index below [p], and it fails
    at index [p] when both sequences are longer than [p]. *)
Theorem commonPrefixLenAnySlices_longest {T1 T2 : Type} (Equal : T1 -> T2 -> bool)
    (a : list T1) (b : list T2) :
  exists p, Sequence.commonPrefixLenAnySlices Equal a b = Returns p /\
    0 <= p /\ p <= len a /\ p <= len b /\
    (forall j, 0 <= j < p -> agreeAt Equal a b j) /\
    (p < len a -> p < len b -> ~ agreeAt Equal a b p).
Proof.
  unfold Sequence.commonPrefixLenAnySlices. rewrite min_spec.
  pose proof (len_nonneg a). pose proof (len_nonneg b).
  destruct (prefixLoop_spec Equal a b (Z.min (len a) (len b))
              (Z.to_nat (Z.min (len a) (len b))) 0)
    as (p & -> & Hp & Hall & Hmax); try lia.
  exists p. split; [done |]. split_and!; try lia; [done |].
  intros ? ?. apply Hmax. lia.
Qed.

Lemma lookup_rev {A} (s : list A) (i : nat) :
  (i < length s)%nat -> rev s !! i = s !! (length s - S i)%nat.
Proof. intros Hi. rewrite rev_alt. by apply reverse_lookup. Qed.

Lemma index_from_end {A} (s : list A) i :
  0 <= i -> index s (len s - 1 - i) = index (rev s) i.
Proof.
  intros Hi. unfold index, len. rewrite length_rev.
  destruct (Z.ltb_spec i (Z.of_nat (length s))) as [Hlt | Hge].
  - replace ((0 <=? Z.of_nat (length s) - 1 - i) && (Z.of_nat (length s) - 1 - i <? Z.of_nat (length s)))
      with true by (symmetry; apply andb_true_iff; rewrite Z.leb_le, Z.ltb_lt; lia).
    replace (0 <=? i) with true by (symmetry; apply Z.leb_le; lia). cbn [andb].
    rewrite lookup_rev by lia.
    by replace (Z.to_nat (Z.of_nat (length s) - 1 - i)) with (length s - S (Z.to_nat i))%nat by lia.
  - replace (0 <=? Z.of_nat (length s) - 1 - i) with false by (symmetry; apply Z.leb_gt; lia).
    by rewrite andb_false_r.
Qed.

Lemma suffixLoop_rev {T1 T2} (Equal : T1 -> T2 -> bool) a b n (fuel : nat) : forall i,
  0 <= i ->
  Sequence.suffixLoop Equal fuel a b n i = Sequence.prefixLoop Equal fuel (rev a) (rev b) n i.
Proof.
  induction fuel as [|fuel IH]; intros i Hi; [done |].
  cbn [Sequence.suffixLoop Sequence.prefixLoop].
  rewrite !index_from_end by done.
  destruct (i <? n); [| done].
  destruct (index (rev a) i) as [x | e]; [| done]. cbn [mbind outcome_bind].
  destruct (index (rev b) i) as [y | e]; [| done]. cbn [mbind outcome_bind].
  destruct (Equal x y); [| done]. apply IH. lia.
Qed.

Lemma commonSuffix_as_prefix {T1 T2} (Equal : T1 -> T2 -> bool) a b :
  Sequence.commonSuffixLenAnySlices Equal a b =
  Sequence.commonPrefixLenAnySlices Equal (rev a) (rev b).
Proof.
  unfold Sequence.commonSuffixLenAnySlices, Sequence.commonPrefixLenAnySlices, len.
  rewrite !length_rev. by apply suffixLoop_rev.
Qed.

(** X8. The suffix loop of [lcs/sequence.go] ([commonSuffixLenAnySlices] and
    its variants), which indexes both sequences from their last elements,
    never panics and returns what the prefix loop returns on the reversed
    sequences. *)
Theorem commonSuffixLenAnySlices_reversed {T1 T2 : Type} (Equal : T1 -> T2 -> bool)
    (a : list T1) (b : list T2) :
  exists q, Sequence.commonSuffixLenAnySlices Equal a b = Returns q /\
    Sequence.commonPrefixLenAnySlices Equal (rev a) (rev b) = Returns q /\
    0 <= q /\ q <= len a /\ q <= len b.
Proof.
  rewrite commonSuffix_as_prefix.
  unfold Sequence.commonPrefixLenAnySlices. rewrite min_spec.
  pose proof (len_nonneg (rev a)). pose proof (len_nonneg (rev b)).
  destruct (prefixLoop_spec Equal (rev a) (rev b) (Z.min (len (rev a)) (len (rev b)))
              (Z.to_nat (Z.min (len (rev a)) (len (rev b)))) 0)
    as (q & -> & Hq & _); try lia.
  exists q. unfold len in *. rewrite !length_rev in *. split_and!; (done || lia).
Qed.




(** ** diff.go: sorting and validation *)

(** X11. On edits whose starts are offsets ([0 <= start <= MaxInt64], so
    that the difference of two starts does not overflow) [SortEdits] returns a
    permutation of its argument in ascending order of (start, end); edits with
    the same start and end keep the order they had; and sorting once more
    changes nothing. *)
Theorem SortEdits_on_offsets (E : list Edit) :
  Forall offsetStart E ->
  SortEdits E ≡ₚ E /\
  StronglySorted (fun a b => ~ ltEdit b a) (SortEdits E) /\
  (forall s e, filter (sameKey s e) (SortEdits E) = filter (sameKey s e) E) /\
  SortEdits (SortEdits E) = SortEdits E.
Proof.
  intros HE. split; [apply Stable_perm |]. split; [by apply SortEdits_sorted |].
  split; [intros s e; by apply SortEdits_stable | by apply SortEdits_idempotent].
Qed.

Lemma SortEdits_on_offsets_witness :
  let E := [mkEdit 6 6 [x42]; mkEdit 0 4 []; mkEdit 6 6 [x43]; mkEdit 0 0 [x41]] in
  SortEdits E ≡ₚ E /\
  StronglySorted (fun a b => ~ ltEdit b a) (SortEdits E) /\
  (forall s e, filter (sameKey s e) (SortEdits E) = filter (sameKey s e) E) /\
  SortEdits (SortEdits E) = SortEdits E.
Proof.
  apply SortEdits_on_offsets.
  repeat constructor; unfold offsetStart, GoInt.int_max; cbn [Start]; lia.
Defined.

(** X12. The list that a successful [Validate] returns is a fixed point of
    validation: validated again against the same length it is returned as it
    is, with the same size and no error. *)
Theorem Validate_idempotent (L : Z) (E E' : list Edit) (size : Z) :
  L <= GoInt.int_max ->
  Validate L E = (E', size, None) ->
  Validate L E' = (E', size, None).
Proof.
  intros HL (_ & Hf & Ho & ->)%Validate_None. by apply Validate_ordered.
Qed.

Lemma Validate_idempotent_witness :
  Validate 6 [mkEdit 0 0 [x41]; mkEdit 0 4 []; mkEdit 6 6 [x43]] =
    ([mkEdit 0 0 [x41]; mkEdit 0 4 []; mkEdit 6 6 [x43]], 4, None).
Proof.
  apply (Validate_idempotent 6 [mkEdit 6 6 [x43]; mkEdit 0 4 []; mkEdit 0 0 [x41]]).
  - vm_compute. discriminate.
  - reflexivity.
Defined.

Lemma sortedEdits_presorted E :
  Forall offsetStart E -> sortedEdits (SortEdits E) = sortedEdits E.
Proof.
  intros HE. rewrite !sortedEdits_SortEdits. by apply SortEdits_idempotent.
Qed.

(** X13. Sorting the edits beforehand makes no difference: on edits whose
    starts are offsets, [Validate], [Apply], [lineEdits] and [ApplyTo] return
    on [SortEdits(E)] what they return on [E]. *)
Theorem presorted_same (src : Text) (L : Z) (dst : IO.Writer) (r : IO.Reader) (E : list Edit) :
  Forall offsetStart E ->
  Validate L (SortEdits E) = Validate L E /\
  Apply src (SortEdits E) = Apply src E /\
  lineEdits src (SortEdits E) = lineEdits src E /\
  ApplyTo dst r L (SortEdits E) = ApplyTo dst r L E.
Proof.
  intros HE.
  assert (HV : forall L, Validate L (SortEdits E) = Validate L E).
  { intros L'. unfold Validate. by rewrite sortedEdits_presorted. }
  unfold Apply, lineEdits, ApplyTo. by rewrite !HV.
Qed.

Lemma presorted_same_witness :
  let E := [mkEdit 1 2 []; mkEdit 0 0 [x41]] in
  Validate 2 (SortEdits E) = Validate 2 E /\
  Apply [x61; x62] (SortEdits E) = Apply [x61; x62] E /\
  lineEdits [x61; x62] (SortEdits E) = lineEdits [x61; x62] E /\
  ApplyTo IO.Discard [x61; x62] 2 (SortEdits E) = ApplyTo IO.Discard [x61; x62] 2 E.
Proof.
  apply presorted_same.
  repeat constructor; unfold offsetStart, GoInt.int_max; cbn [Start]; lia.
Defined.

(** ** diff.go: Apply on short lists *)

#[local] Instance inBounds_decision L e : Decision (inBounds L e).
Proof. unfold inBounds. apply _. Defined.

(** X14. [Apply] with no edits returns the source.  With one edit it
    returns the source with the span of the edit replaced by the new text
    when the edit is in bounds ([0 <= start <= end <= len(src)]), and the
    empty text with the out-of-bounds error otherwise. *)
Theorem Apply_short (src : Text) (e : Edit) :
  Apply src [] = Returns (src, None) /\
  Apply src [e] =
    if decide (inBounds (len src) e)
    then Returns (segment src 0 (Start e) ++ New e ++ segment src (End e) (len src), None)
    else Returns ([], Some ErrOutOfBounds).
Proof.
  split.
  - destruct (Apply_valid src [] [] (len src)) as [-> _].
    + apply Validate_None. split; [done |]. split; [done |]. split; [done |]. cbn. lia.
    + cbn [patched]. by rewrite segment_all.
  - destruct (decide (inBounds (len src) e)) as [Hin | Hout].
    + destruct (Apply_valid src [e] [e] (len src + sizeDelta [e])) as [-> _]; [| done].
      apply Validate_None. split; [done |]. split; [by constructor |].
      split; [| done]. destruct Hin as (? & ? & ?). cbn [ordered]. done.
    + unfold Apply, Validate. change (sortedEdits [e]) with [e]. cbn [validateLoop].
      destruct ((0 <=? Start e) && (Start e <=? End e) && (End e <=? len src)) eqn:Hb; [| done].
      by apply inBounds_dec in Hb.
Qed.

Lemma Less_same_start p e1 e2 s t :
  Less (mkEdit p e1 s) (mkEdit p e2 t) = (e1 <? e2).
Proof. unfold Less, GoInt.sub. cbn [Start End]. by rewrite Z.sub_diag. Qed.

(** X15. Edits at the same start offset: two insertions at the same offset
    are applied in the order in which they are given, and an insertion at the
    start offset of a replacement is applied before the replacement,
    whichever of the two comes first in the list. *)
Theorem Apply_same_start (src s t : Text) (p q : Z) :
  0 <= p -> p <= q -> q <= len src ->
  Apply src [mkEdit p p s; mkEdit p p t] =
    Returns (segment src 0 p ++ s ++ t ++ segment src p (len src), None) /\
  (p < q ->
   Apply src [mkEdit p p t; mkEdit p q s] =
     Returns (segment src 0 p ++ t ++ s ++ segment src q (len src), None) /\
   Apply src [mkEdit p q s; mkEdit p p t] =
     Returns (segment src 0 p ++ t ++ s ++ segment src q (len src), None)).
Proof.
  intros Hp Hpq Hq.
  assert (Hrun : forall E E', sortedEdits E = E' -> Forall (inBounds (len src)) E' ->
            ordered 0 E' -> Apply src E = Returns (patched src 0 E', None)).
  { intros E E' HE Hf Ho.
    destruct (Apply_valid src E E' (len src + sizeDelta E')) as [-> _]; [| done].
    by apply Validate_None. }
  assert (Hin : forall e u, 0 <= p -> p <= e -> e <= len src -> inBounds (len src) (mkEdit p e u))
    by (intros; unfold inBounds; cbn [Start End]; lia).
  split; [| intros Hlt; split].
  - rewrite (Hrun _ [mkEdit p p s; mkEdit p p t]).
    + cbn [patched Start End New]. by rewrite (segment_empty src p p) by lia.
    + unfold sortedEdits. cbn [Sort.IsSorted]. by rewrite Less_same_start, Z.ltb_irrefl.
    + repeat constructor; apply Hin; lia.
    + cbn [ordered Start End]. lia.
  - rewrite (Hrun _ [mkEdit p p t; mkEdit p q s]).
    + cbn [patched Start End New]. by rewrite (segment_empty src p p) by lia.
    + unfold sortedEdits. cbn [Sort.IsSorted]. rewrite Less_same_start.
      by replace (q <? p) with false by (symmetry; apply Z.ltb_ge; lia).
    + repeat constructor; apply Hin; lia.
    + cbn [ordered Start End]. lia.
  - rewrite (Hrun _ [mkEdit p p t; mkEdit p q s]).
    + cbn [patched Start End New]. by rewrite (segment_empty src p p) by lia.
    + unfold sortedEdits. cbn [Sort.IsSorted]. rewrite Less_same_start.
      replace (p <? q) with true by (symmetry; apply Z.ltb_lt; lia). cbn [negb andb].
      unfold SortEdits, Sort.Stable, Sort.insertionSort. cbn [fold_left Sort.sift].
      rewrite Less_same_start.
      replace (p <? q) with true by (symmetry; apply Z.ltb_lt; lia). done.
    + repeat constructor; apply Hin; lia.
    + cbn [ordered Start End]. lia.
Qed.

Lemma Apply_same_start_witness :
  Apply [x61; x62] [mkEdit 1 1 [x41]; mkEdit 1 1 [x42]] =
    Returns (segment [x61; x62] 0 1 ++ [x41] ++ [x42] ++ segment [x61; x62] 1 (len [x61; x62]), None) /\
  (1 < 2 ->
   Apply [x61; x62] [mkEdit 1 1 [x42]; mkEdit 1 2 [x41]] =
     Returns (segment [x61; x62] 0 1 ++ [x42] ++ [x41] ++ segment [x61; x62] 2 (len [x61; x62]), None) /\
   Apply [x61; x62] [mkEdit 1 2 [x41]; mkEdit 1 1 [x42]] =
     Returns (segment [x61; x62] 0 1 ++ [x42] ++ [x41] ++ segment [x61; x62] 2 (len [x61; x62]), None)).
Proof.
  apply (Apply_same_start [x61; x62] [x41] [x42] 1 2); [lia | lia | vm_compute; discriminate].
Defined.

(** ** diff.go: line expansion *)

(** X16. [expandEdit(edit, src)] on an edit that is in bounds returns the
    edit grown to whole lines with the same effect on the source: its start
    is the start of the line of [edit.Start] (no ['\n'] lies between the two),
    its end is just after the first ['\n'] at or after [edit.End], or the end
    of the source when there is none (so the end moves forward whenever
    [edit.End] is before the end of the source, even from a line start), and
    its new text is the old one between the two pieces of the source that the
    edit has grown over. *)
Theorem expandEdit_widens (src : Text) (e : Edit) :
  inBounds (len src) e ->
  exists e', expandEdit e src = Returns e' /\
    (0 <= Start e' <= Start e /\ lineStart src (Start e') /\
     forall q, Start e' <= q < Start e -> src !! Z.to_nat q <> Some NL) /\
    (End e <= End e' <= len src /\ (End e' = len src \/ afterNL src (End e')) /\
     (End e < len src -> End e < End e') /\
     forall q, End e <= q < End e' - 1 -> src !! Z.to_nat q <> Some NL) /\
    New e' = segment src (Start e') (Start e) ++ New e ++ segment src (End e) (End e') /\
    segment src 0 (Start e') ++ New e' ++ segment src (End e') (len src) =
      segment src 0 (Start e) ++ New e ++ segment src (End e) (len src).
Proof.
  intros Hin. rewrite (expandEdit_eq src e Hin). destruct Hin as (H0 & Hse & Hel).
  pose proof (lineBegin_spec src (Start e) ltac:(lia)) as (Hb & Hbs & Hbmax).
  pose proof (lineEnd_spec src (End e) ltac:(lia)) as (He & Hes & Hemin).
  eexists. split; [reflexivity |]. cbn [Start End New].
  split; [split; [lia |]; split; [done |] |].
  { intros q Hq Hnl. specialize (Hbmax q ltac:(lia) Hnl). lia. }
  split; [split; [lia |]; split; [done |]; split |].
  { intros Hlt. unfold lineEnd in *.
    pose proof (IndexByte_range (segment src (End e) (len src)) NL).
    destruct (IndexByte (segment src (End e) (len src)) NL <? 0) eqn:Hnl; [lia |].
    apply Z.ltb_ge in Hnl. lia. }
  { intros q Hq Hnl. specialize (Hemin q ltac:(lia) Hnl). lia. }
  split; [done |].
  rewrite <- !app_assoc, !app_assoc, (segment_app src 0) by lia.
  rewrite <- !app_assoc. do 2 f_equal. apply segment_app; lia.
Qed.

Lemma expandEdit_widens_witness :
  exists e', expandEdit (mkEdit 0 2 []) [x61; x0a; x62; x0a] = Returns e' /\
    (0 <= Start e' <= 0 /\ lineStart [x61; x0a; x62; x0a] (Start e') /\
     forall q, Start e' <= q < 0 -> [x61; x0a; x62; x0a] !! Z.to_nat q <> Some NL) /\
    (2 <= End e' <= len [x61; x0a; x62; x0a] /\
     (End e' = len [x61; x0a; x62; x0a] \/ afterNL [x61; x0a; x62; x0a] (End e')) /\
     (2 < len [x61; x0a; x62; x0a] -> 2 < End e') /\
     forall q, 2 <= q < End e' - 1 -> [x61; x0a; x62; x0a] !! Z.to_nat q <> Some NL) /\
    New e' = segment [x61; x0a; x62; x0a] (Start e') 0 ++ [] ++
             segment [x61; x0a; x62; x0a] 2 (End e') /\
    segment [x61; x0a; x62; x0a] 0 (Start e') ++ New e' ++
      segment [x61; x0a; x62; x0a] (End e') (len [x61; x0a; x62; x0a]) =
      segment [x61; x0a; x62; x0a] 0 0 ++ [] ++
      segment [x61; x0a; x62; x0a] 2 (len [x61; x0a; x62; x0a]).
Proof.
  apply (expandEdit_widens [x61; x0a; x62; x0a] (mkEdit 0 2 [])).
  unfold inBounds. cbn [Start End]. vm_compute. repeat split; discriminate.
Defined.

Lemma expandLoop_length src edits : forall prev expanded r,
  expandLoop src prev edits expanded = Returns r ->
  (length expanded < length r <= length expanded + S (length edits))%nat.
Proof.
  induction edits as [|edit rest IH]; intros prev expanded r; cbn [expandLoop].
  - destruct (expandEdit prev src) as [e | ?]; [| done]. cbn [mbind outcome_bind].
    intros [= <-]. rewrite length_app. simpl. lia.
  - destruct (slice src (End prev) (Start edit)) as [between | ?]; [| done].
    cbn [mbind outcome_bind]. destruct (negb (ContainsNL between)).
    + intros Hr. apply IH in Hr. simpl. lia.
    + destruct (expandEdit prev src) as [e | ?]; [| done]. cbn [mbind outcome_bind].
      intros Hr. apply IH in Hr. rewrite length_app in Hr. simpl in *. lia.
Qed.

Lemma lineEdits_shape (src : Text) (E E' : list Edit) (size : Z) :
  Validate (len src) E = (E', size, None) ->
  exists LE,
    lineEdits src E = Returns (LE, None) /\
    Forall (inBounds (len src)) LE /\ ordered 0 LE /\
    patched src 0 LE = patched src 0 E' /\
    (length LE <= length E')%nat /\ (LE = [] <-> E' = []).
Proof.
  intros HV. pose proof HV as (HE & Hf & Ho & Hsize)%Validate_None.
  pose proof (len_nonneg src) as Hn.
  destruct (needsExpand_spec src E' Hf) as (b & Hb & Hbi).
  unfold lineEdits. rewrite HV, Hb. cbn [mbind outcome_bind]. destruct b.
  - destruct E' as [|prev rest]; [simpl in Hb; discriminate |].
    inversion Hf as [|? ? Hp Hr]; subst. destruct Ho as [H0 Ho].
    destruct (expandLoop_spec src rest prev [] Hp Hr Ho) as (out & Hrun & Hfo & _ & Hoo & Hpo).
    pose proof (expandLoop_length src rest prev [] _ Hrun) as Hlen.
    rewrite Hrun. cbn [mbind outcome_bind app] in *.
    pose proof Hp as (? & ? & ?).
    pose proof (lineBegin_spec src (Start prev) ltac:(lia)) as (Hbb & _ & _).
    assert (Hoo0 : ordered 0 out) by (eapply ordered_weaken; [| exact Hoo]; lia).
    exists out. split; [done |]. split; [done |]. split; [done |]. split.
    + rewrite <- (patched_segment src 0 (lineBegin src (Start prev)) out) by (auto; lia).
      rewrite Hpo. apply patched_segment; [lia | lia | lia |]. split; [lia | done].
    + cbn [length] in Hlen |- *. split; [lia |].
      split; [intros ->; cbn [length] in Hlen; lia | done].
  - exists E'. split_and!; done.
Qed.

(** X17. For validated edits (on a source whose length is an [int]) the
    list that [lineEdits] returns is itself valid for the source: validation
    returns it as it is, with the size that validation computed for the
    original edits.  It has at most as many edits as the validated list, and
    it is empty only when that list is. *)
Theorem lineEdits_output_valid (src : Text) (E E' : list Edit) (size : Z) :
  len src <= GoInt.int_max ->
  Validate (len src) E = (E', size, None) ->
  exists LE,
    lineEdits src E = Returns (LE, None) /\
    Validate (len src) LE = (LE, size, None) /\
    (length LE <= length E')%nat /\ (LE = [] <-> E' = []).
Proof.
  intros HL HV. pose proof HV as (HE & Hf & Ho & Hsize)%Validate_None.
  pose proof (len_nonneg src) as Hn.
  destruct (lineEdits_shape src E E' size HV) as (LE & Hrun & Hfo & Hoo & Hpat & Hlen & Hnil).
  exists LE. split; [done |]. split; [| done].
  rewrite (Validate_ordered (len src) LE) by done. do 2 f_equal.
  pose proof (len_patched src 0 LE Hfo Hoo ltac:(lia)) as Hlen1.
  pose proof (len_patched src 0 E' Hf Ho ltac:(lia)) as Hlen2.
  rewrite Hpat in Hlen1. lia.
Qed.

Lemma lineEdits_output_valid_witness :
  exists LE,
    lineEdits [x61; x62; x0a; x63] [mkEdit 3 3 [x41]; mkEdit 1 2 []] = Returns (LE, None) /\
    Validate (len [x61; x62; x0a; x63]) LE = (LE, 4, None) /\
    (length LE <= length [mkEdit 1 2 []; mkEdit 3 3 [x41]])%nat /\
    (LE = [] <-> [mkEdit 1 2 []; mkEdit 3 3 [x41]] = []).
Proof.
  apply (lineEdits_output_valid [x61; x62; x0a; x63] [mkEdit 3 3 [x41]; mkEdit 1 2 []]).
  - vm_compute. discriminate.
  - reflexivity.
Defined.

(** ** diff.go: ApplyTo and the length of its reader *)

Lemma inBounds_upto L M lastEnd edits :
  Forall (inBounds L) edits -> ordered lastEnd edits -> 0 <= lastEnd <= L ->
  lastEndOf lastEnd edits <= M -> Forall (inBounds M) edits.
Proof.
  revert lastEnd. induction edits as [|e r IH]; intros lastEnd Hf Ho Hl HM; [done |].
  inversion Hf as [|? ? (? & ? & ?) Hr]; subst. destruct Ho as [? Ho].
  cbn [lastEndOf] in HM.
  pose proof (lastEndOf_bounds L (End e) r Hr Ho ltac:(lia)).
  constructor; [unfold inBounds; lia |].
  apply (IH (End e)); (done || lia).
Qed.

Lemma ApplyTo_valid_reader (r : Text) (L : Z) (E E' : list Edit) (size : Z) (w0 : Text) :
  Validate L E = (E', size, None) -> Forall (inBounds (len r)) E' ->
  ApplyTo (IO.Buffer w0) r L E =
    (IO.Buffer (w0 ++ patched r 0 E'), [], (len (patched r 0 E'), None)).
Proof.
  intros HV Hf. pose proof HV as (_ & _ & Ho & _)%Validate_None.
  pose proof (len_nonneg r).
  destruct (applyToLoop_valid r E' w0 0 0 0 Hf Ho) as (out' & cur' & Ha & ? & ? & Hb);
    [lia .. |].
  destruct (applyLoop_valid r E' w0 0 Hf Ho) as (out2 & Ha2 & Heq); [lia |].
  rewrite Ha in Ha2. injection Ha2 as <-.
  pose proof (lastEndOf_bounds _ 0 _ Hf Ho) as Hbd.
  unfold ApplyTo. rewrite HV.
  change r with (unread r 0) at 1. rewrite Hb.
  cbn [st_src st_dst lastEnd cursor written].
  rewrite (CopyN_Discard r cur' (lastEndOf 0 E' - cur')) by lia.
  replace (cur' + (lastEndOf 0 E' - cur')) with (lastEndOf 0 E') by lia.
  unfold IO.Copy. simpl.
  rewrite unread_segment by lia.
  assert (Hlen : len out' + len (segment r (lastEndOf 0 E') (len r))
                 = len w0 + len (patched r 0 E')).
  { rewrite <- !len_app. by rewrite Heq. }
  rewrite Heq. do 3 f_equal. lia.
Qed.

Lemma CopyN_short_Discard r pos n :
  0 <= pos <= len r -> len r < pos + n ->
  IO.CopyN IO.Discard (unread r pos) n = (IO.Discard, [], (len r - pos, Some ErrEOF)).
Proof.
  intros Hp Hn. unfold IO.CopyN, unread. cbn [IO.Write].
  assert (Hl : len (take (Z.to_nat n) (drop (Z.to_nat pos) r)) = len r - pos).
  { unfold len in *. rewrite length_take, length_drop. lia. }
  rewrite Hl. replace (len r - pos <? n) with true by (symmetry; apply Z.ltb_lt; lia).
  rewrite drop_drop, drop_ge by (unfold len in *; lia). done.
Qed.

Lemma CopyN_short_Buffer out r pos n :
  0 <= pos <= len r -> len r < pos + n ->
  IO.CopyN (IO.Buffer out) (unread r pos) n =
    (IO.Buffer (out ++ unread r pos), [], (len (unread r pos), Some ErrEOF)).
Proof.
  intros Hp Hn. unfold IO.CopyN, unread. cbn [IO.Write].
  assert (Ht : take (Z.to_nat n) (drop (Z.to_nat pos) r) = drop (Z.to_nat pos) r).
  { apply take_ge. unfold len in *. rewrite length_drop. lia. }
  rewrite Ht.
  assert (Hl : len (drop (Z.to_nat pos) r) = len r - pos).
  { unfold len in *. rewrite length_drop. lia. }
  rewrite Hl. replace (len r - pos <? n) with true by (symmetry; apply Z.ltb_lt; lia).
  rewrite drop_drop, (drop_ge r (Z.to_nat pos + Z.to_nat n)) by (unfold len in *; lia). done.
Qed.

#[local] Opaque IO.CopyN unread.

(** When the reader ends before the end of the last edit, the loop of
    [ApplyTo] returns [io.EOF], or it ends with less of the reader left than
    the last skip needs. *)
Lemma applyToLoop_short r edits : forall out cur last w,
  Forall (fun e => 0 <= Start e <= End e) edits -> ordered last edits ->
  0 <= cur -> cur <= last -> cur <= len r ->
  len r < lastEndOf last edits ->
  exists out',
    (exists st, applyToLoop edits (mkApplyTo (IO.Buffer out) (unread r cur) cur last w) =
                  inl (st, ErrEOF) /\
                st_dst st = IO.Buffer (out ++ out') /\ written st = w + len out') \/
    (exists cur', applyToLoop edits (mkApplyTo (IO.Buffer out) (unread r cur) cur last w) =
                    inr (mkApplyTo (IO.Buffer (out ++ out')) (unread r cur') cur'
                           (lastEndOf last edits) (w + len out')) /\
                  0 <= cur' /\ cur' <= len r).
Proof.
  induction edits as [|e rest IH]; intros out cur last w Hf Ho Hc Hcl Hcr Hshort.
  - exists []. right. exists cur. rewrite app_nil_r, len_nil, Z.add_0_r. done.
  - inversion Hf as [|? ? [? ?] Hr]; subst. destruct Ho as [? Ho].
    cbn [lastEndOf] in Hshort. cbn [applyToLoop lastEnd st_src st_dst cursor written].
    destruct (last <? Start e) eqn:Hlt.
    + apply Z.ltb_lt in Hlt.
      destruct (Z.le_gt_cases last (len r)) as [Hle | Hgt].
      2:{ rewrite (CopyN_short_Discard r cur (last - cur)) by lia.
          exists []. left. eexists. split; [reflexivity |].
          cbn [st_dst written]. by rewrite app_nil_r, len_nil, Z.add_0_r. }
      rewrite (CopyN_Discard r cur (last - cur)) by lia.
      replace (cur + (last - cur)) with last by lia.
      destruct (Z.le_gt_cases (Start e) (len r)) as [Hle2 | Hgt2].
      2:{ rewrite (CopyN_short_Buffer out r last (Start e - last)) by lia.
          exists (unread r last). left. eexists. split; [reflexivity |]. done. }
      rewrite (CopyN_Buffer out r last (Start e - last)) by lia.
      replace (last + (Start e - last)) with (Start e) by lia.
      cbn [IO.Write st_src st_dst cursor lastEnd written].
      destruct (IH ((out ++ segment r last (Start e)) ++ New e) (Start e) (End e)
                  (w + (Start e - last) + len (New e)) Hr Ho)
        as (out' & [(st & -> & Hd & Hw) | (cur' & -> & ? & ?)]); try lia.
      * exists (segment r last (Start e) ++ New e ++ out'). left. eexists.
        split; [reflexivity |]. rewrite Hd, Hw, !len_app, len_segment by lia.
        split; [by rewrite <- !app_assoc | lia].
      * exists (segment r last (Start e) ++ New e ++ out'). right. exists cur'.
        split; [| done]. do 2 f_equal; [by rewrite <- !app_assoc |].
        rewrite !len_app, len_segment by lia. lia.
    + apply Z.ltb_ge in Hlt. cbn [IO.Write st_src st_dst cursor lastEnd written].
      destruct (IH (out ++ New e) cur (End e) (w + len (New e)) Hr Ho)
        as (out' & [(st & -> & Hd & Hw) | (cur' & -> & ? & ?)]); try lia.
      * exists (New e ++ out'). left. eexists.
        split; [reflexivity |]. rewrite Hd, Hw, !len_app.
        split; [by rewrite <- !app_assoc | lia].
      * exists (New e ++ out'). right. exists cur'.
        split; [| done]. do 2 f_equal; [by rewrite <- !app_assoc |].
        rewrite !len_app. lia.
Qed.

#[local] Transparent IO.CopyN unread.

(** X18. [ApplyTo] uses [srcLen] for validation only; what it needs of the
    reader is decided by the edits.  For edits that pass validation: when the
    reader holds at least as many bytes as the last edit's end, [ApplyTo]
    succeeds, reads the reader to its end and appends to the (in-memory)
    writer the whole content of the reader as patched by the edits, whatever
    [srcLen] says; when the reader ends before the last edit's end, [ApplyTo]
    returns [io.EOF] together with the number of bytes it has appended to the
    writer until then. *)
Theorem ApplyTo_reader (r : Text) (L : Z) (E E' : list Edit) (size : Z) (w0 : Text) :
  Validate L E = (E', size, None) ->
  if decide (lastEndOf 0 E' <= len r) then
    ApplyTo (IO.Buffer w0) r L E =
      (IO.Buffer (w0 ++ patched r 0 E'), [], (len (patched r 0 E'), None))
  else
    exists out r',
      ApplyTo (IO.Buffer w0) r L E = (IO.Buffer (w0 ++ out), r', (len out, Some ErrEOF)).
Proof.
  intros HV. pose proof HV as (_ & Hf & Ho & _)%Validate_None.
  pose proof (len_nonneg r) as Hr.
  destruct (decide (lastEndOf 0 E' <= len r)) as [Hle | Hgt].
  - apply (ApplyTo_valid_reader r L E E' size w0 HV).
    destruct E' as [|e0 rest]; [done |].
    assert (0 <= L).
    { inversion Hf as [|? ? (? & ? & ?) _]; subst. lia. }
    apply (inBounds_upto L (len r) 0 (e0 :: rest)); (done || lia).
  - assert (Hf' : Forall (fun e => 0 <= Start e <= End e) E').
    { eapply Forall_impl; [exact Hf |]. intros e (? & ? & ?). lia. }
    destruct (applyToLoop_short r E' w0 0 0 0 Hf' Ho) as (out & Hres); try lia.
    unfold ApplyTo. rewrite HV. change r with (unread r 0) at 1.
    destruct Hres as [(st & -> & Hd & Hw) | (cur' & -> & ? & ?)].
    + exists out, (st_src st). by rewrite Hd, Hw.
    + cbn [st_src st_dst lastEnd cursor written].
      rewrite (CopyN_short_Discard r cur' (lastEndOf 0 E' - cur')) by lia.
      by exists out, [].
Qed.

Lemma ApplyTo_reader_witness :
  if decide (lastEndOf 0 [mkEdit 1 1 [x41]; mkEdit 3 4 []] <= len [x61; x62; x63]) then
    ApplyTo (IO.Buffer []) [x61; x62; x63] 4 [mkEdit 3 4 []; mkEdit 1 1 [x41]] =
      (IO.Buffer ([] ++ patched [x61; x62; x63] 0 [mkEdit 1 1 [x41]; mkEdit 3 4 []]), [],
       (len (patched [x61; x62; x63] 0 [mkEdit 1 1 [x41]; mkEdit 3 4 []]), None))
  else
    exists out r',
      ApplyTo (IO.Buffer []) [x61; x62; x63] 4 [mkEdit 3 4 []; mkEdit 1 1 [x41]] =
        (IO.Buffer ([] ++ out), r', (len out, Some ErrEOF)).
Proof.
  apply (ApplyTo_reader [x61; x62; x63] 4 [mkEdit 3 4 []; mkEdit 1 1 [x41]]
           [mkEdit 1 1 [x41]; mkEdit 3 4 []] 4 []).
  reflexivity.
Defined.

(** ** ndiff.go: from rune offsets to byte offsets *)

(** [utf8.RuneLen(r)] of the standard library: the number of bytes of the
    UTF-8 encoding of the rune, -1 for a value that is not a rune. *)
Definition RuneLen (r : Z) : Z :=
  if r <? 0 then -1
  else if r <=? 127 then 1
  else if r <=? 2047 then 2
  else if (55296 <=? r) && (r <=? 57343) then -1
  else if r <=? 65535 then 3
  else if r <=? 1114111 then 4
  else -1.

(** [runesLen(runes)]. *)
Definition runesLen (runes : list Z) : Z :=
  fold_left (fun n r => n + RuneLen r) runes 0.

Section RunePath.

(** [text.ToString], the UTF-8 encoding of a slice of runes, and
    [lcs.DiffRunes], the engine on runes. *)
Variable ToString : list Z -> Text.
Variable DiffRunes : list Z -> list Z -> outcome (list Lcs.Diff).

(** The loop of [diffRunes] over the diffs: [res], [lastEnd], [utf8Len]. *)
Fixpoint diffRunesLoop (before after : list Z) (diffs : list Lcs.Diff)
    (res : list Edit) (lastEnd utf8Len : Z) : outcome (list Edit) :=
  match diffs with
  | [] => Returns res
  | d :: rest =>
      between ← slice before lastEnd (Lcs.Start d);
      let utf8Len := utf8Len + runesLen between in
      let start := utf8Len in
      deleted ← slice before (Lcs.Start d) (Lcs.End d);
      let utf8Len := utf8Len + runesLen deleted in
      new ← slice after (Lcs.ReplStart d) (Lcs.ReplEnd d);
      diffRunesLoop before after rest (res ++ [mkEdit start utf8Len (ToString new)])
        (Lcs.End d) utf8Len
  end.

(** [diffRunes(before, after)]. *)
Definition diffRunes (before after : list Z) : outcome (list Edit) :=
  diffs ← DiffRunes before after;
  diffRunesLoop before after diffs [] 0 0.

End RunePath.

Lemma runesLen_from (runes : list Z) : forall n,
  fold_left (fun n r => n + RuneLen r) runes n = n + runesLen runes.
Proof.
  unfold runesLen. induction runes as [|r rest IH]; intros n; cbn [fold_left]; [lia |].
  rewrite IH, (IH (0 + RuneLen r)). lia.
Qed.

Lemma runesLen_app (a b : list Z) : runesLen (a ++ b) = runesLen a + runesLen b.
Proof. unfold runesLen at 1. rewrite fold_left_app. fold (runesLen a). apply runesLen_from. Qed.

Lemma runesLen_nonneg (runes : list Z) :
  Forall (fun r => 0 < RuneLen r) runes -> 0 <= runesLen runes.
Proof.
  induction 1 as [|r rest Hr _ IH]; [done |].
  change (r :: rest) with ([r] ++ rest). rewrite runesLen_app.
  unfold runesLen at 1. cbn [fold_left]. lia.
Qed.

Lemma take_segment_app {A} (s : list A) x x' :
  0 <= x <= x' -> take (Z.to_nat x') s = take (Z.to_nat x) s ++ segment s x x'.
Proof. intros Hx. unfold segment. rewrite take_take_drop. f_equal. lia. Qed.

(** The byte offset of rune index [i] of [runes]. *)
Definition byteOffset (runes : list Z) (i : Z) : Z := runesLen (take (Z.to_nat i) runes).

(** Diffs that follow each other inside the two rune slices. *)
Fixpoint runeDiffs (M N lastEnd : Z) (diffs : list Lcs.Diff) : Prop :=
  match diffs with
  | [] => True
  | d :: rest =>
      (lastEnd <= Lcs.Start d /\ Lcs.Start d <= Lcs.End d /\ Lcs.End d <= M) /\
      (0 <= Lcs.ReplStart d /\ Lcs.ReplStart d <= Lcs.ReplEnd d /\ Lcs.ReplEnd d <= N) /\
      runeDiffs M N (Lcs.End d) rest
  end.

(** The edit of a diff on runes. *)
Definition runeEdit (ToString : list Z -> Text) (before after : list Z) (d : Lcs.Diff) : Edit :=
  mkEdit (byteOffset before (Lcs.Start d)) (byteOffset before (Lcs.End d))
         (ToString (segment after (Lcs.ReplStart d) (Lcs.ReplEnd d))).

Lemma byteOffset_mono before x x' :
  Forall (fun r => 0 < RuneLen r) before -> 0 <= x <= x' ->
  byteOffset before x <= byteOffset before x'.
Proof.
  intros Hv Hx. unfold byteOffset. rewrite (take_segment_app before x x') by done.
  rewrite runesLen_app.
  assert (0 <= runesLen (segment before x x')); [| lia].
  apply runesLen_nonneg. unfold segment. by apply Forall_take, Forall_drop.
Qed.

Lemma diffRunesLoop_spec ToString before after diffs : forall res lastEnd,
  0 <= lastEnd -> runeDiffs (len before) (len after) lastEnd diffs ->
  diffRunesLoop ToString before after diffs res lastEnd (byteOffset before lastEnd) =
    Returns (res ++ map (runeEdit ToString before after) diffs).
Proof.
  induction diffs as [|d rest IH]; intros res lastEnd H0 Hd.
  - cbn. by rewrite app_nil_r.
  - destruct Hd as ((? & ? & ?) & (? & ? & ?) & Hrest).
    cbn [diffRunesLoop]. rewrite !slice_ok by lia. cbn [mbind outcome_bind].
    assert (Hs1 : byteOffset before lastEnd + runesLen (segment before lastEnd (Lcs.Start d))
                 = byteOffset before (Lcs.Start d)).
    { unfold byteOffset. rewrite (take_segment_app before lastEnd (Lcs.Start d)) by lia.
      by rewrite runesLen_app. }
    assert (Hs2 : byteOffset before (Lcs.Start d) +
                 runesLen (segment before (Lcs.Start d) (Lcs.End d))
                 = byteOffset before (Lcs.End d)).
    { unfold byteOffset. rewrite (take_segment_app before (Lcs.Start d) (Lcs.End d)) by lia.
      by rewrite runesLen_app. }
    rewrite Hs1, Hs2, IH by (done || lia). cbn [map]. by rewrite <- app_assoc.
Qed.

(** X19. The loop of [diffRunes] turns rune offsets into byte offsets: for
    diffs that follow each other inside the two rune slices it does not panic
    and returns one edit per diff, in the same order, whose start and end are
    the lengths in bytes ([runesLen]) of the runes of [before] in front of the
    diff's start and end, and whose new text is the encoding of the diff's
    runes of [after].  When every rune of [before] has an encoding, these
    edits are in bounds for the encoded length of [before] and in order. *)
Theorem diffRunes_byte_offsets (ToString : list Z -> Text)
    (DiffRunes : list Z -> list Z -> outcome (list Lcs.Diff))
    (before after : list Z) (diffs : list Lcs.Diff) :
  DiffRunes before after = Returns diffs ->
  runeDiffs (len before) (len after) 0 diffs ->
  diffRunes ToString DiffRunes before after =
    Returns (map (runeEdit ToString before after) diffs) /\
  (Forall (fun r => 0 < RuneLen r) before ->
   Forall (inBounds (runesLen before)) (map (runeEdit ToString before after) diffs) /\
   ordered 0 (map (runeEdit ToString before after) diffs)).
Proof.
  intros Hrun Hd. split.
  - unfold diffRunes. rewrite Hrun. cbn [mbind outcome_bind].
    change 0 with (byteOffset before 0) at 2.
    by rewrite diffRunesLoop_spec.
  - intros Hv.
    assert (Hall : forall diffs lastEnd, 0 <= lastEnd ->
              runeDiffs (len before) (len after) lastEnd diffs ->
              Forall (inBounds (runesLen before)) (map (runeEdit ToString before after) diffs) /\
              ordered (byteOffset before lastEnd) (map (runeEdit ToString before after) diffs)).
    { clear diffs Hrun Hd. induction diffs as [|d rest IH]; intros lastEnd H0 Hd; [done |].
      destruct Hd as ((? & ? & ?) & _ & Hrest).
      destruct (IH (Lcs.End d)) as [IH1 IH2]; [lia | done |].
      pose proof (byteOffset_mono before 0 lastEnd Hv ltac:(lia)).
      pose proof (byteOffset_mono before lastEnd (Lcs.Start d) Hv ltac:(lia)).
      pose proof (byteOffset_mono before (Lcs.Start d) (Lcs.End d) Hv ltac:(lia)).
      pose proof (byteOffset_mono before (Lcs.End d) (len before) Hv ltac:(lia)) as Hmax.
      assert (byteOffset before (len before) = runesLen before) as Hb
        by (unfold byteOffset, len; by rewrite Nat2Z.id, firstn_all).
      assert (byteOffset before 0 = 0) as Hz by done.
      cbn [map]. split.
      - constructor; [| done]. unfold inBounds, runeEdit. cbn [Start End]. lia.
      - cbn [ordered]. unfold runeEdit at 1 2. cbn [Start End]. split; [lia | done]. }
    apply (Hall diffs 0); [lia | done].
Qed.

Lemma diffRunes_byte_offsets_witness :
  let ToString := fun rs : list Z => map (fun _ => x3f) rs in
  let DiffRunes := fun _ _ : list Z => Returns [Lcs.mkDiff 1 2 1 1] in
  diffRunes ToString DiffRunes [97; 233; 8364] [97; 8364] =
    Returns (map (runeEdit ToString [97; 233; 8364] [97; 8364]) [Lcs.mkDiff 1 2 1 1]) /\
  (Forall (fun r => 0 < RuneLen r) [97; 233; 8364] ->
   Forall (inBounds (runesLen [97; 233; 8364]))
     (map (runeEdit ToString [97; 233; 8364] [97; 8364]) [Lcs.mkDiff 1 2 1 1]) /\
   ordered 0 (map (runeEdit ToString [97; 233; 8364] [97; 8364]) [Lcs.mkDiff 1 2 1 1])).
Proof.
  intros ToString DiffRunes.
  apply (diffRunes_byte_offsets ToString DiffRunes [97; 233; 8364] [97; 8364]
           [Lcs.mkDiff 1 2 1 1]).
  - reflexivity.
  - vm_compute. repeat split; discriminate.
Defined.

(** ** lcs/sequence.go: windows of strings *)

#[local] Instance window_decision a b ai aj bi bj : Decision (window a b ai aj bi bj).
Proof. unfold window. apply _. Defined.

Lemma commonPrefixLenString_max a b :
  let p := Lcs.commonPrefixLenString a b in
  p < len a -> p < len b -> a !! Z.to_nat p <> b !! Z.to_nat p.
Proof.
  revert b. induction a as [|x a IH]; intros [|y b]; cbn [Lcs.commonPrefixLenString];
    try (unfold len; cbn [length]; lia).
  destruct (Byte.eqb x y) eqn:Hxy.
  - pose proof (commonPrefixLenString_spec a b) as (H0 & _).
    rewrite !len_cons. intros Ha Hb.
    replace (Z.to_nat (1 + Lcs.commonPrefixLenString a b))
      with (S (Z.to_nat (Lcs.commonPrefixLenString a b))) by lia.
    cbn [lookup list_lookup]. apply IH; lia.
  - intros _ _. cbn. intros [= ->]. by rewrite (proj2 (Byte_eqb_iff y y) eq_refl) in Hxy.
Qed.

(** X20. The methods [commonPrefixLen] and [commonSuffixLen] of [stringSeqs]
    on the window [a[ai:aj]], [b[bi:bj]]: when both pairs of indices are
    slice bounds of their strings ([0 <= i <= j <= len]) they return the
    lengths of the longest common prefix and of the longest common suffix of
    the two windows (the bytes agree over that length and differ just beyond
    it, unless a window ends there); otherwise they panic with slice bounds
    out of range. *)
Theorem stringSeqs_window (a b : Text) (ai aj bi bj : Z) :
  let s := Lcs.mkSeqs a b in
  if decide (window a b ai aj bi bj) then
    exists p q,
      Lcs.commonPrefixLen s ai aj bi bj = Returns p /\
      Lcs.commonSuffixLen s ai aj bi bj = Returns q /\
      (0 <= p /\ p <= aj - ai /\ p <= bj - bi /\
       segment a ai (ai + p) = segment b bi (bi + p) /\
       (p < aj - ai -> p < bj - bi -> a !! Z.to_nat (ai + p) <> b !! Z.to_nat (bi + p))) /\
      (0 <= q /\ q <= aj - ai /\ q <= bj - bi /\
       segment a (aj - q) aj = segment b (bj - q) bj /\
       (q < aj - ai -> q < bj - bi ->
        a !! Z.to_nat (aj - 1 - q) <> b !! Z.to_nat (bj - 1 - q)))
  else
    Lcs.commonPrefixLen s ai aj bi bj = Panics SliceBounds /\
    Lcs.commonSuffixLen s ai aj bi bj = Panics SliceBounds.
Proof.
  intros s. destruct (decide (window a b ai aj bi bj)) as [Hw | Hw].
  - destruct (commonPrefixLen_spec a b ai aj bi bj Hw) as (p & Hp & Hp0 & Hpa & Hpb & Hpeq).
    destruct (commonSuffixLen_spec a b ai aj bi bj Hw) as (q & Hq & Hq0 & Hqa & Hqb & Hqeq).
    exists p, q. split; [done |]. split; [done |].
    destruct Hw as [(? & ? & ?) (? & ? & ?)].
    unfold Lcs.commonPrefixLen, Lcs.commonSuffixLen in Hp, Hq.
    cbn [Lcs.seq_a Lcs.seq_b] in Hp, Hq. rewrite !slice_ok in Hp, Hq by lia.
    cbn [mbind outcome_bind] in Hp, Hq. injection Hp as Hp. injection Hq as Hq.
    split; (split; [done |]; split; [done |]; split; [done |]; split; [done |]).
    + intros Hlt1 Hlt2.
      pose proof (commonPrefixLenString_max (segment a ai aj) (segment b bi bj)) as Hmax.
      cbv zeta in Hmax. rewrite Hp, !len_segment in Hmax by lia.
      rewrite !lookup_segment in Hmax by lia. apply Hmax; lia.
    + intros Hlt1 Hlt2. unfold Lcs.commonSuffixLenString in Hq.
      pose proof (commonPrefixLenString_max (rev (segment a ai aj)) (rev (segment b bi bj)))
        as Hmax.
      cbv zeta in Hmax. rewrite Hq in Hmax. unfold len at 1 2 in Hmax.
      rewrite !length_rev in Hmax.
      pose proof (len_segment a ai aj ltac:(lia) ltac:(lia) ltac:(lia)) as Hla.
      pose proof (len_segment b bi bj ltac:(lia) ltac:(lia) ltac:(lia)) as Hlb.
      unfold len in Hla, Hlb.
      rewrite !lookup_rev in Hmax by lia.
      replace (length (segment a ai aj) - S (Z.to_nat q))%nat
        with (Z.to_nat (aj - ai - 1 - q)) in Hmax by lia.
      replace (length (segment b bi bj) - S (Z.to_nat q))%nat
        with (Z.to_nat (bj - bi - 1 - q)) in Hmax by lia.
      rewrite !lookup_segment in Hmax by lia.
      replace (ai + (aj - ai - 1 - q)) with (aj - 1 - q) in Hmax by lia.
      replace (bi + (bj - bi - 1 - q)) with (bj - 1 - q) in Hmax by lia.
      apply Hmax; lia.
  - unfold Lcs.commonPrefixLen, Lcs.commonSuffixLen, slice. cbn [Lcs.seq_a Lcs.seq_b s].
    destruct ((0 <=? ai) && (ai <=? aj) && (aj <=? len a)) eqn:Ha; [| done].
    destruct ((0 <=? bi) && (bi <=? bj) && (bj <=? len b)) eqn:Hb; [| done].
    exfalso. apply Hw.
    rewrite !andb_true_iff, !Z.leb_le in Ha, Hb. unfold window. lia.
Qed.

(** ** diff.go: the order of edits *)

(** X21. On two edits whose starts are offsets ([0 <= start <= MaxInt64])
    [editsSort.Less] is the strict lexicographic order on (start, end). *)
Theorem Less_on_offsets (a b : Edit) :
  offsetStart a -> offsetStart b ->
  Less a b = bool_decide (Start a < Start b \/ (Start a = Start b /\ End a < End b)).
Proof.
  intros Ha Hb. pose proof (Less_ltEdit a b Ha Hb) as Hiff. unfold ltEdit in Hiff.
  destruct (Less a b).
  - symmetry. apply bool_decide_eq_true. by apply Hiff.
  - symmetry. apply bool_decide_eq_false. intros H. apply Hiff in H. discriminate.
Qed.

Lemma Less_on_offsets_witness :
  Less (mkEdit 3 9 []) (mkEdit 3 10 [x41]) =
    bool_decide (Start (mkEdit 3 9 []) < Start (mkEdit 3 10 [x41]) \/
                 (Start (mkEdit 3 9 []) = Start (mkEdit 3 10 [x41]) /\
                  End (mkEdit 3 9 []) < End (mkEdit 3 10 [x41]))).
Proof.
  apply Less_on_offsets; unfold offsetStart, GoInt.int_max; cbn [Start]; lia.
Defined.

(** ** myers: an empty side *)

Lemma backtrack_edge (trace : list (list Z)) (x y off : Z) :
  0 <= x -> 0 <= y -> x <= 0 \/ y <= 0 -> 0 <= off -> len trace = off + 1 ->
  Myers.backtrack trace x y off = Returns (replicate (Z.to_nat off) [] ++ [[x; y]]).
Proof.
  intros Hx Hy Hxy Hoff Hlen. unfold Myers.backtrack.
  assert (Hl : length trace = S (Z.to_nat off)) by (unfold len in Hlen; lia).
  rewrite Hl. cbn [Myers.backtrackLoop].
  replace ((x >? 0) && (y >? 0) && (len trace - 1 >? 0)) with false.
  2:{ symmetry. apply andb_false_iff. left. apply andb_false_iff.
      rewrite !Z.gtb_ltb, !Z.ltb_ge. lia. }
  cbn [mbind outcome_bind].
  replace ((x <? 0) || (y <? 0)) with false
    by (symmetry; apply orb_false_iff; rewrite !Z.ltb_ge; lia).
  pose proof (store_snakes [] [] off [x; y] [] Hoff) as Hst.
  rewrite app_nil_r in Hst. replace (len trace - 1) with off by lia.
  by replace (S (Z.to_nat off)) with (Z.to_nat (off + 1)) by lia.
Qed.

Lemma len_trace (a b : list Text) trace off :
  1 <= len b + len a -> Myers.shortestEditSequence a b = Returns (trace, off) ->
  off = len b + len a /\ len trace = off + 1.
Proof.
  intros Hoff Hrun.
  destruct (shortestEditSequence_spec a b Hoff) as (D & snaps & T & Hs & HD & Hlen & _).
  rewrite Hs in Hrun. injection Hrun as <- <-. split; [done |].
  rewrite len_app, len_cons, len_replicate; lia.
Qed.

Lemma Operations_insert_all (b : list Text) :
  b <> [] -> Myers.Operations [] b = Returns [Myers.mkOp Myers.Insert 0 0 0 (len b)].
Proof.
  intros Hb. pose proof (len_nonneg b) as Hn.
  assert (HN : 0 < len b) by (destruct b; [done | unfold len; cbn [length]; lia]).
  unfold Myers.Operations. change (len []) with 0.
  replace ((0 =? 0) && (len b =? 0)) with false
    by (symmetry; apply andb_false_iff; right; apply Z.eqb_neq; lia).
  destruct (shortestEditSequence_spec [] b ltac:(change (len []) with 0; lia))
    as (D & snaps & T & Hs & _).
  destruct (len_trace [] b _ _ ltac:(change (len []) with 0; lia) Hs) as [_ Hlen].
  rewrite Hs. cbn [mbind outcome_bind].
  rewrite (backtrack_edge _ 0 (len b) (len b + 0)) by (done || lia).
  cbn [mbind outcome_bind]. rewrite snakeLoop_nils.
  cbn [Myers.snakeLoop]. change (len [0; len b] <? 2) with false. cbv iota.
  change (index [0; len b] 0) with (Returns 0).
  change (index [0; len b] 1) with (Returns (len b)). cbn [mbind outcome_bind].
  replace (0 - len b >? 0 - 0) with false by (symmetry; rewrite Z.gtb_ltb; apply Z.ltb_ge; lia).
  rewrite (deleteLoop_none [] []) by lia. cbn [Myers.add mbind outcome_bind].
  replace (0 - len b <? 0 - 0) with true by (symmetry; apply Z.ltb_lt; lia).
  rewrite (insertLoop_eq [] []) by lia.
  replace (0 + Z.of_nat (Z.to_nat (0 - 0 - (0 - len b)))) with (len b) by lia.
  cbn [Myers.add Myers.Kind Myers.Start Myers.ReplStart].
  replace (len [] <? 0 + len b) with true by (symmetry; apply Z.ltb_lt; rewrite len_nil; lia).
  cbn [mbind outcome_bind app]. rewrite (equalLoop_Z [] []) by lia.
  replace ((0 >=? 0) && (len b + (0 - 0) >=? len b)) with true; [done |].
  symmetry. apply andb_true_iff. rewrite !Z.geb_leb, !Z.leb_le. lia.
Qed.

Lemma Operations_delete_all (a : list Text) :
  a <> [] -> Myers.Operations a [] = Returns [Myers.mkOp Myers.Delete 0 (len a) 0 0].
Proof.
  intros Ha. pose proof (len_nonneg a) as Hn.
  assert (HM : 0 < len a) by (destruct a; [done | unfold len; cbn [length]; lia]).
  unfold Myers.Operations. change (len []) with 0.
  replace ((len a =? 0) && (0 =? 0)) with false
    by (symmetry; apply andb_false_iff; left; apply Z.eqb_neq; lia).
  destruct (shortestEditSequence_spec a [] ltac:(change (len []) with 0; lia))
    as (D & snaps & T & Hs & _).
  destruct (len_trace a [] _ _ ltac:(change (len []) with 0; lia) Hs) as [_ Hlen].
  rewrite Hs. cbn [mbind outcome_bind].
  rewrite (backtrack_edge _ (len a) 0 (0 + len a)) by (done || lia).
  cbn [mbind outcome_bind]. rewrite snakeLoop_nils.
  cbn [Myers.snakeLoop]. change (len [len a; 0] <? 2) with false. cbv iota.
  change (index [len a; 0] 0) with (Returns (len a)).
  change (index [len a; 0] 1) with (Returns 0). cbn [mbind outcome_bind].
  replace (len a - 0 >? 0 - 0) with true by (symmetry; rewrite Z.gtb_ltb; apply Z.ltb_lt; lia).
  rewrite (deleteLoop_eq [] []) by lia.
  replace (0 + Z.of_nat (Z.to_nat (len a - 0 - (0 - 0)))) with (len a) by lia.
  cbn [Myers.add Myers.Kind Myers.Start Myers.ReplStart Myers.ReplEnd].
  replace (len [] <? len a + 0) with true by (symmetry; apply Z.ltb_lt; rewrite len_nil; lia).
  cbn [mbind outcome_bind app].
  replace (len a - 0 <? len a - 0) with false by (symmetry; apply Z.ltb_ge; lia).
  rewrite (insertLoop_none [] []) by lia. cbn [Myers.add mbind outcome_bind].
  rewrite (equalLoop_Z [] []) by lia.
  replace ((len a >=? len a) && (0 + (len a - len a) >=? 0)) with true; [done |].
  symmetry. apply andb_true_iff. rewrite !Z.geb_leb, !Z.leb_le. lia.
Qed.

(** X22. When one of the two texts is empty and the other is not,
    [ComputeEdits] returns a single edit: the insertion of the whole of
    [after] at offset 0 when [before] is empty, the deletion of the whole of
    [before] when [after] is empty. *)
Theorem ComputeEdits_empty_side (t : Text) :
  t <> [] ->
  Myers.ComputeEdits [] t = Returns [mkEdit 0 0 t] /\
  Myers.ComputeEdits t [] = Returns [mkEdit 0 (len t) []].
Proof.
  intros Ht. unfold Myers.ComputeEdits.
  change (Myers.splitLines []) with (Returns (@nil Text)).
  destruct (splitLines_spec t) as (l & -> & Hcat). cbn [mbind outcome_bind].
  assert (Hl : l <> []) by (intros ->; by cbn in Hcat).
  pose proof (len_nonneg l) as Hn.
  assert (HN : 0 < len l) by (destruct l; [done | unfold len; cbn [length]; lia]).
  split.
  - rewrite (Operations_insert_all l Hl). cbn [mbind outcome_bind].
    cbn [Myers.editsLoop Myers.Start Myers.End Myers.Kind Myers.ReplStart Myers.ReplEnd
         Myers.lineOffsetsFrom].
    change (index [0] 0) with (Returns 0). cbn [mbind outcome_bind].
    rewrite slice_ok by lia. cbn [mbind outcome_bind]. rewrite segment_all, Hcat.
    replace (len t =? 0) with false; [done |].
    symmetry. apply Z.eqb_neq. destruct t; [done | unfold len; cbn [length]; lia].
  - rewrite (Operations_delete_all l Hl). cbn [mbind outcome_bind].
    cbn [Myers.editsLoop Myers.Start Myers.End Myers.Kind].
    rewrite !index_lineOffsets by lia. cbn [mbind outcome_bind app].
    by rewrite lineOffset_len, Hcat.
Qed.

Lemma ComputeEdits_empty_side_witness :
  Myers.ComputeEdits [] [x61; x0a; x62] = Returns [mkEdit 0 0 [x61; x0a; x62]] /\
  Myers.ComputeEdits [x61; x0a; x62] [] = Returns [mkEdit 0 (len [x61; x0a; x62]) []].
Proof. apply ComputeEdits_empty_side. discriminate. Defined.

(** ** myers and lineEdits together *)

(** X23. The pipeline from a line diff to whole-line edits: for a [before]
    whose length is an [int], [lineEdits(before, ComputeEdits(before, after))]
    returns edits without error, and [Apply] of these edits to [before]
    returns [after]. *)
Theorem ComputeEdits_lineEdits_Apply (before after : Text) :
  len before <= GoInt.int_max ->
  exists E LE,
    Myers.ComputeEdits before after = Returns E /\
    lineEdits before E = Returns (LE, None) /\
    Apply before LE = Returns (after, None).
Proof.
  intros HL. destruct (ComputeEdits_spec before after) as (E & HE & Hin & Hord & Hpat).
  pose proof (Validate_ordered (len before) E HL Hin Hord) as HV.
  destruct (lineEdits_shape before E E _ HV) as (LE & Hrun & Hfo & Hoo & Hpat' & _).
  exists E, LE. split; [done |]. split; [done |].
  rewrite (Apply_ordered before LE) by done. by rewrite Hpat', Hpat.
Qed.

Lemma ComputeEdits_lineEdits_Apply_witness :
  exists E LE,
    Myers.ComputeEdits [x61; x0a; x62] [x61; x0a; x63; x0a] = Returns E /\
    lineEdits [x61; x0a; x62] E = Returns (LE, None) /\
    Apply [x61; x0a; x62] LE = Returns ([x61; x0a; x63; x0a], None).
Proof.
  apply ComputeEdits_lineEdits_Apply. vm_compute. discriminate.
Defined.

(** ** diff.go: validation and the order of the edits *)

(** The span of an edit. *)
Definition key (e : Edit) : Z * Z := (Start e, End e).

Lemma validateLoop_keys L l1 : forall l2 size1 size2 lastEnd,
  key <$> l1 = key <$> l2 ->
  match validateLoop L l1 size1 lastEnd, validateLoop L l2 size2 lastEnd with
  | inl e1, inl e2 => e1 = e2
  | inr _, inr _ => True
  | _, _ => False
  end.
Proof.
  induction l1 as [|e1 r1 IH]; intros [|e2 r2] size1 size2 lastEnd Hk; try done.
  injection Hk as Hs He Hr. cbn [validateLoop]. rewrite Hs, He.
  destruct (negb ((0 <=? Start e2) && (Start e2 <=? End e2) && (End e2 <=? L))); [done |].
  destruct (Start e2 <? lastEnd); [done |]. by apply IH.
Qed.

Lemma sorted_keys E1 E2 :
  E1 ≡ₚ E2 -> Forall offsetStart E1 ->
  key <$> SortEdits E1 = key <$> SortEdits E2.
Proof.
  intros Hp H1. assert (H2 : Forall offsetStart E2) by (by rewrite <- Hp).
  set (R := fun k1 k2 : Z * Z => ~ (k2.1 < k1.1 \/ (k2.1 = k1.1 /\ k2.2 < k1.2))).
  apply (StronglySorted_unique_strong R).
  - intros [s1 e1] [s2 e2] _ _. unfold R. cbn [fst snd]. intros ? ?. f_equal; lia.
  - apply (StronglySorted_fmap key (fun a b => ~ ltEdit b a)); [done |].
    by apply SortEdits_sorted.
  - apply (StronglySorted_fmap key (fun a b => ~ ltEdit b a)); [done |].
    by apply SortEdits_sorted.
  - apply fmap_Permutation. unfold SortEdits. by rewrite !Stable_perm.
Qed.

(** X24. Validation does not depend on the order in which the edits are
    given: for two lists that are permutations of each other (with starts
    that are offsets) [Validate] either fails on both with the same error or
    succeeds on both with the same size, and the two lists it returns are
    permutations of each other. *)
Theorem Validate_order_independent (L : Z) (E1 E2 : list Edit) :
  E1 ≡ₚ E2 -> Forall offsetStart E1 ->
  (Validate L E1).2 = (Validate L E2).2 /\
  (Validate L E1).1.2 = (Validate L E2).1.2 /\
  (Validate L E1).1.1 ≡ₚ (Validate L E2).1.1.
Proof.
  intros Hp H1. pose proof (sorted_keys E1 E2 Hp H1) as Hk.
  unfold Validate. rewrite !sortedEdits_SortEdits.
  pose proof (validateLoop_keys L (SortEdits E1) (SortEdits E2) L L 0 Hk) as Hv.
  destruct (validateLoop L (SortEdits E1) L 0) as [err1 | size1] eqn:Hv1;
    destruct (validateLoop L (SortEdits E2) L 0) as [err2 | size2] eqn:Hv2; try done.
  - by subst.
  - apply validateLoop_ok in Hv1 as (_ & _ & ->). apply validateLoop_ok in Hv2 as (_ & _ & ->).
    cbn [fst snd]. split; [done |].
    assert (Hperm : SortEdits E1 ≡ₚ SortEdits E2) by (unfold SortEdits; by rewrite !Stable_perm).
    split; [by rewrite (sizeDelta_perm _ _ Hperm) | done].
Qed.

Lemma Validate_order_independent_witness :
  let E1 := [mkEdit 3 4 []; mkEdit 1 1 [x41]; mkEdit 1 2 [x42]] in
  let E2 := [mkEdit 1 2 [x42]; mkEdit 3 4 []; mkEdit 1 1 [x41]] in
  (Validate 4 E1).2 = (Validate 4 E2).2 /\
  (Validate 4 E1).1.2 = (Validate 4 E2).1.2 /\
  (Validate 4 E1).1.1 ≡ₚ (Validate 4 E2).1.1.
Proof.
  apply Validate_order_independent.
  - exact (Permutation_app_comm [mkEdit 3 4 []; mkEdit 1 1 [x41]] [mkEdit 1 2 [x42]]).
  - repeat constructor; unfold offsetStart, GoInt.int_max; cbn [Start]; lia.
Defined.

(** ** myers: splitting is the inverse of joining *)

Lemma SplitAfter_terminated body rest :
  NL ∉ body ->
  Myers.SplitAfter (body ++ [NL] ++ rest) = (body ++ [NL]) :: Myers.SplitAfter rest.
Proof.
  induction body as [|c body IH]; intros Hnl.
  - cbn [app Myers.SplitAfter]. by rewrite (proj2 (Byte_eqb_iff NL NL) eq_refl).
  - apply not_elem_of_cons in Hnl as [Hc Hnl]. cbn [app Myers.SplitAfter].
    destruct (Byte.eqb c NL) eqn:Heq; [by apply Byte_eqb_iff in Heq |].
    cbn [app] in IH. by rewrite IH.
Qed.

Lemma SplitAfter_unterminated l : NL ∉ l -> Myers.SplitAfter l = [l].
Proof.
  induction l as [|c l IH]; intros Hnl; [done |].
  apply not_elem_of_cons in Hnl as [Hc Hnl]. cbn [Myers.SplitAfter].
  destruct (Byte.eqb c NL) eqn:Heq; [by apply Byte_eqb_iff in Heq |].
  by rewrite IH.
Qed.

Lemma SplitAfter_lines lines :
  linesOK lines ->
  Myers.SplitAfter (concat lines) = lines ++ [[]] \/
  (Myers.SplitAfter (concat lines) = lines /\ exists init l, lines = init ++ [l] /\ l <> []).
Proof.
  induction lines as [|l r IH]; intros Hok; [by left |].
  destruct r as [|l2 r].
  - cbn [concat]. rewrite app_nil_r. destruct Hok as [(body & -> & Hnl) | [Hne Hnl]].
    + left. pose proof (SplitAfter_terminated body [] Hnl) as Hs.
      rewrite app_nil_r in Hs. by rewrite Hs.
    + right. split; [by apply SplitAfter_unterminated |]. by exists [], l.
  - change (terminated l /\ linesOK (l2 :: r)) in Hok. destruct Hok as [(body & -> & Hnl) Hok].
    change (concat ((body ++ [NL]) :: l2 :: r)) with ((body ++ [NL]) ++ concat (l2 :: r)).
    rewrite <- app_assoc, SplitAfter_terminated by done.
    destruct (IH Hok) as [-> | (-> & init & l & Hl & Hne)]; [by left |].
    right. split; [done |]. exists ((body ++ [NL]) :: init), l. by rewrite Hl.
Qed.

(** X25. [splitLines] is the inverse of concatenation on lists of lines:
    [splitLines(t)] returns [lines] exactly when [lines] concatenate to [t] and
    each of them ends in its only ['\n'], the last one being allowed to be a
    non-empty line without ['\n'] instead. *)
Theorem splitLines_iff (t : Text) (lines : list Text) :
  Myers.splitLines t = Returns lines <-> concat lines = t /\ linesOK lines.
Proof.
  split.
  - intros Hrun. destruct (splitLines_shape t) as (lines' & Hrun' & Hcat & Hok & _).
    rewrite Hrun in Hrun'. injection Hrun' as <-. done.
  - intros [<- Hok]. unfold Myers.splitLines.
    pose proof (len_nonneg lines) as Hn.
    destruct (SplitAfter_lines lines Hok) as [-> | (-> & init & l & -> & Hne)].
    + rewrite len_app. change (len [[]]) with 1.
      replace (len lines + 1 - 1) with (len lines) by lia.
      rewrite (index_Returns [] (lines ++ [[]])) by (rewrite len_app; change (len [[]]) with 1; lia).
      rewrite lookup_app_r by (unfold len; lia).
      replace (Z.to_nat (len lines) - length lines)%nat with 0%nat by (unfold len; lia).
      cbn [mbind outcome_bind lookup list_lookup default from_option id].
      change (len (@nil byte) =? 0) with true. cbv iota.
      unfold slice_to. rewrite slice_ok by (rewrite ?len_app; change (len [[]]) with 1; lia).
      f_equal. unfold segment. rewrite drop_0.
      replace (Z.to_nat (len lines - 0)) with (length lines) by (unfold len; lia).
      by rewrite take_app_length.
    + pose proof (len_nonneg init).
      rewrite len_app. change (len [l]) with 1.
      replace (len init + 1 - 1) with (len init) by lia.
      rewrite (index_Returns [] (init ++ [l])) by (rewrite len_app; change (len [l]) with 1; lia).
      rewrite lookup_app_r by (unfold len; lia).
      replace (Z.to_nat (len init) - length init)%nat with 0%nat by (unfold len; lia).
      cbn [mbind outcome_bind lookup list_lookup default from_option id].
      replace (len l =? 0) with false; [done |].
      symmetry. apply Z.eqb_neq. destruct l; [done | unfold len; cbn [length]; lia].
Qed.
